(** * navii: navigation sequencing and the resumable session engine

    A shallow embedding of [db.types.go], [db.go] and [stateManager.go].
    The SQLite store is a record of tables (lists of rows in rowid order)
    together with the keys, uniqueness and foreign-key constraints that
    [initTables] declares; the store is otherwise taken to be operational
    (no I/O failure).  The [StateManager] methods run in a small monad that
    threads the manager and stops at a Go panic, keeping the store as the
    panic left it. *)

From Stdlib Require Import ZArith List String Ascii Bool Lia Arith.
Import ListNotations.
Local Open Scope Z_scope.
Local Open Scope list_scope.

Set Implicit Arguments.

(* ===================================================================== *)
(** ** Go runtime helpers *)
(* ===================================================================== *)

(** Go's [error]: [nil] is [None], otherwise the message. *)
Definition error := option string.

(** [int] is 64 bits wide; [i++] wraps around. *)
Definition wrap_int (z : Z) : Z := (z + 2 ^ 63) mod 2 ^ 64 - 2 ^ 63.

(** [strings.Split(s, sep)] for a non-empty [sep].  [skip] counts the
    characters of a separator that was just matched and is being consumed;
    [acc] is the part read so far. *)
Fixpoint split_from (sep : string) (skip : nat) (acc : string) (s : string)
  : list string :=
  match s with
  | EmptyString => [acc]
  | String c s' =>
      match skip with
      | S k => split_from sep k acc s'
      | O =>
          if String.prefix sep s
          then acc :: split_from sep (String.length sep - 1) EmptyString s'
          else split_from sep 0 (acc ++ String c EmptyString)%string s'
      end
  end.

Definition strings_Split (s sep : string) : list string :=
  split_from sep 0 EmptyString s.

(** [strings.HasPrefix(s, prefix)]. *)
Definition strings_HasPrefix (s pre : string) : bool := String.prefix pre s.

(** [strings.Join(parts, sep)]. *)
Definition strings_Join (parts : list string) (sep : string) : string :=
  String.concat sep parts.

(** [sort.Ints]: the ascending arrangement of the elements. *)
Fixpoint insert_sorted (x : Z) (l : list Z) : list Z :=
  match l with
  | [] => [x]
  | y :: l' => if x <=? y then x :: l else y :: insert_sorted x l'
  end.

Definition sort_Ints (l : list Z) : list Z := fold_right insert_sorted [] l.

(** A Go [[]int]: the elements in view ([len] of them) and the slots of the
    backing array behind them (up to [cap]).  Two slice values cut from the
    same array see each other's writes. *)
Record IntSlice := mkIntSlice {
  elems : list Z;
  spare : list Z
}.

Definition slice_len (s : IntSlice) : Z := Z.of_nat (List.length (elems s)).

Definition slice_of (l : list Z) : IntSlice := mkIntSlice l [].

(** [local := append(s, x); sort.Ints(local)], as seen from both sides:
    the first component is [local], the second is what the untouched slice
    value [s] shows afterwards.  With spare capacity the append writes into
    the shared array and the sort rearranges it under [s]; without, the
    runtime allocates a new array and [s] is unaffected. *)
Definition append_then_sort (s : IntSlice) (x : Z) : IntSlice * IntSlice :=
  let sorted := sort_Ints (elems s ++ [x]) in
  match spare s with
  | [] => (mkIntSlice sorted [], s)
  | _ :: rest =>
      (mkIntSlice sorted rest,
       mkIntSlice (firstn (List.length (elems s)) sorted)
                  (skipn (List.length (elems s)) sorted ++ rest))
  end.

(* ===================================================================== *)
(** ** Types ([db.types.go]) *)
(* ===================================================================== *)

Record Country := mkCountry {
  Country_ID : option Z;
  Country_Country : string;
  Country_CountryShort : string;
  Country_Used : bool;
  Country_External : bool
}.

Record State := mkState {
  State_ID : option Z;
  State_State : string;
  State_StateShort : string;
  State_CountryShort : string;
  State_Used : bool;
  State_External : bool
}.

Record City := mkCity {
  City_ID : option Z;
  City_City : string;
  City_StateShort : string;
  City_CountryShort : string;
  City_County : option string;
  City_Used : bool;
  City_External : bool
}.

Record Zip := mkZip {
  Zip_ID : option Z;
  Zip_Zip : string;
  Zip_CountryShort : string;
  Zip_Used : bool;
  Zip_External : bool
}.

Record Query := mkQuery {
  Query_ID : option Z;
  Query_Query : string;
  Query_Used : bool;
  Query_External : bool
}.

(** The text of the [page] column.  The program writes the empty string and
    what [json.Marshal] gives for a [PageNav] or for the sentinel string; it
    reads back the bare word [completed] as well.  The column is kept in
    parsed form: [PageText_json pages total] stands for
    [{"pages":[...],"total":n}]. *)
Inductive PageText :=
| PageText_empty
| PageText_completed
| PageText_json (pages : list Z) (total : Z)
| PageText_quoted_completed.

Record NavSession := mkNavSession {
  NavSession_ID : Z;
  NavSession_Format : string;
  NavSession_CountryShort : string;
  NavSession_QueryID : option Z;
  NavSession_ZipID : option Z;
  NavSession_CityID : option Z;
  NavSession_StateShort : option string;
  NavSession_Page : PageText;
  NavSession_Completed : bool;
  NavSession_External : bool
}.

Definition NavFormat := string.

Record Nav := mkNav {
  Nav_Query : option string;
  Nav_Zip : option string;
  Nav_City : option string;
  Nav_State : option string;
  Nav_StateShort : option string;
  Nav_Country : option string;
  Nav_CountryShort : option string;
  Nav_County : option string
}.

Record PageNav := mkPageNav {
  PageNav_Pages : IntSlice;
  PageNav_Total : Z
}.

(** [NavResponse.Page] is an [interface{}]: [nil], a [PageNav], or the
    string ["completed"]. *)
Inductive PageValue :=
| Page_nil
| Page_PageNav (p : PageNav)
| Page_completed.

Record NavResponse := mkNavResponse {
  NavResponse_Format : NavFormat;
  NavResponse_Nav : Nav;
  NavResponse_Country : string;
  NavResponse_Placeholder : string;
  NavResponse_Page : PageValue;
  NavResponse_HasNext : bool
}.

Record InitOptions := mkInitOptions {
  InitOptions_Format : NavFormat;
  InitOptions_TargetCountry : string
}.

(** [LocationData]: the two Go maps, listed in the order in which the
    runtime happens to range over them. *)
Record LocationData := mkLocationData {
  CityData : list (string * list (string * list string));
  ZipData : list (string * list string)
}.

Definition NavFormatZip : NavFormat := "zip"%string.
Definition NavFormatZipCountry : NavFormat := "zip-country"%string.
Definition NavFormatQueryZip : NavFormat := "query-zip"%string.
Definition NavFormatQueryZipCountry : NavFormat := "query-zip-country"%string.
Definition NavFormatCity : NavFormat := "city"%string.
Definition NavFormatCityState : NavFormat := "city-state"%string.
Definition NavFormatCityStateCountry : NavFormat := "city-state-country"%string.
Definition NavFormatQueryCity : NavFormat := "query-city"%string.
Definition NavFormatQueryCityState : NavFormat := "query-city-state"%string.
Definition NavFormatQueryCityStateCountry : NavFormat := "query-city-state-country"%string.
Definition NavFormatState : NavFormat := "state"%string.
Definition NavFormatStateCountry : NavFormat := "state-country"%string.
Definition NavFormatQueryState : NavFormat := "query-state"%string.
Definition NavFormatQueryStateCountry : NavFormat := "query-state-country"%string.
Definition NavFormatQueryCounty : NavFormat := "query-county"%string.
Definition NavFormatQuery : NavFormat := "query"%string.
Definition NavFormatCounty : NavFormat := "county"%string.

(* ===================================================================== *)
(** ** The store ([db.go]) *)
(* ===================================================================== *)

(** The six tables of [initTables], rows in rowid order, and the
    [sqlite_sequence] entries of the four AUTOINCREMENT tables. *)
Record DB := mkDB {
  tbl_countries : list Country;
  tbl_states : list State;
  tbl_cities : list City;
  tbl_zips : list Zip;
  tbl_queries : list Query;
  tbl_nav_sessions : list NavSession;
  seq_cities : Z;
  seq_zips : Z;
  seq_queries : Z;
  seq_nav_sessions : Z
}.

(** [NewDB] on a fresh file: [initTables] creates empty tables. *)
Definition empty_DB : DB := mkDB [] [] [] [] [] [] 0 0 0 0.

Definition with_countries (d : DB) (t : list Country) : DB :=
  mkDB t (tbl_states d) (tbl_cities d) (tbl_zips d) (tbl_queries d)
       (tbl_nav_sessions d) (seq_cities d) (seq_zips d) (seq_queries d)
       (seq_nav_sessions d).

Definition with_states (d : DB) (t : list State) : DB :=
  mkDB (tbl_countries d) t (tbl_cities d) (tbl_zips d) (tbl_queries d)
       (tbl_nav_sessions d) (seq_cities d) (seq_zips d) (seq_queries d)
       (seq_nav_sessions d).

Definition with_cities (d : DB) (t : list City) (seq : Z) : DB :=
  mkDB (tbl_countries d) (tbl_states d) t (tbl_zips d) (tbl_queries d)
       (tbl_nav_sessions d) seq (seq_zips d) (seq_queries d)
       (seq_nav_sessions d).

Definition with_zips (d : DB) (t : list Zip) (seq : Z) : DB :=
  mkDB (tbl_countries d) (tbl_states d) (tbl_cities d) t (tbl_queries d)
       (tbl_nav_sessions d) (seq_cities d) seq (seq_queries d)
       (seq_nav_sessions d).

Definition with_queries (d : DB) (t : list Query) (seq : Z) : DB :=
  mkDB (tbl_countries d) (tbl_states d) (tbl_cities d) (tbl_zips d) t
       (tbl_nav_sessions d) (seq_cities d) (seq_zips d) seq
       (seq_nav_sessions d).

Definition with_nav_sessions (d : DB) (t : list NavSession) (seq : Z) : DB :=
  mkDB (tbl_countries d) (tbl_states d) (tbl_cities d) (tbl_zips d)
       (tbl_queries d) t (seq_cities d) (seq_zips d) (seq_queries d) seq.

(** AUTOINCREMENT: one more than the largest rowid the table ever held. *)
Definition next_rowid (seq : Z) (ids : list (option Z)) : Z :=
  fold_right (fun o m => match o with Some i => Z.max i m | None => m end)
             seq ids + 1.

Definition has_id (id : Z) (ids : list (option Z)) : bool :=
  existsb (fun o => match o with Some i => i =? id | None => false end) ids.

Definition country_exists (d : DB) (cs : string) : bool :=
  existsb (fun r => (Country_CountryShort r =? cs)%string) (tbl_countries d).

Definition state_exists (d : DB) (ss cs : string) : bool :=
  existsb (fun r => (State_StateShort r =? ss)%string
                    && (State_CountryShort r =? cs)%string) (tbl_states d).

Definition fk_failed : string := "FOREIGN KEY constraint failed"%string.

(** [tx := Begin(); defer tx.Rollback(); ...; return tx.Commit()]: the
    statements run in order; the first one the store rejects ends the call
    with its error and the rollback leaves the store as it was. *)
Fixpoint exec_each {R : Type} (stmt : R -> DB -> option DB) (rows : list R)
  (d : DB) : option DB :=
  match rows with
  | [] => Some d
  | r :: rest =>
      match stmt r d with
      | Some d' => exec_each stmt rest d'
      | None => None
      end
  end.

Definition in_transaction (body : DB -> option DB) (d : DB) : error * DB :=
  match body d with
  | Some d' => (None, d')
  | None => (Some fk_failed, d)
  end.

(** [INSERT OR IGNORE INTO countries]: a row with the same primary key is
    skipped. *)
Definition insert_country (external : bool) (c : Country) (d : DB) : option DB :=
  if country_exists d (Country_CountryShort c) then Some d
  else Some (with_countries d
         (tbl_countries d ++
          [mkCountry None (Country_Country c) (Country_CountryShort c)
                     (Country_Used c) external])).

Definition country_invalid (c : Country) : bool :=
  (Country_CountryShort c =? "")%string || (Country_Country c =? "")%string.

Definition AddCountries (countries : list Country) (external : bool) (d : DB)
  : error * DB :=
  if existsb country_invalid countries
  then (Some "all countries must have countryShort and country"%string, d)
  else in_transaction (exec_each (insert_country external) countries) d.

(** [INSERT OR IGNORE INTO states]: skipped on the primary key
    [(stateShort, countryShort)]; rejected when the country is missing
    (OR IGNORE does not cover foreign keys). *)
Definition insert_state (external : bool) (s : State) (d : DB) : option DB :=
  if state_exists d (State_StateShort s) (State_CountryShort s) then Some d
  else if country_exists d (State_CountryShort s)
  then Some (with_states d
         (tbl_states d ++
          [mkState None (State_State s) (State_StateShort s)
                   (State_CountryShort s) (State_Used s) external]))
  else None.

Definition state_invalid (s : State) : bool :=
  (State_StateShort s =? "")%string || (State_State s =? "")%string
  || (State_CountryShort s =? "")%string.

Definition AddStates (states : list State) (external : bool) (d : DB)
  : error * DB :=
  if existsb state_invalid states
  then (Some "all states must have stateShort, state, and countryShort"%string, d)
  else in_transaction (exec_each (insert_state external) states) d.

Definition city_exists (d : DB) (c : City) : bool :=
  existsb (fun r => (City_City r =? City_City c)%string
                    && (City_StateShort r =? City_StateShort c)%string
                    && (City_CountryShort r =? City_CountryShort c)%string)
          (tbl_cities d).

(** [INSERT OR IGNORE INTO cities]: skipped on
    UNIQUE(city, stateShort, countryShort); rejected when the state or the
    country is missing. *)
Definition insert_city (external : bool) (c : City) (d : DB) : option DB :=
  if city_exists d c then Some d
  else if state_exists d (City_StateShort c) (City_CountryShort c)
          && country_exists d (City_CountryShort c)
  then let id := next_rowid (seq_cities d) (map City_ID (tbl_cities d)) in
       Some (with_cities d
         (tbl_cities d ++
          [mkCity (Some id) (City_City c) (City_StateShort c)
                  (City_CountryShort c) (City_County c) (City_Used c) external])
         id)
  else None.

Definition city_invalid (c : City) : bool :=
  (City_City c =? "")%string || (City_StateShort c =? "")%string
  || (City_CountryShort c =? "")%string.

Definition AddCities (cities : list City) (external : bool) (d : DB)
  : error * DB :=
  if existsb city_invalid cities
  then (Some "all cities must have city, stateShort, and countryShort"%string, d)
  else in_transaction (exec_each (insert_city external) cities) d.

Definition zip_exists (d : DB) (z : Zip) : bool :=
  existsb (fun r => (Zip_Zip r =? Zip_Zip z)%string
                    && (Zip_CountryShort r =? Zip_CountryShort z)%string)
          (tbl_zips d).

(** [INSERT OR IGNORE INTO zips]: skipped on UNIQUE(zip, countryShort);
    rejected when the country is missing. *)
Definition insert_zip (external : bool) (z : Zip) (d : DB) : option DB :=
  if zip_exists d z then Some d
  else if country_exists d (Zip_CountryShort z)
  then let id := next_rowid (seq_zips d) (map Zip_ID (tbl_zips d)) in
       Some (with_zips d
         (tbl_zips d ++
          [mkZip (Some id) (Zip_Zip z) (Zip_CountryShort z) (Zip_Used z) external])
         id)
  else None.

Definition zip_invalid (z : Zip) : bool :=
  (Zip_Zip z =? "")%string || (Zip_CountryShort z =? "")%string.

Definition AddZips (zips : list Zip) (external : bool) (d : DB) : error * DB :=
  if existsb zip_invalid zips
  then (Some "all zips must have zip and countryShort"%string, d)
  else in_transaction (exec_each (insert_zip external) zips) d.

Definition query_exists (d : DB) (q : string) : bool :=
  existsb (fun r => (Query_Query r =? q)%string) (tbl_queries d).

(** [INSERT OR IGNORE INTO queries]: skipped on UNIQUE(query). *)
Definition insert_query (external : bool) (q : string) (d : DB) : option DB :=
  if query_exists d q then Some d
  else let id := next_rowid (seq_queries d) (map Query_ID (tbl_queries d)) in
       Some (with_queries d
         (tbl_queries d ++ [mkQuery (Some id) q false external]) id).

Definition query_invalid (q : string) : bool := (q =? "")%string.

Definition AddQueries (queries : list string) (external : bool) (d : DB)
  : error * DB :=
  if existsb query_invalid queries
  then (Some "all queries must be non-empty strings"%string, d)
  else in_transaction (exec_each (insert_query external) queries) d.

(** [DELETE FROM queries WHERE external = 1]; the sessions that point at a
    deleted row get their [queryId] nulled (ON DELETE SET NULL). *)
Definition ClearQueries (d : DB) : error * DB :=
  let gone := map Query_ID (filter Query_External (tbl_queries d)) in
  let unlink (s : NavSession) :=
    match NavSession_QueryID s with
    | Some q =>
        if has_id q gone
        then mkNavSession (NavSession_ID s) (NavSession_Format s)
               (NavSession_CountryShort s) None (NavSession_ZipID s)
               (NavSession_CityID s) (NavSession_StateShort s)
               (NavSession_Page s) (NavSession_Completed s)
               (NavSession_External s)
        else s
    | None => s
    end in
  (None,
   with_nav_sessions
     (with_queries d (filter (fun q => negb (Query_External q)) (tbl_queries d))
                   (seq_queries d))
     (map unlink (tbl_nav_sessions d)) (seq_nav_sessions d)).

Definition GetQueries (d : DB) : list Query := tbl_queries d.

Definition GetCountries (targetCountry : string) (d : DB) : list Country :=
  if (targetCountry =? "all")%string then tbl_countries d
  else filter (fun c => (Country_CountryShort c =? targetCountry)%string)
              (tbl_countries d).

Definition mem_string (x : string) (l : list string) : bool :=
  existsb (String.eqb x) l.

Definition GetStates (countryShorts : list string) (d : DB) : list State :=
  match countryShorts with
  | [] => []
  | _ => filter (fun s => mem_string (State_CountryShort s) countryShorts)
                (tbl_states d)
  end.

(** With states given, the WHERE clause is one disjunct per
    (state, country) pair; with no country to pair them with the clause is
    empty and the store rejects the statement. *)
Definition GetCities (countryShorts stateShorts : list string) (d : DB)
  : error * list City :=
  match countryShorts, stateShorts with
  | [], [] => (None, [])
  | [], _ :: _ => (Some "incomplete input"%string, [])
  | _ :: _, _ :: _ =>
      (None, filter (fun c => mem_string (City_StateShort c) stateShorts
                              && mem_string (City_CountryShort c) countryShorts)
                    (tbl_cities d))
  | _ :: _, [] =>
      (None, filter (fun c => mem_string (City_CountryShort c) countryShorts)
                    (tbl_cities d))
  end.

Definition GetZips (countryShorts : list string) (d : DB) : list Zip :=
  match countryShorts with
  | [] => []
  | _ => filter (fun z => mem_string (Zip_CountryShort z) countryShorts)
                (tbl_zips d)
  end.

Definition id_ok (o : option Z) (ids : list (option Z)) : bool :=
  match o with Some i => has_id i ids | None => true end.

(** [INSERT INTO nav_sessions]: the row gets the next rowid; the store
    rejects it when a non-null reference has no parent row. *)
Definition SaveNavSession (session : NavSession) (d : DB) : error * DB :=
  if country_exists d (NavSession_CountryShort session)
     && id_ok (NavSession_QueryID session) (map Query_ID (tbl_queries d))
     && id_ok (NavSession_ZipID session) (map Zip_ID (tbl_zips d))
     && id_ok (NavSession_CityID session) (map City_ID (tbl_cities d))
     && match NavSession_StateShort session with
        | Some ss => state_exists d ss (NavSession_CountryShort session)
        | None => true
        end
  then
    let id := next_rowid (seq_nav_sessions d)
                (map (fun s => Some (NavSession_ID s)) (tbl_nav_sessions d)) in
    (None,
     with_nav_sessions d
       (tbl_nav_sessions d ++
        [mkNavSession id (NavSession_Format session)
           (NavSession_CountryShort session) (NavSession_QueryID session)
           (NavSession_ZipID session) (NavSession_CityID session)
           (NavSession_StateShort session) (NavSession_Page session)
           (NavSession_Completed session) (NavSession_External session)])
       id)
  else (Some fk_failed, d).

(** The entries of the [updates] map that the program uses. *)
Inductive SessionUpdate :=
| Update_page (text : PageText)
| Update_completed (b : bool).

Definition apply_update (s : NavSession) (u : SessionUpdate) : NavSession :=
  match u with
  | Update_page text =>
      mkNavSession (NavSession_ID s) (NavSession_Format s)
        (NavSession_CountryShort s) (NavSession_QueryID s) (NavSession_ZipID s)
        (NavSession_CityID s) (NavSession_StateShort s) text
        (NavSession_Completed s) (NavSession_External s)
  | Update_completed b =>
      mkNavSession (NavSession_ID s) (NavSession_Format s)
        (NavSession_CountryShort s) (NavSession_QueryID s) (NavSession_ZipID s)
        (NavSession_CityID s) (NavSession_StateShort s) (NavSession_Page s)
        b (NavSession_External s)
  end.

(** [UPDATE nav_sessions SET ... WHERE id = ?]. *)
Definition UpdateNavSession (id : Z) (updates : list SessionUpdate) (d : DB)
  : error * DB :=
  match updates with
  | [] => (None, d)
  | _ =>
      (None,
       with_nav_sessions d
         (map (fun s => if NavSession_ID s =? id
                        then fold_left apply_update updates s else s)
              (tbl_nav_sessions d))
         (seq_nav_sessions d))
  end.

(** [SELECT ... FROM nav_sessions WHERE completed = 0 LIMIT 1]. *)
Definition GetCurrentNavSession (d : DB) : option NavSession :=
  find (fun s => negb (NavSession_Completed s)) (tbl_nav_sessions d).

Definition GetAllNavSessions (d : DB) : list NavSession := tbl_nav_sessions d.

(** [DELETE FROM nav_sessions]. *)
Definition ResetNavSessions (d : DB) : error * DB :=
  (None, with_nav_sessions d [] (seq_nav_sessions d)).

Definition unuse_country (c : Country) : Country :=
  mkCountry (Country_ID c) (Country_Country c) (Country_CountryShort c) false
            (Country_External c).
Definition unuse_state (s : State) : State :=
  mkState (State_ID s) (State_State s) (State_StateShort s)
          (State_CountryShort s) false (State_External s).
Definition unuse_city (c : City) : City :=
  mkCity (City_ID c) (City_City c) (City_StateShort c) (City_CountryShort c)
         (City_County c) false (City_External c).
Definition unuse_zip (z : Zip) : Zip :=
  mkZip (Zip_ID z) (Zip_Zip z) (Zip_CountryShort z) false (Zip_External z).
Definition unuse_query (q : Query) : Query :=
  mkQuery (Query_ID q) (Query_Query q) false (Query_External q).

(** [UPDATE ... SET used = 0] on the five entity tables and
    [DELETE FROM nav_sessions], in one transaction. *)
Definition DB_ResetDatabase (d : DB) : error * DB :=
  (None,
   mkDB (map unuse_country (tbl_countries d)) (map unuse_state (tbl_states d))
        (map unuse_city (tbl_cities d)) (map unuse_zip (tbl_zips d))
        (map unuse_query (tbl_queries d)) []
        (seq_cities d) (seq_zips d) (seq_queries d) (seq_nav_sessions d)).

(** [SELECT COUNT( * ) FROM countries]. *)
Definition CountTotal (d : DB) : Z := Z.of_nat (List.length (tbl_countries d)).

(** The five UPDATE statements of [markEntitiesAsUsed]. *)
Definition use_country (c : Country) : Country :=
  mkCountry (Country_ID c) (Country_Country c) (Country_CountryShort c) true
            (Country_External c).
Definition use_state (s : State) : State :=
  mkState (State_ID s) (State_State s) (State_StateShort s)
          (State_CountryShort s) true (State_External s).
Definition use_city (c : City) : City :=
  mkCity (City_ID c) (City_City c) (City_StateShort c) (City_CountryShort c)
         (City_County c) true (City_External c).
Definition use_zip (z : Zip) : Zip :=
  mkZip (Zip_ID z) (Zip_Zip z) (Zip_CountryShort z) true (Zip_External z).
Definition use_query (q : Query) : Query :=
  mkQuery (Query_ID q) (Query_Query q) true (Query_External q).

Definition id_is (id : Z) (o : option Z) : bool :=
  match o with Some i => i =? id | None => false end.

Definition update_country_used (countryShort : string) (d : DB) : DB :=
  with_countries d
    (map (fun c => if (Country_CountryShort c =? countryShort)%string
                   then use_country c else c) (tbl_countries d)).

Definition update_query_used (id : Z) (d : DB) : DB :=
  with_queries d
    (map (fun q => if id_is id (Query_ID q) then use_query q else q)
         (tbl_queries d)) (seq_queries d).

Definition update_zip_used (id : Z) (d : DB) : DB :=
  with_zips d
    (map (fun z => if id_is id (Zip_ID z) then use_zip z else z) (tbl_zips d))
    (seq_zips d).

Definition update_city_used (id : Z) (d : DB) : DB :=
  with_cities d
    (map (fun c => if id_is id (City_ID c) then use_city c else c)
         (tbl_cities d)) (seq_cities d).

Definition update_state_used (stateShort countryShort : string) (d : DB) : DB :=
  with_states d
    (map (fun s => if (State_StateShort s =? stateShort)%string
                      && (State_CountryShort s =? countryShort)%string
                   then use_state s else s) (tbl_states d)).

(* ===================================================================== *)
(** ** The state manager ([stateManager.go]) *)
(* ===================================================================== *)

Record StateManager := mkStateManager {
  db : DB;
  format : option NavFormat;
  targetCountry : string;
  currentNav : option NavResponse;
  countries : list Country;
  states : list State;
  cities : list City;
  zips : list Zip;
  queries : list Query;
  currentIndex : Z;
  navOrder : list Nav
}.

Definition set_db (d : DB) (sm : StateManager) : StateManager :=
  mkStateManager d (format sm) (targetCountry sm) (currentNav sm)
    (countries sm) (states sm) (cities sm) (zips sm) (queries sm)
    (currentIndex sm) (navOrder sm).
Definition set_format (f : option NavFormat) (sm : StateManager) :=
  mkStateManager (db sm) f (targetCountry sm) (currentNav sm)
    (countries sm) (states sm) (cities sm) (zips sm) (queries sm)
    (currentIndex sm) (navOrder sm).
Definition set_targetCountry (t : string) (sm : StateManager) :=
  mkStateManager (db sm) (format sm) t (currentNav sm)
    (countries sm) (states sm) (cities sm) (zips sm) (queries sm)
    (currentIndex sm) (navOrder sm).
Definition set_currentNav (n : option NavResponse) (sm : StateManager) :=
  mkStateManager (db sm) (format sm) (targetCountry sm) n
    (countries sm) (states sm) (cities sm) (zips sm) (queries sm)
    (currentIndex sm) (navOrder sm).
Definition set_countries (l : list Country) (sm : StateManager) :=
  mkStateManager (db sm) (format sm) (targetCountry sm) (currentNav sm)
    l (states sm) (cities sm) (zips sm) (queries sm)
    (currentIndex sm) (navOrder sm).
Definition set_states (l : list State) (sm : StateManager) :=
  mkStateManager (db sm) (format sm) (targetCountry sm) (currentNav sm)
    (countries sm) l (cities sm) (zips sm) (queries sm)
    (currentIndex sm) (navOrder sm).
Definition set_cities (l : list City) (sm : StateManager) :=
  mkStateManager (db sm) (format sm) (targetCountry sm) (currentNav sm)
    (countries sm) (states sm) l (zips sm) (queries sm)
    (currentIndex sm) (navOrder sm).
Definition set_zips (l : list Zip) (sm : StateManager) :=
  mkStateManager (db sm) (format sm) (targetCountry sm) (currentNav sm)
    (countries sm) (states sm) (cities sm) l (queries sm)
    (currentIndex sm) (navOrder sm).
Definition set_queries (l : list Query) (sm : StateManager) :=
  mkStateManager (db sm) (format sm) (targetCountry sm) (currentNav sm)
    (countries sm) (states sm) (cities sm) (zips sm) l
    (currentIndex sm) (navOrder sm).
Definition set_currentIndex (i : Z) (sm : StateManager) :=
  mkStateManager (db sm) (format sm) (targetCountry sm) (currentNav sm)
    (countries sm) (states sm) (cities sm) (zips sm) (queries sm)
    i (navOrder sm).
Definition set_navOrder (l : list Nav) (sm : StateManager) :=
  mkStateManager (db sm) (format sm) (targetCountry sm) (currentNav sm)
    (countries sm) (states sm) (cities sm) (zips sm) (queries sm)
    (currentIndex sm) l.

(** [NewStateManager]: a manager over the store found at [dbPath]. *)
Definition NewStateManager (d : DB) : StateManager :=
  mkStateManager d None "all"%string None [] [] [] [] [] 0 [].

(** *** The method monad

    A method either returns, with its result and the manager as it left
    it, or panics; what survives a panic is the store. *)
Inductive Res (A : Type) :=
| Ret (a : A) (sm : StateManager)
| Crash (d : DB).
Arguments Crash {A} d.

Definition M (A : Type) := StateManager -> Res A.

Definition ret {A} (a : A) : M A := fun sm => Ret a sm.

Definition bind {A B} (m : M A) (k : A -> M B) : M B :=
  fun sm => match m sm with
            | Ret a sm' => k a sm'
            | Crash d => Crash d
            end.

Definition panic {A} : M A := fun sm => Crash (db sm).

Definition get_sm : M StateManager := fun sm => Ret sm sm.

Definition modify (f : StateManager -> StateManager) : M unit :=
  fun sm => Ret tt (f sm).

(** A statement or method of [sm.db] that changes the store. *)
Definition withDB {A} (op : DB -> A * DB) : M A :=
  fun sm => Ret (fst (op (db sm))) (set_db (snd (op (db sm))) sm).

(** A query of [sm.db]. *)
Definition queryDB {A} (q : DB -> A) : M A := fun sm => Ret (q (db sm)) sm.

Declare Scope go_scope.
Delimit Scope go_scope with go.
Notation "x <- c1 ;; c2" := (bind c1 (fun x => c2))
  (at level 61, c1 at next level, right associativity) : go_scope.
Notation "c1 ;; c2" := (bind c1 (fun _ => c2))
  (at level 61, right associativity) : go_scope.
(** [if err := c1; err != nil { return err }; c2]. *)
Notation "'check' c1 ;; c2" :=
  (bind c1 (fun e => match e with Some msg => ret (Some msg) | None => c2 end))
  (at level 61, c1 at next level, right associativity) : go_scope.
Local Open Scope go_scope.

(** The store a run ends with, returned or panicked. *)
Definition final_db {A} (r : Res A) : DB :=
  match r with
  | Ret _ sm => db sm
  | Crash d => d
  end.

(** *** Lookups over the loaded entities *)

Definition getStatesByCountry (sm : StateManager) (countryShort : string) : list State :=
  filter (fun s => (State_CountryShort s =? countryShort)%string) (states sm).

Definition getCitiesByCountry (sm : StateManager) (countryShort : string) : list City :=
  filter (fun c => (City_CountryShort c =? countryShort)%string) (cities sm).

Definition getZipsByCountry (sm : StateManager) (countryShort : string) : list Zip :=
  filter (fun z => (Zip_CountryShort z =? countryShort)%string) (zips sm).

Definition findStateByShort (stateShort : string) (states : list State) : option State :=
  find (fun s => (State_StateShort s =? stateShort)%string) states.

Definition findCountry (sm : StateManager) (countryShort : string) : option Country :=
  find (fun c => (Country_CountryShort c =? countryShort)%string) (countries sm).

Definition findQuery (sm : StateManager) (id : Z) : option Query :=
  find (fun q => id_is id (Query_ID q)) (queries sm).

Definition findZip (sm : StateManager) (id : Z) : option Zip :=
  find (fun z => id_is id (Zip_ID z)) (zips sm).

Definition findCity (sm : StateManager) (id : Z) : option City :=
  find (fun c => id_is id (City_ID c)) (cities sm).

Definition findState (sm : StateManager) (stateShort : string) : option State :=
  find (fun s => (State_StateShort s =? stateShort)%string) (states sm).

Definition findQueryByText (sm : StateManager) (queryText : string) : option Query :=
  find (fun q => (Query_Query q =? queryText)%string) (queries sm).

Definition findZipByText (sm : StateManager) (zipText : string) : option Zip :=
  find (fun z => (Zip_Zip z =? zipText)%string) (zips sm).

Definition findCityByText (sm : StateManager) (cityText : string) : option City :=
  find (fun c => (City_City c =? cityText)%string) (cities sm).

(** [(a == nil && b == nil) || (a != nil && b != nil && *a == text(b))]. *)
Definition field_match {E} (field : option string) (entity : option E)
  (text : E -> string) : bool :=
  match field, entity with
  | None, None => true
  | Some a, Some e => (a =? text e)%string
  | _, _ => false
  end.

Definition navMatches (nav : Nav) (country : option Country)
  (query : option Query) (zip : option Zip) (city : option City)
  (state : option State) : bool :=
  let queryMatch := field_match (Nav_Query nav) query Query_Query in
  let zipMatch := field_match (Nav_Zip nav) zip Zip_Zip in
  let cityMatch := field_match (Nav_City nav) city City_City in
  let stateMatch := field_match (Nav_State nav) state State_State in
  let countryMatch := field_match (Nav_Country nav) country Country_CountryShort in
  queryMatch && zipMatch && cityMatch && stateMatch && countryMatch.

(** The loop of [findNavIndex], counting from [i]. *)
Fixpoint findNavIndex_from (i : Z) (navs : list Nav) (country : option Country)
  (query : option Query) (zip : option Zip) (city : option City)
  (state : option State) : option Z :=
  match navs with
  | [] => None
  | nav :: rest =>
      if navMatches nav country query zip city state then Some i
      else findNavIndex_from (i + 1) rest country query zip city state
  end.

Definition findNavIndex (sm : StateManager) (session : NavSession)
  (country : option Country) (query : option Query) (zip : option Zip)
  (city : option City) (state : option State) : Z :=
  match findNavIndex_from 0 (navOrder sm) country query zip city state with
  | Some i => i
  | None => 0
  end.

Definition generatePlaceholder (nav : Nav) : string :=
  let parts1 := match Nav_Query nav with Some q => [q] | None => [] end in
  let parts2 :=
    match Nav_City nav with
    | Some c => [c]
    | None =>
        match Nav_Zip nav with
        | Some z => [z]
        | None =>
            match Nav_State nav with
            | Some s => [s]
            | None =>
                match Nav_County nav with
                | Some c => [c]
                | None => []
                end
            end
        end
    end in
  match (parts1 ++ parts2)%list with
  | [] => "Unknown"%string
  | parts => strings_Join parts "##"%string
  end.

Definition navOrder_len (sm : StateManager) : Z := Z.of_nat (List.length (navOrder sm)).

Definition set_Page (p : PageValue) (r : NavResponse) : NavResponse :=
  mkNavResponse (NavResponse_Format r) (NavResponse_Nav r)
    (NavResponse_Country r) (NavResponse_Placeholder r) p
    (NavResponse_HasNext r).

(** [json.Marshal] of a non-nil [Page]. *)
Definition marshal_Page (p : PageValue) : PageText :=
  match p with
  | Page_nil => PageText_empty
  | Page_PageNav pn => PageText_json (elems (PageNav_Pages pn)) (PageNav_Total pn)
  | Page_completed => PageText_quoted_completed
  end.

Definition marshal_PageNav (pn : PageNav) : PageText :=
  PageText_json (elems (PageNav_Pages pn)) (PageNav_Total pn).

Section Runtime.

(** Two facts about the build that the sources under study do not fix.

    [loopvar_per_iteration]: whether a [range] loop has one variable per
    iteration (language version 1.22 and later, chosen by [go.mod]) or a
    single variable for the whole loop; the expansion stores addresses of
    fields of its loop variables in the steps.

    [json_spare n]: how many unused slots [encoding/json] leaves behind a
    decoded array of [n] numbers. *)
Variable loopvar_per_iteration : bool.
Variable json_spare : nat -> nat.

(** What a pointer into the loop variable shows once the loop over [xs] is
    over, for the pointer taken while the variable held [x]. *)
Definition loop_var {A} (xs : list A) (x : A) : A :=
  if loopvar_per_iteration then x else last xs x.

Definition nav_of (query zip city state stateShort country countryShort county : option string) : Nav :=
  mkNav query zip city state stateShort country countryShort county.

(** [addNavForQuery]: the steps it appends to [sm.navOrder]. *)
Definition addNavForQuery (f : NavFormat) (query : option Query)
  (country : Country) (states : list State) (cities : list City)
  (zips : list Zip) : list Nav :=
  let cs := Some (Country_CountryShort country) in
  let zipOf (zip : Zip) := Some (Zip_Zip (loop_var zips zip)) in
  let cityOf (city : City) := Some (City_City (loop_var cities city)) in
  let stateOf (state : State) := Some (State_State (loop_var states state)) in
  let stateShortOf (state : State) := Some (State_StateShort (loop_var states state)) in
  let withState (city : City) (k : State -> Nav) : list Nav :=
    match findStateByShort (City_StateShort city) states with
    | Some state => [k state]
    | None => []
    end in
  let withQuery (k : string -> list Nav) : list Nav :=
    match query with
    | Some q => k (Query_Query q)
    | None => []
    end in
  if (f =? NavFormatZip)%string then
    map (fun zip => nav_of None (zipOf zip) None None None cs None None) zips
  else if (f =? NavFormatZipCountry)%string then
    map (fun zip => nav_of None (zipOf zip) None None None cs cs None) zips
  else if (f =? NavFormatQueryZip)%string then
    withQuery (fun q =>
      map (fun zip => nav_of (Some q) (zipOf zip) None None None cs None None) zips)
  else if (f =? NavFormatQueryZipCountry)%string then
    withQuery (fun q =>
      map (fun zip => nav_of (Some q) (zipOf zip) None None None cs cs None) zips)
  else if (f =? NavFormatCity)%string then
    map (fun city => nav_of None None (cityOf city) None None cs None None) cities
  else if (f =? NavFormatCityState)%string then
    flat_map (fun city => withState city (fun state =>
      nav_of None None (cityOf city) (Some (State_State state))
             (Some (State_StateShort state)) cs None None)) cities
  else if (f =? NavFormatCityStateCountry)%string then
    flat_map (fun city => withState city (fun state =>
      nav_of None None (cityOf city) (Some (State_State state))
             (Some (State_StateShort state)) cs cs None)) cities
  else if (f =? NavFormatQueryCity)%string then
    withQuery (fun q =>
      map (fun city => nav_of (Some q) None (cityOf city) None None cs None None) cities)
  else if (f =? NavFormatQueryCityState)%string then
    withQuery (fun q =>
      flat_map (fun city => withState city (fun state =>
        nav_of (Some q) None (cityOf city) (Some (State_State state))
               (Some (State_StateShort state)) cs None None)) cities)
  else if (f =? NavFormatQueryCityStateCountry)%string then
    withQuery (fun q =>
      flat_map (fun city => withState city (fun state =>
        nav_of (Some q) None (cityOf city) (Some (State_State state))
               (Some (State_StateShort state)) cs cs None)) cities)
  else if (f =? NavFormatState)%string then
    map (fun state => nav_of None None None (stateOf state) (stateShortOf state)
                             cs None None) states
  else if (f =? NavFormatStateCountry)%string then
    map (fun state => nav_of None None None (stateOf state) (stateShortOf state)
                             cs cs None) states
  else if (f =? NavFormatQueryState)%string then
    withQuery (fun q =>
      map (fun state => nav_of (Some q) None None (stateOf state)
                               (stateShortOf state) cs None None) states)
  else if (f =? NavFormatQueryStateCountry)%string then
    withQuery (fun q =>
      map (fun state => nav_of (Some q) None None (stateOf state)
                               (stateShortOf state) cs cs None) states)
  else if (f =? NavFormatQueryCounty)%string then
    withQuery (fun q =>
      flat_map (fun city =>
        match City_County city with
        | Some county => [nav_of (Some q) None None None None cs None (Some county)]
        | None => []
        end) cities)
  else if (f =? NavFormatQuery)%string then
    withQuery (fun q => [nav_of (Some q) None None None None cs None None])
  else if (f =? NavFormatCounty)%string then
    flat_map (fun city =>
      match City_County city with
      | Some county => [nav_of None None None None None cs None (Some county)]
      | None => []
      end) cities
  else [].

(** The body of the loop of [generateNavOrder] for one country. *)
Definition navs_of_country (sm : StateManager) (f : NavFormat)
  (country : Country) : list Nav :=
  let countryStates := getStatesByCountry sm (Country_CountryShort country) in
  let countryCities := getCitiesByCountry sm (Country_CountryShort country) in
  let countryZips := getZipsByCountry sm (Country_CountryShort country) in
  if strings_HasPrefix f "query-" then
    flat_map (fun query =>
                addNavForQuery f (Some (loop_var (queries sm) query)) country
                               countryStates countryCities countryZips)
             (queries sm)
  else addNavForQuery f None country countryStates countryCities countryZips.

(** [generateNavOrder].  The first country dereferences [sm.format]. *)
Definition generateNavOrder : M unit :=
  fun sm =>
    match countries sm, format sm with
    | [], _ => Ret tt (set_navOrder [] sm)
    | _ :: _, None => Crash (db sm)
    | _ :: _, Some f =>
        Ret tt (set_navOrder (flat_map (navs_of_country sm f) (countries sm)) sm)
    end.

(** [json.Unmarshal] of the [page] column into a zero [PageNav]; a text
    that is not an object leaves the zero value. *)
Definition unmarshal_PageNav (text : PageText) : PageNav :=
  match text with
  | PageText_json pages total =>
      mkPageNav (mkIntSlice pages (repeat 0 (json_spare (List.length pages)))) total
  | _ => mkPageNav (mkIntSlice [] []) 0
  end.

Definition buildNavResponse (sm : StateManager) (session : NavSession)
  (country : option Country) (query : option Query) (zip : option Zip)
  (city : option City) (state : option State) : NavResponse :=
  let page :=
    match NavSession_Page session with
    | PageText_completed => Page_completed
    | PageText_empty => Page_nil
    | text => Page_PageNav (unmarshal_PageNav text)
    end in
  let nav :=
    mkNav (option_map Query_Query query)
          (option_map Zip_Zip zip)
          (option_map City_City city)
          (option_map State_State state)
          (option_map State_StateShort state)
          (option_map Country_Country country)
          (option_map Country_CountryShort country)
          (match city with Some c => City_County c | None => None end) in
  let countryShort :=
    match country with Some c => Country_CountryShort c | None => ""%string end in
  mkNavResponse (NavSession_Format session) nav countryShort
    (generatePlaceholder nav) page
    (currentIndex sm <? navOrder_len sm - 1).

(** [buildNavResponseFromIndex]: [nil] past the end; indexing with a
    negative number, a step without country and a nil format panic. *)
Definition buildNavResponseFromIndex (index : Z) : M (option NavResponse) :=
  fun sm =>
    if index >=? navOrder_len sm then Ret None sm
    else
      match (if index <? 0 then None else nth_error (navOrder sm) (Z.to_nat index)) with
      | None => Crash (db sm)
      | Some nav =>
          match Nav_Country nav, format sm with
          | Some c, Some f =>
              let country := findCountry sm c in
              let countryName :=
                match country with
                | Some c' => Country_CountryShort c'
                | None => ""%string
                end in
              Ret (Some (mkNavResponse f nav countryName (generatePlaceholder nav)
                                       Page_nil (index <? navOrder_len sm - 1))) sm
          | _, _ => Crash (db sm)
          end
      end.

(** The UPDATE statements of [markEntitiesAsUsed], in order. *)
Definition markEntitiesAsUsed_updates (country : option Country)
  (query : option Query) (zip : option Zip) (city : option City)
  (state : option State) (d : DB) : DB :=
  let d1 := match country with
            | Some c => update_country_used (Country_CountryShort c) d
            | None => d
            end in
  let d2 := match query with
            | Some q => match Query_ID q with
                        | Some id => update_query_used id d1
                        | None => d1
                        end
            | None => d1
            end in
  let d3 := match zip with
            | Some z => match Zip_ID z with
                        | Some id => update_zip_used id d2
                        | None => d2
                        end
            | None => d2
            end in
  let d4 := match city with
            | Some c => match City_ID c with
                        | Some id => update_city_used id d3
                        | None => d3
                        end
            | None => d3
            end in
  match state with
  | Some s => update_state_used (State_StateShort s) (State_CountryShort s) d4
  | None => d4
  end.

(** [markEntitiesAsUsed]. *)
Definition markEntitiesAsUsed (country : option Country) (query : option Query)
  (zip : option Zip) (city : option City) (state : option State) : M error :=
  withDB (fun d => (None, markEntitiesAsUsed_updates country query zip city state d)).

Definition bind_opt {A B} (o : option A) (f : A -> option B) : option B :=
  match o with Some a => f a | None => None end.

(** [saveCurrentSession]; [country.CountryShort] panics on a nil country. *)
Definition saveCurrentSession : M error :=
  sm <- get_sm ;;
  match currentNav sm with
  | None => ret None
  | Some cur =>
      let nav := NavResponse_Nav cur in
      let country := findCountry sm (NavResponse_Country cur) in
      let query := bind_opt (Nav_Query nav) (findQueryByText sm) in
      let zip := bind_opt (Nav_Zip nav) (findZipByText sm) in
      let city := bind_opt (Nav_City nav) (findCityByText sm) in
      let state := bind_opt (Nav_StateShort nav) (findState sm) in
      let pageJSON := marshal_Page (NavResponse_Page cur) in
      match country with
      | None => panic
      | Some c =>
          let session :=
            mkNavSession 0 (NavResponse_Format cur) (Country_CountryShort c)
              (bind_opt query Query_ID) (bind_opt zip Zip_ID)
              (bind_opt city City_ID) (option_map State_StateShort state)
              pageJSON false true in
          check withDB (SaveNavSession session) ;;
          markEntitiesAsUsed country query zip city state
      end
  end.

(** [restoreOrStartSession]. *)
Definition restoreOrStartSession : M error :=
  session <- queryDB GetCurrentNavSession ;;
  match session with
  | Some session =>
      sm <- get_sm ;;
      let country := findCountry sm (NavSession_CountryShort session) in
      let query := bind_opt (NavSession_QueryID session) (findQuery sm) in
      let zip := bind_opt (NavSession_ZipID session) (findZip sm) in
      let city := bind_opt (NavSession_CityID session) (findCity sm) in
      let state := bind_opt (NavSession_StateShort session) (findState sm) in
      modify (set_currentIndex (findNavIndex sm session country query zip city state)) ;;
      sm' <- get_sm ;;
      modify (set_currentNav
                (Some (buildNavResponse sm' session country query zip city state))) ;;
      ret None
  | None =>
      r <- buildNavResponseFromIndex 0 ;;
      modify (set_currentNav r) ;;
      match r with
      | Some _ => saveCurrentSession
      | None => ret None
      end
  end.

Definition GetNav : M (option NavResponse) :=
  sm <- get_sm ;; ret (currentNav sm).

(** [GetNextNav]. *)
Definition GetNextNav : M (option NavResponse * error) :=
  session <- queryDB GetCurrentNavSession ;;
  sm <- get_sm ;;
  if match session with
     | Some s => negb (NavSession_Completed s)
     | None => false
     end
  then ret (currentNav sm, None)
  else
    modify (set_currentIndex (wrap_int (currentIndex sm + 1))) ;;
    r <- buildNavResponseFromIndex (wrap_int (currentIndex sm + 1)) ;;
    modify (set_currentNav r) ;;
    match r with
    | Some _ => err <- saveCurrentSession ;; ret (r, err)
    | None => ret (r, None)
    end.

Definition GetCurrentNav : M (option NavResponse) :=
  sm <- get_sm ;; ret (currentNav sm).

(** [SetPageNav]. *)
Definition SetPageNav (totalPages : Z) (pages : IntSlice) : M error :=
  sm <- get_sm ;;
  match currentNav sm with
  | None => ret None
  | Some cur =>
      let pageNav := mkPageNav pages totalPages in
      modify (set_currentNav (Some (set_Page (Page_PageNav pageNav) cur))) ;;
      session <- queryDB GetCurrentNavSession ;;
      match session with
      | Some s =>
          withDB (UpdateNavSession (NavSession_ID s)
                    [Update_page (marshal_PageNav pageNav)])
      | None => ret None
      end
  end.

(** [MarkComplete]; [sm.currentNav.Page = ...] panics on a nil response. *)
Definition MarkComplete : M error :=
  session <- queryDB GetCurrentNavSession ;;
  match session with
  | Some s =>
      check withDB (UpdateNavSession (NavSession_ID s) [Update_completed true]) ;;
      sm <- get_sm ;;
      match currentNav sm with
      | Some cur =>
          modify (set_currentNav (Some (set_Page Page_completed cur))) ;;
          ret None
      | None => panic
      end
  | None => ret None
  end.

(** [MarkPageAsDone].  [pageNav] is a copy of the [PageNav] held in
    [sm.currentNav.Page]: the appended slice stays in the copy, and only the
    writes into a shared backing array reach the manager's value. *)
Definition MarkPageAsDone (page : Z) : M error :=
  sm <- get_sm ;;
  match currentNav sm with
  | None => ret None
  | Some cur =>
      match NavResponse_Page cur with
      | Page_completed => ret None
      | Page_nil => ret None
      | Page_PageNav held =>
          if existsb (fun p => p =? page) (elems (PageNav_Pages held)) then ret None
          else
            let (local, seen) := append_then_sort (PageNav_Pages held) page in
            let pageNav := mkPageNav local (PageNav_Total held) in
            modify (set_currentNav
                      (Some (set_Page (Page_PageNav (mkPageNav seen (PageNav_Total held)))
                                      cur))) ;;
            session <- queryDB GetCurrentNavSession ;;
            match session with
            | Some s =>
                check withDB (UpdateNavSession (NavSession_ID s)
                                [Update_page (marshal_PageNav pageNav)]) ;;
                if slice_len (PageNav_Pages pageNav) =? PageNav_Total pageNav
                then MarkComplete
                else ret None
            | None => ret None
            end
      end
  end.

(** [refreshData]: countries, states and cities are read again (zips and
    queries are not) and the sequence is expanded again. *)
Definition refreshData : M error :=
  sm <- get_sm ;;
  countries <- queryDB (GetCountries (targetCountry sm)) ;;
  modify (set_countries countries) ;;
  let countryShorts := map Country_CountryShort countries in
  states <- queryDB (GetStates countryShorts) ;;
  modify (set_states states) ;;
  let stateShorts := map State_StateShort states in
  res <- queryDB (GetCities countryShorts stateShorts) ;;
  match fst res with
  | Some msg => ret (Some msg)
  | None =>
      modify (set_cities (snd res)) ;;
      generateNavOrder ;;
      ret None
  end.

(** [AddSearchQueries]. *)
Definition AddSearchQueries (queries : list string) : M error :=
  match queries with
  | [] => ret None
  | _ =>
      check withDB (AddQueries queries true) ;;
      updatedQueries <- queryDB GetQueries ;;
      modify (set_queries updatedQueries) ;;
      generateNavOrder ;;
      ret None
  end.

(** [ClearSearchQueries]. *)
Definition ClearSearchQueries : M error :=
  check withDB ClearQueries ;;
  modify (set_queries []) ;;
  generateNavOrder ;;
  ret None.

(** [ResetNav]. *)
Definition ResetNav : M error :=
  check withDB ResetNavSessions ;;
  modify (set_currentIndex 0) ;;
  modify (set_currentNav None) ;;
  restoreOrStartSession.

(** [AddSearchQuery]. *)
Definition AddSearchQuery (query : string) : M error :=
  if (query =? "")%string then ret None else AddSearchQueries [query].

(** The anonymous struct types of the three bulk-add methods. *)
Record CityInput := mkCityInput {
  CityInput_City : string;
  CityInput_State : string;
  CityInput_StateShort : string;
  CityInput_CountryShort : string
}.

Record StateInput := mkStateInput {
  StateInput_State : string;
  StateInput_StateShort : string;
  StateInput_County : option string;
  StateInput_CountryShort : string
}.

Record CountryInput := mkCountryInput {
  CountryInput_Country : string;
  CountryInput_CountryShort : string
}.

Definition city_input_invalid (c : CityInput) : bool :=
  (CityInput_City c =? "")%string || (CityInput_State c =? "")%string
  || (CityInput_StateShort c =? "")%string
  || (CityInput_CountryShort c =? "")%string.

(** [StateManager.AddCities]. *)
Definition SM_AddCities (cities : list CityInput) : M error :=
  match cities with
  | [] => ret None
  | _ =>
      if existsb city_input_invalid cities
      then ret (Some "all cities must have city, state, stateShort, and countryShort"%string)
      else
        let dbCities :=
          map (fun c => mkCity None (CityInput_City c) (CityInput_StateShort c)
                               (CityInput_CountryShort c) None false true) cities in
        check withDB (AddCities dbCities true) ;;
        refreshData
  end.

Definition state_input_invalid (s : StateInput) : bool :=
  (StateInput_State s =? "")%string || (StateInput_StateShort s =? "")%string
  || (StateInput_CountryShort s =? "")%string.

(** [StateManager.AddStates]. *)
Definition SM_AddStates (states : list StateInput) : M error :=
  match states with
  | [] => ret None
  | _ =>
      if existsb state_input_invalid states
      then ret (Some "all states must have state, stateShort, and countryShort"%string)
      else
        let dbStates :=
          map (fun s => mkState None (StateInput_State s) (StateInput_StateShort s)
                                (StateInput_CountryShort s) false true) states in
        check withDB (AddStates dbStates true) ;;
        refreshData
  end.

Definition country_input_invalid (c : CountryInput) : bool :=
  (CountryInput_CountryShort c =? "")%string || (CountryInput_Country c =? "")%string.

(** [StateManager.AddCountries]. *)
Definition SM_AddCountries (countries : list CountryInput) : M error :=
  match countries with
  | [] => ret None
  | _ =>
      if existsb country_input_invalid countries
      then ret (Some "all countries must have countryShort and country name"%string)
      else
        let dbCountries :=
          map (fun c => mkCountry None (CountryInput_Country c)
                                  (CountryInput_CountryShort c) false true) countries in
        check withDB (AddCountries dbCountries true) ;;
        refreshData
  end.

(** [Populate]. *)
Definition Populate : M error :=
  let countries := [mkCountry None "United States" "US" false true] in
  let states := [mkState None "California" "CA" "US" false true] in
  let zips := [mkZip None "90001" "US" false true] in
  let queries := ["Realtor"; "Restaurant"]%string in
  check withDB (AddCountries countries true) ;;
  check withDB (AddStates states true) ;;
  check withDB (AddZips zips true) ;;
  check withDB (AddQueries queries true) ;;
  generateNavOrder ;;
  ret None.

(** [StateManager.ResetDatabase]. *)
Definition SM_ResetDatabase : M error :=
  check withDB DB_ResetDatabase ;;
  refreshData.

(** The four lists [setDefault] builds from the location data. *)
Definition two_parts (key sep : string) : option (string * string) :=
  match strings_Split key sep with
  | [a; b] => Some (a, b)
  | _ => None
  end.

Definition seed_countries (ld : LocationData) : list Country :=
  flat_map (fun kv =>
    match two_parts (fst kv) "#" with
    | Some (countryShort, countryName) =>
        [mkCountry None countryName countryShort false false]
    | None => []
    end) (CityData ld).

Definition seed_states (ld : LocationData) : list State :=
  flat_map (fun kv =>
    match two_parts (fst kv) "#" with
    | Some (countryShort, _) =>
        flat_map (fun kc =>
          match two_parts (fst kc) "##" with
          | Some (stateShort, stateName) =>
              [mkState None stateName stateShort countryShort false false]
          | None => []
          end) (snd kv)
    | None => []
    end) (CityData ld).

Definition seed_cities (ld : LocationData) : list City :=
  flat_map (fun kv =>
    match two_parts (fst kv) "#" with
    | Some (countryShort, _) =>
        flat_map (fun kc =>
          match two_parts (fst kc) "##" with
          | Some (stateShort, _) =>
              map (fun city => mkCity None city stateShort countryShort None false false)
                  (snd kc)
          | None => []
          end) (snd kv)
    | None => []
    end) (CityData ld).

Definition seed_zips (ld : LocationData) : list Zip :=
  flat_map (fun kv =>
    map (fun zip => mkZip None zip (fst kv) false false) (snd kv)) (ZipData ld).

(** [setDefault], with what [GetLocationData] returned. *)
Definition setDefault (ld : LocationData) : M error :=
  total <- queryDB CountTotal ;;
  if total >? 0 then ret None
  else
    check withDB (AddCountries (seed_countries ld) false) ;;
    check withDB (AddStates (seed_states ld) false) ;;
    check withDB (AddCities (seed_cities ld) false) ;;
    withDB (AddZips (seed_zips ld) false).

(** [Init]. *)
Definition Init (options : InitOptions) (ld : LocationData) : M error :=
  modify (set_format (Some (InitOptions_Format options))) ;;
  modify (set_targetCountry (InitOptions_TargetCountry options)) ;;
  check setDefault ld ;;
  sm <- get_sm ;;
  countries <- queryDB (GetCountries (targetCountry sm)) ;;
  modify (set_countries countries) ;;
  let countryShorts := map Country_CountryShort countries in
  states <- queryDB (GetStates countryShorts) ;;
  modify (set_states states) ;;
  let stateShorts := map State_StateShort states in
  res <- queryDB (GetCities countryShorts stateShorts) ;;
  match fst res with
  | Some msg => ret (Some msg)
  | None =>
      modify (set_cities (snd res)) ;;
      zips <- queryDB (GetZips countryShorts) ;;
      modify (set_zips zips) ;;
      queries <- queryDB GetQueries ;;
      modify (set_queries queries) ;;
      modify (set_currentIndex 0) ;;
      generateNavOrder ;;
      restoreOrStartSession
  end.

(** *** Runs of the public operations *)

Inductive Op :=
| Op_Init (options : InitOptions) (ld : LocationData)
| Op_GetNav
| Op_GetNextNav
| Op_GetCurrentNav
| Op_SetPageNav (totalPages : Z) (pages : IntSlice)
| Op_MarkPageAsDone (page : Z)
| Op_MarkComplete
| Op_AddSearchQueries (queries : list string)
| Op_AddSearchQuery (query : string)
| Op_ClearSearchQueries
| Op_ResetNav
| Op_AddCities (cities : list CityInput)
| Op_AddStates (states : list StateInput)
| Op_AddCountries (countries : list CountryInput)
| Op_Populate
| Op_ResetDatabase.

Definition discard {A} (m : M A) : M unit := _ <- m ;; ret tt.

Definition run_op (op : Op) : M unit :=
  match op with
  | Op_Init options ld => discard (Init options ld)
  | Op_GetNav => discard GetNav
  | Op_GetNextNav => discard GetNextNav
  | Op_GetCurrentNav => discard GetCurrentNav
  | Op_SetPageNav totalPages pages => discard (SetPageNav totalPages pages)
  | Op_MarkPageAsDone page => discard (MarkPageAsDone page)
  | Op_MarkComplete => discard MarkComplete
  | Op_AddSearchQueries queries => discard (AddSearchQueries queries)
  | Op_AddSearchQuery query => discard (AddSearchQuery query)
  | Op_ClearSearchQueries => discard ClearSearchQueries
  | Op_ResetNav => discard ResetNav
  | Op_AddCities cities => discard (SM_AddCities cities)
  | Op_AddStates states => discard (SM_AddStates states)
  | Op_AddCountries countries => discard (SM_AddCountries countries)
  | Op_Populate => discard Populate
  | Op_ResetDatabase => discard SM_ResetDatabase
  end.

(** A process is either not running, and there is only the store file, or
    it holds a manager. *)
Inductive World :=
| Stopped (d : DB)
| Running (sm : StateManager).

Definition world_db (w : World) : DB :=
  match w with
  | Stopped d => d
  | Running sm => db sm
  end.

Definition world_of {A} (r : Res A) : World :=
  match r with
  | Ret _ sm => Running sm
  | Crash d => Stopped d
  end.

Inductive step : World -> World -> Prop :=
| step_open : forall d, step (Stopped d) (Running (NewStateManager d))
| step_op : forall sm op, step (Running sm) (world_of (run_op op sm))
| step_close : forall sm, step (Running sm) (Stopped (db sm)).

(** What can be reached from a store file that does not exist yet. *)
Inductive reachable : World -> Prop :=
| reachable_start : reachable (Stopped empty_DB)
| reachable_step : forall w w', reachable w -> step w w' -> reachable w'.

(** Running a list of operations on a manager. *)
Fixpoint run_ops (ops : list Op) (w : World) : World :=
  match ops with
  | [] => w
  | op :: rest =>
      match w with
      | Running sm => run_ops rest (world_of (run_op op sm))
      | Stopped d => Stopped d
      end
  end.

(** The number of rows with [completed = 0]. *)
Definition active_sessions (d : DB) : nat :=
  List.length (filter (fun s => negb (NavSession_Completed s)) (tbl_nav_sessions d)).

(* ===================================================================== *)
(** ** Properties *)
(* ===================================================================== *)

(** *** The active session *)

Lemma GetCurrentNavSession_active : forall d s,
  GetCurrentNavSession d = Some s ->
  In s (tbl_nav_sessions d) /\ NavSession_Completed s = false.
Proof.
  unfold GetCurrentNavSession. intros d s H.
  apply find_some in H. destruct H as [Hin Hc]. split; [exact Hin|].
  now apply negb_true_iff in Hc.
Qed.

Lemma GetCurrentNavSession_found : forall d s,
  In s (tbl_nav_sessions d) -> NavSession_Completed s = false ->
  exists s', GetCurrentNavSession d = Some s'.
Proof.
  unfold GetCurrentNavSession. intros d s Hin Hc.
  destruct (find _ _) as [s'|] eqn:E; [now exists s'|].
  apply (find_none _ _ E) in Hin. rewrite Hc in Hin. discriminate.
Qed.

Lemma active_sessions_none : forall d,
  GetCurrentNavSession d = None <-> active_sessions d = 0%nat.
Proof.
  unfold GetCurrentNavSession, active_sessions. intros d.
  induction (tbl_nav_sessions d) as [|s l IH]; simpl; [tauto|].
  destruct (negb (NavSession_Completed s)); simpl; [|exact IH].
  split; discriminate.
Qed.

(** C10.  With no current navigation response, [SetPageNav] and
    [MarkPageAsDone] return a nil error and leave the manager and the
    store exactly as they were. *)
Theorem pagination_without_current_nav_is_noop :
  forall sm totalPages pages page,
    currentNav sm = None ->
    SetPageNav totalPages pages sm = Ret None sm
    /\ MarkPageAsDone page sm = Ret None sm.
Proof.
  intros sm totalPages pages page H.
  unfold SetPageNav, MarkPageAsDone, bind, get_sm.
  rewrite H. split; reflexivity.
Qed.

Lemma GetNextNav_blocked : forall sm s,
  GetCurrentNavSession (db sm) = Some s ->
  GetNextNav sm = Ret (currentNav sm, None) sm.
Proof.
  intros sm s Hs.
  destruct (GetCurrentNavSession_active _ Hs) as [_ Hc].
  unfold GetNextNav, bind, queryDB, get_sm.
  rewrite Hs, Hc. reflexivity.
Qed.

(** C5.  While a session with [completed = false] is stored, [GetNextNav]
    returns the current response with a nil error and changes nothing:
    index, response and store are those of before. *)
Theorem GetNextNav_with_active_session_is_noop :
  forall sm s,
    In s (tbl_nav_sessions (db sm)) ->
    NavSession_Completed s = false ->
    GetNextNav sm = Ret (currentNav sm, None) sm.
Proof.
  intros sm s Hin Hc.
  destruct (GetCurrentNavSession_found _ _ Hin Hc) as [s' Hs'].
  exact (GetNextNav_blocked sm Hs').
Qed.

(** *** What [generateNavOrder] leaves of the store *)

Lemma generateNavOrder_db : forall sm,
  final_db (generateNavOrder sm) = db sm.
Proof.
  intros sm. unfold generateNavOrder.
  destruct (countries sm); [reflexivity|].
  destruct (format sm); reflexivity.
Qed.

Lemma generateNavOrder_ret : forall sm a sm',
  generateNavOrder sm = Ret a sm' ->
  db sm' = db sm /\ queries sm' = queries sm /\ currentIndex sm' = currentIndex sm
  /\ currentNav sm' = currentNav sm /\ countries sm' = countries sm.
Proof.
  intros sm a sm'. unfold generateNavOrder.
  destruct (countries sm) eqn:Ec.
  - intros H. inversion H; subst. simpl. now rewrite Ec.
  - destruct (format sm); intros H; inversion H; subst. simpl. now rewrite Ec.
Qed.

Lemma refreshData_db : forall sm, final_db (refreshData sm) = db sm.
Proof.
  intros sm. unfold refreshData, bind, get_sm, queryDB, modify, ret.
  match goal with |- context [match fst ?x with _ => _ end] => destruct (fst x) end;
    [reflexivity|].
  match goal with |- context [generateNavOrder ?x] =>
    pose proof (generateNavOrder_db x) as G; destruct (generateNavOrder x) end;
    exact G.
Qed.

Lemma check_refreshData_db : forall (op : DB -> error * DB) sm,
  final_db ((check withDB op ;; refreshData) sm) = snd (op (db sm)).
Proof.
  intros op sm. unfold bind, withDB.
  destruct (fst (op (db sm))); [reflexivity|].
  rewrite refreshData_db. reflexivity.
Qed.

(** C9.  [ClearSearchQueries] removes from the store exactly the query
    rows with [external = true]: the table that remains is the old one
    restricted to the rows with [external = false], unchanged and in their
    order, also when the call panics afterwards; when it returns, the
    loaded query list is empty. *)
Theorem ClearSearchQueries_deletes_external_rows_only :
  forall sm,
    tbl_queries (final_db (ClearSearchQueries sm))
    = filter (fun q => negb (Query_External q)) (tbl_queries (db sm))
    /\ (forall q, In q (tbl_queries (db sm)) -> Query_External q = false ->
                  In q (tbl_queries (final_db (ClearSearchQueries sm))))
    /\ (forall q, In q (tbl_queries (final_db (ClearSearchQueries sm))) ->
                  In q (tbl_queries (db sm)) /\ Query_External q = false)
    /\ (forall e sm', ClearSearchQueries sm = Ret e sm' -> queries sm' = []).
Proof.
  intros sm.
  assert (Hdb : final_db (ClearSearchQueries sm) = snd (ClearQueries (db sm))).
  { unfold ClearSearchQueries, bind, withDB, modify. simpl.
    match goal with |- final_db (match generateNavOrder ?x with _ => _ end) = _ =>
      pose proof (generateNavOrder_db x) as G;
      destruct (generateNavOrder x) as [u y|dd] end; simpl in *; exact G. }
  assert (Ht : tbl_queries (final_db (ClearSearchQueries sm))
               = filter (fun q => negb (Query_External q)) (tbl_queries (db sm))).
  { rewrite Hdb. reflexivity. }
  split; [exact Ht|]. split; [|split].
  - intros q Hin Hext. rewrite Ht. apply filter_In. split; [exact Hin|].
    now rewrite Hext.
  - intros q Hin. rewrite Ht in Hin. apply filter_In in Hin.
    destruct Hin as [Hin Hext]. split; [exact Hin|].
    now apply negb_true_iff in Hext.
  - intros e sm'. unfold ClearSearchQueries, bind, withDB, modify. simpl.
    match goal with |- match generateNavOrder ?x with _ => _ end = _ -> _ =>
      pose proof (generateNavOrder_ret x) as G;
      destruct (generateNavOrder x) as [u y|dd] end; [|discriminate].
    intros H. inversion H; subst.
    destruct (G u sm' eq_refl) as (_ & Hq & _). rewrite Hq. reflexivity.
Qed.

(** *** Counting the session rows through a method

    [grows n d d']: [d'] has at most [n] more session rows than [d], and at
    most [n] more of them with [completed = 0].
    [adds n m]: whatever the manager, [m] ends, by return or by panic, with
    a store grown by at most [n]. *)
Definition session_rows (d : DB) : nat := List.length (tbl_nav_sessions d).

Definition grows (n : nat) (d d' : DB) : Prop :=
  (active_sessions d' <= active_sessions d + n)%nat
  /\ (session_rows d' <= session_rows d + n)%nat.

Definition adds (n : nat) {A} (m : M A) : Prop :=
  forall sm, grows n (db sm) (final_db (m sm)).

(** [bounded m]: [m] never ends with more than one active session unless
    it started with more. *)
Definition bounded {A} (m : M A) : Prop :=
  forall sm, (active_sessions (final_db (m sm))
              <= Nat.max 1 (active_sessions (db sm)))%nat.

Lemma grows_refl : forall n d, grows n d d.
Proof. intros n d. split; lia. Qed.

Lemma grows_trans : forall n k d1 d2 d3,
  grows n d1 d2 -> grows k d2 d3 -> grows (n + k) d1 d3.
Proof. intros n k d1 d2 d3 [H1 H2] [H3 H4]. split; lia. Qed.

Lemma adds_ret : forall n A (a : A), adds n (ret a).
Proof. intros n A a sm. apply grows_refl. Qed.

Lemma adds_panic : forall n A, adds n (@panic A).
Proof. intros n A sm. apply grows_refl. Qed.

Lemma adds_get_sm : forall n, adds n get_sm.
Proof. intros n sm. apply grows_refl. Qed.

Lemma adds_queryDB : forall n A (q : DB -> A), adds n (queryDB q).
Proof. intros n A q sm. apply grows_refl. Qed.

Lemma adds_modify : forall n f,
  (forall sm, db (f sm) = db sm) -> adds n (modify f).
Proof. intros n f H sm. cbn [modify final_db]. rewrite H. apply grows_refl. Qed.

Lemma adds_withDB : forall n A (op : DB -> A * DB),
  (forall d, grows n d (snd (op d))) -> adds n (withDB op).
Proof. intros n A op H sm. apply H. Qed.

Lemma adds_bind : forall n k A B (m : M A) (f : A -> M B),
  adds n m -> (forall a, adds k (f a)) -> adds (n + k) (bind m f).
Proof.
  intros n k A B m f Hm Hf sm. unfold bind.
  specialize (Hm sm). destruct (m sm) as [a sm'|d]; cbn [final_db] in *.
  - eapply grows_trans; [exact Hm|apply Hf].
  - destruct Hm. split; lia.
Qed.

Lemma adds_bind0 : forall A B (m : M A) (f : A -> M B),
  adds 0 m -> (forall a, adds 0 (f a)) -> adds 0 (bind m f).
Proof. intros. now apply (@adds_bind 0 0). Qed.

Lemma adds0_bounded : forall A (m : M A), adds 0 m -> bounded m.
Proof. intros A m H sm. destruct (H sm) as [H1 _]. lia. Qed.

Lemma bounded_bind : forall A B (m : M A) (f : A -> M B),
  bounded m -> (forall a, bounded (f a)) -> bounded (bind m f).
Proof.
  intros A B m f Hm Hf sm. unfold bind.
  specialize (Hm sm). destruct (m sm) as [a sm'|d]; cbn [final_db] in *.
  - specialize (Hf a sm'). lia.
  - exact Hm.
Qed.

(** The statements of the store that leave [nav_sessions] alone. *)
Lemma exec_each_sessions : forall R (stmt : R -> DB -> option DB),
  (forall r d d', stmt r d = Some d' -> tbl_nav_sessions d' = tbl_nav_sessions d) ->
  forall rows d d', exec_each stmt rows d = Some d' ->
                    tbl_nav_sessions d' = tbl_nav_sessions d.
Proof.
  intros R stmt H rows. induction rows as [|r rows IH]; simpl; intros d d' E.
  - now inversion E.
  - destruct (stmt r d) as [d1|] eqn:E1; [|discriminate].
    rewrite (IH _ _ E). eapply H; eauto.
Qed.

Lemma in_transaction_sessions : forall body d,
  (forall d', body d = Some d' -> tbl_nav_sessions d' = tbl_nav_sessions d) ->
  tbl_nav_sessions (snd (in_transaction body d)) = tbl_nav_sessions d.
Proof.
  intros body d H. unfold in_transaction.
  destruct (body d) as [d'|]; simpl; auto.
Qed.

Lemma insert_country_sessions : forall ext r d d',
  insert_country ext r d = Some d' -> tbl_nav_sessions d' = tbl_nav_sessions d.
Proof.
  unfold insert_country. intros ext r d d'.
  destruct (country_exists _ _); intros H; inversion H; reflexivity.
Qed.

Lemma insert_state_sessions : forall ext r d d',
  insert_state ext r d = Some d' -> tbl_nav_sessions d' = tbl_nav_sessions d.
Proof.
  unfold insert_state. intros ext r d d'.
  destruct (state_exists _ _ _); [intros H; inversion H; reflexivity|].
  destruct (country_exists _ _); intros H; inversion H; reflexivity.
Qed.

Lemma insert_city_sessions : forall ext r d d',
  insert_city ext r d = Some d' -> tbl_nav_sessions d' = tbl_nav_sessions d.
Proof.
  unfold insert_city. intros ext r d d'.
  destruct (city_exists _ _); [intros H; inversion H; reflexivity|].
  destruct (_ && _); intros H; inversion H; reflexivity.
Qed.

Lemma insert_zip_sessions : forall ext r d d',
  insert_zip ext r d = Some d' -> tbl_nav_sessions d' = tbl_nav_sessions d.
Proof.
  unfold insert_zip. intros ext r d d'.
  destruct (zip_exists _ _); [intros H; inversion H; reflexivity|].
  destruct (country_exists _ _); intros H; inversion H; reflexivity.
Qed.

Lemma insert_query_sessions : forall ext r d d',
  insert_query ext r d = Some d' -> tbl_nav_sessions d' = tbl_nav_sessions d.
Proof.
  unfold insert_query. intros ext r d d'.
  destruct (query_exists _ _); intros H; inversion H; reflexivity.
Qed.

Lemma AddCountries_sessions : forall l ext d,
  tbl_nav_sessions (snd (AddCountries l ext d)) = tbl_nav_sessions d.
Proof.
  intros. unfold AddCountries. destruct (existsb _ _); [reflexivity|].
  apply in_transaction_sessions. intros d'.
  apply exec_each_sessions, insert_country_sessions.
Qed.

Lemma AddStates_sessions : forall l ext d,
  tbl_nav_sessions (snd (AddStates l ext d)) = tbl_nav_sessions d.
Proof.
  intros. unfold AddStates. destruct (existsb _ _); [reflexivity|].
  apply in_transaction_sessions. intros d'.
  apply exec_each_sessions, insert_state_sessions.
Qed.

Lemma AddCities_sessions : forall l ext d,
  tbl_nav_sessions (snd (AddCities l ext d)) = tbl_nav_sessions d.
Proof.
  intros. unfold AddCities. destruct (existsb _ _); [reflexivity|].
  apply in_transaction_sessions. intros d'.
  apply exec_each_sessions, insert_city_sessions.
Qed.

Lemma AddZips_sessions : forall l ext d,
  tbl_nav_sessions (snd (AddZips l ext d)) = tbl_nav_sessions d.
Proof.
  intros. unfold AddZips. destruct (existsb _ _); [reflexivity|].
  apply in_transaction_sessions. intros d'.
  apply exec_each_sessions, insert_zip_sessions.
Qed.

Lemma AddQueries_sessions : forall l ext d,
  tbl_nav_sessions (snd (AddQueries l ext d)) = tbl_nav_sessions d.
Proof.
  intros. unfold AddQueries. destruct (existsb _ _); [reflexivity|].
  apply in_transaction_sessions. intros d'.
  apply exec_each_sessions, insert_query_sessions.
Qed.

Lemma same_sessions_active : forall d d',
  tbl_nav_sessions d' = tbl_nav_sessions d -> grows 0 d d'.
Proof.
  unfold grows, active_sessions, session_rows. intros d d' H. rewrite H.
  split; lia.
Qed.

Lemma grows_map : forall (f : NavSession -> NavSession) d d',
  (forall s, NavSession_Completed s = true -> NavSession_Completed (f s) = true) ->
  tbl_nav_sessions d' = map f (tbl_nav_sessions d) ->
  grows 0 d d'.
Proof.
  intros f d d' H E. unfold grows, active_sessions, session_rows. rewrite E.
  rewrite length_map. split; [|lia]. rewrite Nat.add_0_r. clear E.
  induction (tbl_nav_sessions d) as [|s l IH]; simpl; [lia|].
  destruct (NavSession_Completed s) eqn:Es; simpl.
  - rewrite (H _ Es). simpl. exact IH.
  - destruct (negb (NavSession_Completed (f s))); simpl; lia.
Qed.

Lemma grows_emptied : forall d d',
  tbl_nav_sessions d' = [] -> grows 0 d d'.
Proof.
  intros d d' E. unfold grows, active_sessions, session_rows. rewrite E.
  simpl. split; lia.
Qed.

Lemma ClearQueries_grows : forall d, grows 0 d (snd (ClearQueries d)).
Proof.
  intros d. eapply grows_map; [|reflexivity]. intros s Hs. cbv beta.
  destruct (NavSession_QueryID s); [|exact Hs].
  destruct (has_id _ _); [exact Hs|exact Hs].
Qed.

Lemma UpdateNavSession_page_grows : forall id text d,
  grows 0 d (snd (UpdateNavSession id [Update_page text] d)).
Proof.
  intros. eapply grows_map; [|reflexivity]. intros s Hs. cbv beta.
  destruct (_ =? _); [exact Hs|exact Hs].
Qed.

Lemma UpdateNavSession_completed_grows : forall id d,
  grows 0 d (snd (UpdateNavSession id [Update_completed true] d)).
Proof.
  intros. eapply grows_map; [|reflexivity]. intros s Hs. cbv beta.
  destruct (_ =? _); [reflexivity|exact Hs].
Qed.

Lemma SaveNavSession_grows : forall s d,
  NavSession_Completed s = false -> grows 1 d (snd (SaveNavSession s d)).
Proof.
  intros s d Hs. unfold SaveNavSession.
  destruct (_ && _); [|apply grows_refl].
  unfold grows, active_sessions, session_rows. cbn [snd with_nav_sessions tbl_nav_sessions].
  rewrite filter_app, !length_app. cbn [filter NavSession_Completed].
  rewrite Hs. simpl. split; lia.
Qed.

Create HintDb adds.

Lemma adds_AddCountries : forall l ext, adds 0 (withDB (AddCountries l ext)).
Proof. intros. apply adds_withDB. intros. apply same_sessions_active, AddCountries_sessions. Qed.
Lemma adds_AddStates : forall l ext, adds 0 (withDB (AddStates l ext)).
Proof. intros. apply adds_withDB. intros. apply same_sessions_active, AddStates_sessions. Qed.
Lemma adds_AddCities : forall l ext, adds 0 (withDB (AddCities l ext)).
Proof. intros. apply adds_withDB. intros. apply same_sessions_active, AddCities_sessions. Qed.
Lemma adds_AddZips : forall l ext, adds 0 (withDB (AddZips l ext)).
Proof. intros. apply adds_withDB. intros. apply same_sessions_active, AddZips_sessions. Qed.
Lemma adds_AddQueries : forall l ext, adds 0 (withDB (AddQueries l ext)).
Proof. intros. apply adds_withDB. intros. apply same_sessions_active, AddQueries_sessions. Qed.
Lemma adds_ClearQueries : adds 0 (withDB ClearQueries).
Proof. apply adds_withDB, ClearQueries_grows. Qed.
Lemma adds_ResetNavSessions : adds 0 (withDB ResetNavSessions).
Proof. apply adds_withDB. intros d. now apply grows_emptied. Qed.
Lemma adds_DB_ResetDatabase : adds 0 (withDB DB_ResetDatabase).
Proof. apply adds_withDB. intros d. now apply grows_emptied. Qed.
Lemma adds_Update_page : forall id text,
  adds 0 (withDB (UpdateNavSession id [Update_page text])).
Proof. intros. apply adds_withDB. intros. apply UpdateNavSession_page_grows. Qed.
Lemma adds_Update_completed : forall id,
  adds 0 (withDB (UpdateNavSession id [Update_completed true])).
Proof. intros. apply adds_withDB. intros. apply UpdateNavSession_completed_grows. Qed.

Lemma adds_generateNavOrder : adds 0 generateNavOrder.
Proof. intros sm. rewrite generateNavOrder_db. apply grows_refl. Qed.

Lemma buildNavResponseFromIndex_same : forall i sm,
  buildNavResponseFromIndex i sm = Crash (db sm)
  \/ exists r, buildNavResponseFromIndex i sm = Ret r sm.
Proof.
  intros i sm. unfold buildNavResponseFromIndex.
  destruct (i >=? navOrder_len sm); [right; eauto|].
  destruct (if i <? 0 then None else nth_error (navOrder sm) (Z.to_nat i)) as [nav|];
    [|now left].
  destruct (Nav_Country nav); [|now left].
  destruct (format sm); [right; eauto|now left].
Qed.

Lemma adds_buildNavResponseFromIndex : forall i, adds 0 (buildNavResponseFromIndex i).
Proof.
  intros i sm. destruct (buildNavResponseFromIndex_same i sm) as [H|[r H]];
    rewrite H; apply grows_refl.
Qed.

Lemma markEntitiesAsUsed_updates_sessions : forall country query zip city state d,
  tbl_nav_sessions (markEntitiesAsUsed_updates country query zip city state d)
  = tbl_nav_sessions d.
Proof.
  intros. unfold markEntitiesAsUsed_updates.
  destruct state; destruct city as [ci|]; try destruct (City_ID ci);
    destruct zip as [zi|]; try destruct (Zip_ID zi);
    destruct query as [qu|]; try destruct (Query_ID qu);
    destruct country; reflexivity.
Qed.

Lemma markEntitiesAsUsed_sessions : forall country query zip city state sm,
  tbl_nav_sessions (final_db (markEntitiesAsUsed country query zip city state sm))
  = tbl_nav_sessions (db sm).
Proof.
  intros. unfold markEntitiesAsUsed, withDB. cbn [final_db fst snd set_db db].
  apply markEntitiesAsUsed_updates_sessions.
Qed.

Lemma adds_markEntitiesAsUsed : forall country query zip city state,
  adds 0 (markEntitiesAsUsed country query zip city state).
Proof.
  intros. intros sm. apply same_sessions_active, markEntitiesAsUsed_sessions.
Qed.

#[local] Hint Resolve adds_AddCountries adds_AddStates adds_AddCities adds_AddZips
  adds_AddQueries adds_ClearQueries adds_ResetNavSessions adds_DB_ResetDatabase
  adds_Update_page adds_Update_completed adds_generateNavOrder
  adds_buildNavResponseFromIndex adds_markEntitiesAsUsed : adds.

Ltac adds_step :=
  first
    [ apply adds_ret | apply adds_panic | apply adds_get_sm | apply adds_queryDB
    | apply adds_modify; intros; reflexivity
    | solve [auto with adds]
    | apply adds_bind0; [|intros]
    | match goal with
      | |- adds _ (match ?x with _ => _ end) => destruct x
      | |- adds _ (if ?x then _ else _) => destruct x
      end ].

Ltac adds0 := repeat adds_step.

Lemma adds_saveCurrentSession : adds 1 saveCurrentSession.
Proof.
  unfold saveCurrentSession.
  apply (@adds_bind 0 1); [apply adds_get_sm|]. intros sm.
  destruct (currentNav sm) as [cur|]; [|apply adds_ret].
  destruct (findCountry sm (NavResponse_Country cur)); [|apply adds_panic].
  apply (@adds_bind 1 0).
  - apply adds_withDB. intros d. now apply SaveNavSession_grows.
  - intros [msg|]; [apply adds_ret|apply adds_markEntitiesAsUsed].
Qed.

Lemma adds_start_session : forall i,
  adds 1 (r <- buildNavResponseFromIndex i ;;
          modify (set_currentNav r) ;;
          match r with
          | Some _ => saveCurrentSession
          | None => ret None
          end).
Proof.
  intros i.
  apply (@adds_bind 0 1); [apply adds_buildNavResponseFromIndex|]. intros r.
  apply (@adds_bind 0 1); [apply adds_modify; reflexivity|]. intros _.
  destruct r; [apply adds_saveCurrentSession|apply adds_ret].
Qed.

Lemma adds_MarkComplete : adds 0 MarkComplete.
Proof. unfold MarkComplete. adds0. Qed.

#[local] Hint Resolve adds_MarkComplete : adds.

Lemma adds_SetPageNav : forall totalPages pages, adds 0 (SetPageNav totalPages pages).
Proof. intros. unfold SetPageNav. adds0. Qed.

Lemma adds_MarkPageAsDone : forall page, adds 0 (MarkPageAsDone page).
Proof. intros. unfold MarkPageAsDone. adds0. Qed.

Lemma adds_refreshData : adds 0 refreshData.
Proof. unfold refreshData. adds0. Qed.

#[local] Hint Resolve adds_refreshData : adds.

Lemma adds_AddSearchQueries : forall l, adds 0 (AddSearchQueries l).
Proof. intros. unfold AddSearchQueries. adds0. Qed.

Lemma adds_ClearSearchQueries : adds 0 ClearSearchQueries.
Proof. unfold ClearSearchQueries. adds0. Qed.

Lemma adds_SM_AddCities : forall l, adds 0 (SM_AddCities l).
Proof. intros. unfold SM_AddCities. adds0. Qed.

Lemma adds_SM_AddStates : forall l, adds 0 (SM_AddStates l).
Proof. intros. unfold SM_AddStates. adds0. Qed.

Lemma adds_SM_AddCountries : forall l, adds 0 (SM_AddCountries l).
Proof. intros. unfold SM_AddCountries. adds0. Qed.

Lemma adds_Populate : adds 0 Populate.
Proof. unfold Populate. adds0. Qed.

Lemma adds_SM_ResetDatabase : adds 0 SM_ResetDatabase.
Proof. unfold SM_ResetDatabase. adds0. Qed.

Lemma adds_setDefault : forall ld, adds 0 (setDefault ld).
Proof. intros. unfold setDefault. adds0. Qed.

(** The two callers of [saveCurrentSession] reach it only after the store
    answered that no row with [completed = 0] exists. *)
Lemma bounded_restoreOrStartSession : bounded restoreOrStartSession.
Proof.
  intros sm. unfold restoreOrStartSession.
  unfold bind at 1. unfold queryDB at 1.
  destruct (GetCurrentNavSession (db sm)) as [s|] eqn:E.
  - match goal with |- (active_sessions (final_db (?m sm)) <= _)%nat =>
      assert (H : adds 0 m) by adds0; destruct (H sm) as [H1 _] end.
    eapply Nat.le_trans; [exact H1|lia].
  - apply active_sessions_none in E.
    destruct (adds_start_session 0 sm) as [H1 _].
    eapply Nat.le_trans; [exact H1|lia].
Qed.

Lemma bounded_GetNextNav : bounded GetNextNav.
Proof.
  intros sm. unfold GetNextNav.
  unfold bind at 1. unfold queryDB at 1. unfold bind at 1. unfold get_sm at 1.
  destruct (GetCurrentNavSession (db sm)) as [s|] eqn:E.
  - destruct (GetCurrentNavSession_active _ E) as [_ Hc]. rewrite Hc.
    cbn [negb ret final_db]. apply Nat.le_max_r.
  - apply active_sessions_none in E.
    match goal with |- (active_sessions (final_db (?m sm)) <= _)%nat =>
      assert (H : adds 1 m) end.
    { apply (@adds_bind 0 1); [apply adds_modify; reflexivity|]. intros _.
      apply (@adds_bind 0 1); [apply adds_buildNavResponseFromIndex|]. intros r.
      apply (@adds_bind 0 1); [apply adds_modify; reflexivity|]. intros _.
      destruct r; [|apply adds_ret].
      apply (@adds_bind 1 0); [apply adds_saveCurrentSession|].
      intros e. apply adds_ret. }
    destruct (H sm) as [H1 _]. eapply Nat.le_trans; [exact H1|lia].
Qed.

Ltac bounded_step :=
  first
    [ apply bounded_restoreOrStartSession
    | apply bounded_bind; [|intros]
    | match goal with
      | |- bounded (match ?x with _ => _ end) => destruct x
      | |- bounded (if ?x then _ else _) => destruct x
      end
    | apply adds0_bounded; solve [adds0] ].

Lemma bounded_ResetNav : bounded ResetNav.
Proof. unfold ResetNav. repeat bounded_step. Qed.

Lemma bounded_Init : forall options ld, bounded (Init options ld).
Proof.
  intros. unfold Init.
  repeat first [ apply bounded_restoreOrStartSession
               | apply bounded_bind; [|intros]
               | apply adds0_bounded; solve [auto using adds_setDefault with adds | adds0]
               | match goal with
                 | |- bounded (match ?x with _ => _ end) => destruct x
                 end ].
Qed.

Lemma bounded_discard : forall A (m : M A), bounded m -> bounded (discard m).
Proof.
  intros A m H. unfold discard. apply bounded_bind; [exact H|].
  intros a. apply adds0_bounded, adds_ret.
Qed.

(** The operations that can reach [saveCurrentSession]. *)
Definition creates_sessions (op : Op) : bool :=
  match op with
  | Op_Init _ _ | Op_GetNextNav | Op_ResetNav => true
  | _ => false
  end.

Lemma adds_discard : forall A (m : M A), adds 0 m -> adds 0 (discard m).
Proof.
  intros A m H. unfold discard. apply adds_bind0; [exact H|].
  intros a. apply adds_ret.
Qed.

Lemma adds_run_op : forall op, creates_sessions op = false -> adds 0 (run_op op).
Proof.
  intros op H. destruct op; try discriminate H; simpl; apply adds_discard;
    first [ apply adds_SetPageNav | apply adds_MarkPageAsDone
          | apply adds_MarkComplete | apply adds_AddSearchQueries
          | apply adds_ClearSearchQueries | apply adds_SM_AddCities
          | apply adds_SM_AddStates | apply adds_SM_AddCountries
          | apply adds_Populate | apply adds_SM_ResetDatabase
          | unfold GetNav, GetCurrentNav, AddSearchQuery; adds0;
            apply adds_AddSearchQueries ].
Qed.

Lemma bounded_run_op : forall op, bounded (run_op op).
Proof.
  intros op. destruct (creates_sessions op) eqn:E.
  - destruct op; try discriminate E; simpl; apply bounded_discard;
      [apply bounded_Init|apply bounded_GetNextNav|apply bounded_ResetNav].
  - apply adds0_bounded, adds_run_op, E.
Qed.

Lemma world_db_world_of : forall A (r : Res A), world_db (world_of r) = final_db r.
Proof. intros A r. destruct r; reflexivity. Qed.

Lemma step_bounded : forall w w',
  step w w' ->
  (active_sessions (world_db w') <= Nat.max 1 (active_sessions (world_db w)))%nat.
Proof.
  intros w w' H. destruct H.
  - apply Nat.le_max_r.
  - rewrite world_db_world_of. apply bounded_run_op.
  - apply Nat.le_max_r.
Qed.

Lemma reachable_active_le_1 : forall w,
  reachable w -> (active_sessions (world_db w) <= 1)%nat.
Proof.
  intros w H. induction H as [|w w' Hr IH Hs].
  - unfold active_sessions. simpl. lia.
  - pose proof (step_bounded Hs) as Hb. lia.
Qed.

Lemma restoreOrStartSession_active_db : forall sm s,
  GetCurrentNavSession (db sm) = Some s ->
  final_db (restoreOrStartSession sm) = db sm.
Proof.
  intros sm s E. unfold restoreOrStartSession, bind, queryDB, get_sm, modify, ret.
  rewrite E. reflexivity.
Qed.

Lemma GetNextNav_active_db : forall sm s,
  GetCurrentNavSession (db sm) = Some s ->
  final_db (GetNextNav sm) = db sm.
Proof.
  intros sm s E. rewrite (GetNextNav_blocked sm E). reflexivity.
Qed.

(** C6.  In every state reachable through the public operations, from a
    store that does not exist yet and across panics and restarts, at most
    one session row has [completed = false].  The two methods that can
    insert a session, [GetNextNav] and [restoreOrStartSession] (the tail of
    [Init] and of [ResetNav]), leave the store untouched when the store
    reports an active session; every other operation adds no session row. *)
Theorem at_most_one_active_session :
  (forall w, reachable w -> (active_sessions (world_db w) <= 1)%nat)
  /\ (forall sm s, GetCurrentNavSession (db sm) = Some s ->
        final_db (GetNextNav sm) = db sm
        /\ final_db (restoreOrStartSession sm) = db sm)
  /\ (forall op sm, creates_sessions op = false ->
        (session_rows (final_db (run_op op sm)) <= session_rows (db sm))%nat).
Proof.
  split; [exact reachable_active_le_1|]. split.
  - intros sm s E. split.
    + exact (GetNextNav_active_db sm E).
    + exact (restoreOrStartSession_active_db sm E).
  - intros op sm H. destruct (adds_run_op op H sm) as [_ Hr]. lia.
Qed.

(** *** Restore *)

(** Value equality between a step and the entities a session resolves to:
    each field is present on both sides with the same text, or absent on
    both. *)
Definition same_values (nav : Nav) (country : option Country)
  (query : option Query) (zip : option Zip) (city : option City)
  (state : option State) : Prop :=
  Nav_Query nav = option_map Query_Query query
  /\ Nav_Zip nav = option_map Zip_Zip zip
  /\ Nav_City nav = option_map City_City city
  /\ Nav_State nav = option_map State_State state
  /\ Nav_Country nav = option_map Country_CountryShort country.

Lemma field_match_spec : forall E (field : option string) (entity : option E) text,
  field_match field entity text = true <-> field = option_map text entity.
Proof.
  intros E field entity text. destruct field as [a|], entity as [e|]; simpl.
  - rewrite String.eqb_eq. split; [intros ->; reflexivity|intros H; now inversion H].
  - split; discriminate.
  - split; discriminate.
  - split; reflexivity.
Qed.

Lemma navMatches_spec : forall nav country query zip city state,
  navMatches nav country query zip city state = true
  <-> same_values nav country query zip city state.
Proof.
  intros. unfold navMatches, same_values.
  rewrite !andb_true_iff, !field_match_spec. tauto.
Qed.

(** [relocated navs P i]: [i] is the first position of [navs] whose step
    satisfies [P], or there is none and [i] is 0. *)
Definition relocated (navs : list Nav) (P : Nav -> Prop) (i : Z) : Prop :=
  (exists n nav,
      i = Z.of_nat n /\ nth_error navs n = Some nav /\ P nav
      /\ forall m nav', (m < n)%nat -> nth_error navs m = Some nav' -> ~ P nav')
  \/ (i = 0 /\ forall nav, In nav navs -> ~ P nav).

Lemma findNavIndex_from_some : forall navs i country query zip city state k,
  findNavIndex_from i navs country query zip city state = Some k ->
  exists n nav,
    k = i + Z.of_nat n /\ nth_error navs n = Some nav
    /\ navMatches nav country query zip city state = true
    /\ forall m nav', (m < n)%nat -> nth_error navs m = Some nav' ->
                      navMatches nav' country query zip city state = false.
Proof.
  induction navs as [|nav navs IH]; simpl; intros i country query zip city state k H.
  - discriminate.
  - destruct (navMatches nav country query zip city state) eqn:E.
    + inversion H; subst. exists 0%nat, nav. repeat split; auto.
      * simpl. lia.
      * intros m nav' Hm. lia.
    + apply IH in H. destruct H as (n & nav0 & Hk & Hn & Hm & Hleast).
      exists (S n), nav0. repeat split; auto.
      * lia.
      * intros m nav' Hlt Hnth. destruct m as [|m]; simpl in Hnth.
        -- inversion Hnth; subst. exact E.
        -- apply (Hleast m); [lia|exact Hnth].
Qed.

Lemma findNavIndex_from_none : forall navs i country query zip city state,
  findNavIndex_from i navs country query zip city state = None ->
  forall nav, In nav navs -> navMatches nav country query zip city state = false.
Proof.
  induction navs as [|nav navs IH]; simpl; intros i country query zip city state H nav0 Hin.
  - contradiction.
  - destruct (navMatches nav country query zip city state) eqn:E; [discriminate|].
    destruct Hin as [->|Hin]; [exact E|]. eapply IH; eauto.
Qed.

Lemma findNavIndex_relocated : forall sm session country query zip city state,
  relocated (navOrder sm)
            (fun nav => same_values nav country query zip city state)
            (findNavIndex sm session country query zip city state).
Proof.
  intros. unfold findNavIndex, relocated.
  destruct (findNavIndex_from 0 (navOrder sm) country query zip city state) as [k|] eqn:E.
  - left. apply findNavIndex_from_some in E.
    destruct E as (n & nav & Hk & Hn & Hm & Hleast).
    exists n, nav. split; [lia|]. split; [exact Hn|]. split.
    + now apply navMatches_spec.
    + intros m nav' Hlt Hnth Hsame. apply navMatches_spec in Hsame.
      rewrite (Hleast m nav' Hlt Hnth) in Hsame. discriminate.
  - right. split; [reflexivity|]. intros nav Hin Hsame.
    apply navMatches_spec in Hsame.
    rewrite (findNavIndex_from_none _ _ _ _ _ _ _ E nav Hin) in Hsame. discriminate.
Qed.

Lemma saveCurrentSession_ok : forall sm sm',
  saveCurrentSession sm = Ret None sm' ->
  forall cur, currentNav sm = Some cur ->
  exists c s,
    findCountry sm (NavResponse_Country cur) = Some c
    /\ tbl_nav_sessions (db sm') = tbl_nav_sessions (db sm) ++ [s]
    /\ NavSession_Completed s = false
    /\ NavSession_Format s = NavResponse_Format cur
    /\ NavSession_CountryShort s = Country_CountryShort c
    /\ NavSession_QueryID s
       = bind_opt (bind_opt (Nav_Query (NavResponse_Nav cur)) (findQueryByText sm)) Query_ID
    /\ NavSession_ZipID s
       = bind_opt (bind_opt (Nav_Zip (NavResponse_Nav cur)) (findZipByText sm)) Zip_ID
    /\ NavSession_CityID s
       = bind_opt (bind_opt (Nav_City (NavResponse_Nav cur)) (findCityByText sm)) City_ID
    /\ NavSession_StateShort s
       = option_map State_StateShort
           (bind_opt (Nav_StateShort (NavResponse_Nav cur)) (findState sm))
    /\ NavSession_Page s = marshal_Page (NavResponse_Page cur)
    /\ currentNav sm' = currentNav sm /\ currentIndex sm' = currentIndex sm
    /\ navOrder sm' = navOrder sm.
Proof.
  intros sm sm' H cur Hcur. unfold saveCurrentSession in H.
  unfold bind at 1 in H. unfold get_sm at 1 in H. rewrite Hcur in H.
  destruct (findCountry sm (NavResponse_Country cur)) as [c|] eqn:Ec;
    [|discriminate H].
  unfold bind, withDB in H.
  match type of H with context [SaveNavSession ?x (db sm)] => set (ses := x) in * end.
  unfold SaveNavSession in H.
  destruct (_ && _) eqn:Efk; cbn [fst snd] in H.
  - unfold markEntitiesAsUsed, withDB in H. cbn [fst snd] in H.
    inversion H; subst. clear H.
    exists c. eexists. split; [reflexivity|].
    cbn [db set_db]. rewrite markEntitiesAsUsed_updates_sessions.
    cbn [tbl_nav_sessions with_nav_sessions].
    split; [reflexivity|]. subst ses. cbn. repeat split; reflexivity.
  - discriminate H.
Qed.

Lemma findCountry_code : forall sm code c,
  findCountry sm code = Some c ->
  Country_CountryShort c = code /\ In c (countries sm).
Proof.
  unfold findCountry. intros sm code c H. apply find_some in H.
  destruct H as [Hin H]. apply String.eqb_eq in H. auto.
Qed.

Lemma buildNavResponseFromIndex_some : forall i sm r sm',
  buildNavResponseFromIndex i sm = Ret (Some r) sm' ->
  sm' = sm /\ 0 <= i < navOrder_len sm
  /\ nth_error (navOrder sm) (Z.to_nat i) = Some (NavResponse_Nav r)
  /\ NavResponse_Page r = Page_nil
  /\ format sm = Some (NavResponse_Format r)
  /\ NavResponse_HasNext r = (i <? navOrder_len sm - 1)
  /\ NavResponse_Placeholder r = generatePlaceholder (NavResponse_Nav r)
  /\ exists code, Nav_Country (NavResponse_Nav r) = Some code
       /\ NavResponse_Country r
          = match findCountry sm code with
            | Some c => Country_CountryShort c
            | None => ""%string
            end.
Proof.
  intros i sm r sm'. unfold buildNavResponseFromIndex.
  destruct (i >=? navOrder_len sm) eqn:Ege; [discriminate|].
  destruct (i <? 0) eqn:Elt; [discriminate|].
  destruct (nth_error (navOrder sm) (Z.to_nat i)) as [nav|] eqn:En; [|discriminate].
  destruct (Nav_Country nav) as [code|] eqn:Ec; [|discriminate].
  destruct (format sm) as [f|] eqn:Ef; [|discriminate].
  rewrite Z.geb_leb in Ege. apply Z.leb_gt in Ege. apply Z.ltb_ge in Elt.
  intros H. inversion H; subst. cbn.
  repeat split; try reflexivity; try lia; auto.
  exists code. split; [exact Ec|reflexivity].
Qed.

Lemma buildNavResponseFromIndex_none : forall i sm sm',
  buildNavResponseFromIndex i sm = Ret None sm' ->
  sm' = sm /\ navOrder_len sm <= i.
Proof.
  intros i sm sm'. unfold buildNavResponseFromIndex.
  destruct (i >=? navOrder_len sm) eqn:Ege.
  - rewrite Z.geb_leb in Ege. apply Z.leb_le in Ege.
    intros H. inversion H; subst. split; [reflexivity|exact Ege].
  - destruct (if i <? 0 then None else nth_error (navOrder sm) (Z.to_nat i)) as [nav|];
      [|discriminate].
    destruct (Nav_Country nav); [|discriminate].
    destruct (format sm); discriminate.
Qed.

(** What [restoreOrStartSession] does when the store has no active
    session and the call returns a nil error. *)
Lemma start_session_ok : forall i sm sm',
  (r <- buildNavResponseFromIndex i ;;
   modify (set_currentNav r) ;;
   match r with
   | Some _ => saveCurrentSession
   | None => ret None
   end) sm = Ret None sm' ->
  currentIndex sm' = currentIndex sm /\ navOrder sm' = navOrder sm
  /\ ((navOrder_len sm <= i /\ currentNav sm' = None /\ db sm' = db sm)
      \/ (exists cur s,
            0 <= i
            /\ nth_error (navOrder sm) (Z.to_nat i) = Some (NavResponse_Nav cur)
            /\ currentNav sm' = Some cur
            /\ NavResponse_Page cur = Page_nil
            /\ tbl_nav_sessions (db sm') = tbl_nav_sessions (db sm) ++ [s]
            /\ NavSession_Completed s = false
            /\ NavSession_Page s = PageText_empty
            /\ NavSession_Format s = NavResponse_Format cur
            /\ NavSession_CountryShort s = NavResponse_Country cur
            /\ NavSession_QueryID s
               = bind_opt (bind_opt (Nav_Query (NavResponse_Nav cur)) (findQueryByText sm)) Query_ID
            /\ NavSession_ZipID s
               = bind_opt (bind_opt (Nav_Zip (NavResponse_Nav cur)) (findZipByText sm)) Zip_ID
            /\ NavSession_CityID s
               = bind_opt (bind_opt (Nav_City (NavResponse_Nav cur)) (findCityByText sm)) City_ID
            /\ NavSession_StateShort s
               = option_map State_StateShort
                   (bind_opt (Nav_StateShort (NavResponse_Nav cur)) (findState sm)))).
Proof.
  intros i sm sm' H. unfold bind at 1 in H.
  destruct (buildNavResponseFromIndex i sm) as [r sm1|] eqn:Eb; [|discriminate].
  unfold bind at 1 in H. unfold modify at 1 in H.
  destruct r as [cur|].
  - apply buildNavResponseFromIndex_some in Eb.
    destruct Eb as (-> & Hi & Hnth & Hpage & _).
    pose proof (@saveCurrentSession_ok _ _ H cur eq_refl) as Hs.
    destruct Hs as (c & s & Hc & Hrows & Hcompl & Hf & Hcs & Hq & Hz & Hci & Hst
                    & Hpg & Hcur & Hidx & Hnav).
    cbn in Hidx, Hnav, Hcur, Hrows.
    split; [exact Hidx|]. split; [exact Hnav|]. right.
    exists cur, s. cbn in Hc. destruct (findCountry_code _ _ Hc) as [Hcode _].
    rewrite Hpage in Hpg. cbn in Hpg.
    repeat split; try assumption; try lia. congruence.
  - apply buildNavResponseFromIndex_none in Eb. destruct Eb as [-> Hlen].
    inversion H; subst. cbn. split; [reflexivity|]. split; [reflexivity|].
    left. auto.
Qed.


(** *** Advance *)

Definition mark_country (code : string) (c : Country) : Country :=
  if (Country_CountryShort c =? code)%string then use_country c else c.
Definition mark_query (id : Z) (q : Query) : Query :=
  if id_is id (Query_ID q) then use_query q else q.
Definition mark_zip (id : Z) (z : Zip) : Zip :=
  if id_is id (Zip_ID z) then use_zip z else z.
Definition mark_city (id : Z) (c : City) : City :=
  if id_is id (City_ID c) then use_city c else c.
Definition mark_state (st : State) (row : State) : State :=
  if (State_StateShort row =? State_StateShort st)%string
     && (State_CountryShort row =? State_CountryShort st)%string
  then use_state row else row.

Definition map_if {A B} (o : option B) (f : B -> A -> A) (l : list A) : list A :=
  match o with
  | Some b => map (f b) l
  | None => l
  end.

Lemma markEntitiesAsUsed_updates_tables : forall country query zip city state d,
  let d' := markEntitiesAsUsed_updates country query zip city state d in
  tbl_countries d' = map_if (option_map Country_CountryShort country) mark_country (tbl_countries d)
  /\ tbl_queries d' = map_if (bind_opt query Query_ID) mark_query (tbl_queries d)
  /\ tbl_zips d' = map_if (bind_opt zip Zip_ID) mark_zip (tbl_zips d)
  /\ tbl_cities d' = map_if (bind_opt city City_ID) mark_city (tbl_cities d)
  /\ tbl_states d' = map_if state mark_state (tbl_states d).
Proof.
  intros. subst d'. unfold markEntitiesAsUsed_updates.
  destruct state; destruct city as [[[cid|] ? ? ? ? ? ?]|];
    destruct zip as [[[zid|] ? ? ? ?]|];
    destruct query as [[[qid|] ? ? ?]|];
    destruct country; repeat split; reflexivity.
Qed.


(** What [GetNextNav] does when the store has no active session and the
    call returns a step with a nil error. *)
Lemma GetNextNav_advances : forall sm r sm',
  GetCurrentNavSession (db sm) = None ->
  GetNextNav sm = Ret (Some r, None) sm' ->
  let i := wrap_int (currentIndex sm + 1) in
  saveCurrentSession (set_currentNav (Some r) (set_currentIndex i sm)) = Ret None sm'
  /\ buildNavResponseFromIndex i (set_currentIndex i sm)
     = Ret (Some r) (set_currentIndex i sm).
Proof.
  intros sm r sm' E H i. unfold GetNextNav in H.
  unfold bind at 1 in H. unfold queryDB at 1 in H. rewrite E in H.
  unfold bind at 1 in H. unfold get_sm at 1 in H. cbv iota in H.
  unfold bind at 1 in H. unfold modify at 1 in H. fold i in H.
  unfold bind at 1 in H.
  destruct (buildNavResponseFromIndex i (set_currentIndex i sm)) as [r0 sm1|] eqn:Eb;
    [|discriminate H].
  unfold bind at 1 in H. unfold modify at 1 in H.
  destruct r0 as [cur|].
  - unfold bind in H.
    pose proof (buildNavResponseFromIndex_some _ _ Eb) as (-> & _).
    destruct (saveCurrentSession _) as [e sm2|] eqn:Es; [|discriminate H].
    inversion H; subst. auto.
  - inversion H.
Qed.


(** *** Reset *)

(** Every row that carries [used = true] in [d] is still there, unchanged,
    in [d']. *)
Definition keeps_used (d d' : DB) : Prop :=
  (forall c, In c (tbl_countries d) -> Country_Used c = true -> In c (tbl_countries d'))
  /\ (forall s, In s (tbl_states d) -> State_Used s = true -> In s (tbl_states d'))
  /\ (forall c, In c (tbl_cities d) -> City_Used c = true -> In c (tbl_cities d'))
  /\ (forall z, In z (tbl_zips d) -> Zip_Used z = true -> In z (tbl_zips d'))
  /\ (forall q, In q (tbl_queries d) -> Query_Used q = true -> In q (tbl_queries d')).

Lemma keeps_used_same : forall d d',
  tbl_countries d' = tbl_countries d -> tbl_states d' = tbl_states d ->
  tbl_cities d' = tbl_cities d -> tbl_zips d' = tbl_zips d ->
  tbl_queries d' = tbl_queries d -> keeps_used d d'.
Proof.
  intros d d' H1 H2 H3 H4 H5. unfold keeps_used.
  rewrite H1, H2, H3, H4, H5. repeat split; auto.
Qed.

Lemma in_map_fixed : forall A (f : A -> A) (x : A) l,
  In x l -> f x = x -> In x (map f l).
Proof. intros A f x l Hin Hf. rewrite <- Hf. now apply in_map. Qed.

Lemma in_map_if_fixed : forall A B (o : option B) (f : B -> A -> A) (x : A) l,
  In x l -> (forall b, f b x = x) -> In x (map_if o f l).
Proof.
  intros A B o f x l Hin Hf. destruct o as [b|]; simpl; [|exact Hin].
  apply in_map_fixed; auto.
Qed.

Lemma markEntitiesAsUsed_updates_keeps_used : forall country query zip city state d,
  keeps_used d (markEntitiesAsUsed_updates country query zip city state d).
Proof.
  intros.
  destruct (markEntitiesAsUsed_updates_tables country query zip city state d)
    as (Tc & Tq & Tz & Tci & Ts).
  unfold keeps_used. rewrite Tc, Tq, Tz, Tci, Ts.
  split; [|split; [|split; [|split]]]; intros x Hin Hused;
    apply in_map_if_fixed; auto; intros b.
  - unfold mark_country. destruct (_ =? _)%string; [|reflexivity].
    destruct x; simpl in *; subst; reflexivity.
  - unfold mark_state. destruct (_ && _); [|reflexivity].
    destruct x; simpl in *; subst; reflexivity.
  - unfold mark_city. destruct (id_is _ _); [|reflexivity].
    destruct x; simpl in *; subst; reflexivity.
  - unfold mark_zip. destruct (id_is _ _); [|reflexivity].
    destruct x; simpl in *; subst; reflexivity.
  - unfold mark_query. destruct (id_is _ _); [|reflexivity].
    destruct x; simpl in *; subst; reflexivity.
Qed.

(** The store [saveCurrentSession] ends with: as before, or with one more
    session, not completed, and the marks of [markEntitiesAsUsed]. *)
Lemma saveCurrentSession_final_of : forall sm r,
  saveCurrentSession sm = r ->
  final_db r = db sm
  \/ exists s id country query zip city state,
       NavSession_Completed s = false
       /\ final_db r
          = markEntitiesAsUsed_updates country query zip city state
              (with_nav_sessions (db sm) (tbl_nav_sessions (db sm) ++ [s]) id).
Proof.
  intros sm r H. unfold saveCurrentSession in H.
  unfold bind at 1 in H. unfold get_sm at 1 in H.
  destruct (currentNav sm) as [cur|]; [|subst r; now left].
  destruct (findCountry sm (NavResponse_Country cur)) as [c|]; [|subst r; now left].
  unfold bind, withDB in H.
  match type of H with context [SaveNavSession ?x (db sm)] => set (ses := x) in * end.
  unfold SaveNavSession in H.
  destruct (_ && _); cbn [fst snd] in H; [|subst r; now left].
  right. unfold markEntitiesAsUsed, withDB in H. cbn [fst snd] in H. subst r.
  cbn [final_db db set_db].
  match goal with
  | |- context [markEntitiesAsUsed_updates ?a ?b ?c0 ?d0 ?e
                  (with_nav_sessions _ (_ ++ [?s]) ?id)] =>
      exists s, id, a, b, c0, d0, e
  end.
  split; reflexivity.
Qed.

Lemma saveCurrentSession_final : forall sm,
  final_db (saveCurrentSession sm) = db sm
  \/ exists s id country query zip city state,
       NavSession_Completed s = false
       /\ final_db (saveCurrentSession sm)
          = markEntitiesAsUsed_updates country query zip city state
              (with_nav_sessions (db sm) (tbl_nav_sessions (db sm) ++ [s]) id).
Proof. intros sm. now apply saveCurrentSession_final_of. Qed.

Lemma saveCurrentSession_memory : forall sm e sm',
  saveCurrentSession sm = Ret e sm' -> sm' = set_db (db sm') sm.
Proof.
  intros sm e sm'. unfold saveCurrentSession.
  unfold bind at 1. unfold get_sm at 1.
  destruct (currentNav sm) as [cur|].
  - destruct (findCountry sm (NavResponse_Country cur)) as [c|]; [|discriminate].
    unfold bind, withDB.
    match goal with |- context [SaveNavSession ?x (db sm)] => set (ses := x) end.
    destruct (fst (SaveNavSession ses (db sm))).
    + intros H. inversion H. reflexivity.
    + unfold markEntitiesAsUsed, withDB. intros H. inversion H. reflexivity.
  - intros H. inversion H; subst. destruct sm'; reflexivity.
Qed.

(** [ResetNav] comes down to starting a session on the emptied table. *)
Lemma ResetNav_unfolded : forall sm,
  ResetNav sm
  = (r <- buildNavResponseFromIndex 0 ;;
     modify (set_currentNav r) ;;
     match r with
     | Some _ => saveCurrentSession
     | None => ret None
     end)
      (set_currentNav None
         (set_currentIndex 0
            (set_db (with_nav_sessions (db sm) [] (seq_nav_sessions (db sm))) sm))).
Proof. intros sm. reflexivity. Qed.

Lemma start_session_final : forall i sm res,
  (r <- buildNavResponseFromIndex i ;;
   modify (set_currentNav r) ;;
   match r with
   | Some _ => saveCurrentSession
   | None => ret None
   end) sm = res ->
  (final_db res = db sm
   \/ exists s id country query zip city state,
        NavSession_Completed s = false
        /\ final_db res
           = markEntitiesAsUsed_updates country query zip city state
               (with_nav_sessions (db sm) (tbl_nav_sessions (db sm) ++ [s]) id))
  /\ forall e sm', res = Ret e sm' -> currentIndex sm' = currentIndex sm.
Proof.
  intros i sm res H. unfold bind at 1 in H.
  destruct (buildNavResponseFromIndex_same i sm) as [Hb|[r Hb]]; rewrite Hb in H.
  - subst res. split; [now left|discriminate].
  - unfold bind at 1 in H. unfold modify at 1 in H. destruct r as [cur|].
    + split.
      * apply (saveCurrentSession_final_of (set_currentNav (Some cur) sm) H).
      * intros e sm' H'. rewrite H' in H.
        apply saveCurrentSession_memory in H. rewrite H. reflexivity.
    + subst res. split; [now left|]. intros e sm' H. inversion H. reflexivity.
Qed.

(** What [ResetDatabase] of the store does: no flag and no session is
    left. *)
Lemma DB_ResetDatabase_clears : forall d,
  let d' := snd (DB_ResetDatabase d) in
  tbl_nav_sessions d' = []
  /\ Forall (fun c => Country_Used c = false) (tbl_countries d')
  /\ Forall (fun s => State_Used s = false) (tbl_states d')
  /\ Forall (fun c => City_Used c = false) (tbl_cities d')
  /\ Forall (fun z => Zip_Used z = false) (tbl_zips d')
  /\ Forall (fun q => Query_Used q = false) (tbl_queries d').
Proof.
  intros d. simpl. split; [reflexivity|].
  repeat split; apply Forall_forall; intros x Hin; apply in_map_iff in Hin;
    destruct Hin as (y & <- & _); reflexivity.
Qed.

Lemma refreshData_index : forall sm e sm',
  refreshData sm = Ret e sm' -> currentIndex sm' = currentIndex sm.
Proof.
  intros sm e sm'. unfold refreshData, bind, get_sm, queryDB, modify, ret.
  match goal with |- context [match fst ?x with _ => _ end] => destruct (fst x) end;
    cbv beta iota.
  - intros H. inversion H. reflexivity.
  - match goal with |- context [generateNavOrder ?x] =>
      pose proof (generateNavOrder_ret x) as G;
      destruct (generateNavOrder x) as [u sm2|d] end; cbv beta iota;
      [|discriminate].
    intros H. inversion H; subst.
    destruct (G u sm' eq_refl) as (_ & _ & Hi & _). rewrite Hi. reflexivity.
Qed.

(** C7, as the code has it.  [ResetNav] deletes every session row and
    restarts at index 0: the table it leaves is empty or holds exactly one
    fresh, not completed session, a manager that returns has its cursor at
    0, and when it returns a nil error the one session is that of the step
    at index 0, if the sequence has a step.  It clears no used flag: every
    entity row that had [used = true] is unchanged afterwards.  Clearing
    the flags on all entities, together with the sessions, is what
    [ResetDatabase] does, and that operation leaves the cursor where it
    was. *)
Theorem ResetNav_deletes_sessions_and_keeps_used_flags :
  forall sm,
    (tbl_nav_sessions (final_db (ResetNav sm)) = []
     \/ exists s, tbl_nav_sessions (final_db (ResetNav sm)) = [s]
                  /\ NavSession_Completed s = false)
    /\ keeps_used (db sm) (final_db (ResetNav sm))
    /\ (forall e sm', ResetNav sm = Ret e sm' -> currentIndex sm' = 0)
    /\ (forall sm', ResetNav sm = Ret None sm' ->
          match navOrder sm with
          | [] => currentNav sm' = None /\ tbl_nav_sessions (db sm') = []
          | nav :: _ =>
              exists cur s,
                currentNav sm' = Some cur
                /\ NavResponse_Nav cur = nav
                /\ tbl_nav_sessions (db sm') = [s]
                /\ NavSession_Completed s = false
                /\ NavSession_CountryShort s = NavResponse_Country cur
          end)
    /\ (final_db (SM_ResetDatabase sm) = snd (DB_ResetDatabase (db sm))
        /\ forall e sm', SM_ResetDatabase sm = Ret e sm' ->
                         currentIndex sm' = currentIndex sm).
Proof.
  intros sm. rewrite ResetNav_unfolded.
  match goal with |- context [final_db (?m ?x)] =>
    destruct (@start_session_final 0 x (m x) eq_refl) as [Hf Hi];
    pose proof (@start_session_ok 0 x) as Hok;
    set (res := m x) in *; set (sm0 := x) in *
  end.
  split; [|split; [|split; [|split]]].
  - destruct Hf as [Hf|(s & id & c & q & z & ci & st & Hs & Hf)]; rewrite Hf.
    + left. reflexivity.
    + right. exists s. rewrite markEntitiesAsUsed_updates_sessions.
      split; [reflexivity|exact Hs].
  - destruct Hf as [Hf|(s & id & c & q & z & ci & st & Hs & Hf)]; rewrite Hf.
    + apply keeps_used_same; reflexivity.
    + match goal with |- keeps_used _ (markEntitiesAsUsed_updates _ _ _ _ _ ?d1) =>
        pose proof (markEntitiesAsUsed_updates_keeps_used c q z ci st d1) as K end.
      exact K.
  - intros e sm' H. apply Hi in H. exact H.
  - intros sm' H. destruct (Hok sm' H) as (_ & _ & Hcase).
    change (navOrder sm0) with (navOrder sm) in Hcase.
    change (navOrder_len sm0) with (navOrder_len sm) in Hcase.
    change (tbl_nav_sessions (db sm0)) with (@nil NavSession) in Hcase.
    destruct Hcase as [(Hlen & Hcur & Hdb)|(cur & s & _ & Hnth & Hcur & _ & Hrows
                                            & Hc & _ & _ & Hcs & _)].
    + unfold navOrder_len in Hlen.
      destruct (navOrder sm); [|simpl in Hlen; lia].
      split; [exact Hcur|]. rewrite Hdb. reflexivity.
    + destruct (navOrder sm) as [|nav navs]; [discriminate Hnth|].
      simpl in Hnth. inversion Hnth. exists cur, s. auto.
  - split.
    + unfold SM_ResetDatabase. apply check_refreshData_db.
    + intros e sm'. unfold SM_ResetDatabase, bind, withDB. cbn [fst DB_ResetDatabase].
      intros H. apply refreshData_index in H. exact H.
Qed.

(** *** The order of the expansion *)

Lemma addNavForQuery_country : forall f query country states cities zips nav,
  In nav (addNavForQuery f query country states cities zips) ->
  Nav_Country nav = Some (Country_CountryShort country).
Proof.
  intros f query country states cities zips nav. unfold addNavForQuery.
  repeat match goal with
         | |- context [if (f =? ?x)%string then _ else _] =>
             destruct (f =? x)%string
         end;
    try (destruct query as [q|]);
    intros H;
    repeat match goal with
           | H : In _ [] |- _ => contradiction H
           | H : In _ [_] |- _ => destruct H as [H|H]; [subst; reflexivity|contradiction H]
           | H : In _ (map _ _) |- _ =>
               apply in_map_iff in H; destruct H as (? & H & _); subst; reflexivity
           | H : In _ (flat_map _ _) |- _ =>
               apply in_flat_map in H; destruct H as (? & _ & H)
           | H : In _ (match ?x with _ => _ end) |- _ => destruct x
           end.
Qed.

Lemma navs_of_country_country : forall sm f country nav,
  In nav (navs_of_country sm f country) ->
  Nav_Country nav = Some (Country_CountryShort country).
Proof.
  intros sm f country nav. unfold navs_of_country.
  destruct (strings_HasPrefix f "query-").
  - intros H. apply in_flat_map in H. destruct H as (q & _ & H).
    eapply addNavForQuery_country; eauto.
  - apply addNavForQuery_country.
Qed.

(** C2, as the code has it.  The expansion walks the loaded country list
    in the order in which it was loaded (for the store: the order of the
    rows), with no sort: the sequence is the concatenation, country after
    country in that order, of one block per country, and every step of a
    block carries that country's code.  Expanding twice over the same
    loaded entities gives the same sequence. *)
Theorem generateNavOrder_follows_loaded_country_order :
  forall sm f,
    format sm = Some f ->
    exists sm',
      generateNavOrder sm = Ret tt sm'
      /\ navOrder sm' = List.concat (map (navs_of_country sm f) (countries sm))
      /\ (forall country nav,
            In nav (navs_of_country sm f country) ->
            Nav_Country nav = Some (Country_CountryShort country))
      /\ (forall sm2,
            format sm2 = Some f -> countries sm2 = countries sm ->
            states sm2 = states sm -> cities sm2 = cities sm ->
            zips sm2 = zips sm -> queries sm2 = queries sm ->
            exists sm2', generateNavOrder sm2 = Ret tt sm2'
                         /\ navOrder sm2' = navOrder sm').
Proof.
  intros sm f Hf.
  assert (G : forall x, format x = Some f ->
              generateNavOrder x
              = Ret tt (set_navOrder (List.concat (map (navs_of_country x f) (countries x))) x)).
  { intros x Hx. unfold generateNavOrder. rewrite Hx.
    destruct (countries x) eqn:Ec; [reflexivity|].
    rewrite <- flat_map_concat_map. reflexivity. }
  eexists. split; [apply G, Hf|]. split; [reflexivity|]. split.
  - intros country nav. apply navs_of_country_country.
  - intros sm2 Hf2 Hc Hs Hci Hz Hq. eexists. split; [apply G, Hf2|].
    cbn [navOrder set_navOrder]. rewrite Hc. f_equal.
    apply map_ext. intros country. unfold navs_of_country,
      getStatesByCountry, getCitiesByCountry, getZipsByCountry.
    rewrite Hs, Hci, Hz, Hq. reflexivity.
Qed.

(** *** Bulk adds *)

Section Batch.

Variables (R T : Type).
Variable stmt : R -> DB -> option DB.
Variable parents : R -> DB -> bool.
Variable present : R -> DB -> bool.
Variable tbl : DB -> list T.

Hypothesis stmt_runs : forall r d, parents r d = true -> exists d', stmt r d = Some d'.
Hypothesis stmt_present : forall r d d', stmt r d = Some d' -> present r d' = true.
Hypothesis present_stays : forall r r' d d',
  stmt r d = Some d' -> present r' d = true -> present r' d' = true.
Hypothesis parents_stay : forall r r' d d',
  stmt r d = Some d' -> parents r' d = true -> parents r' d' = true.
Hypothesis stmt_appends : forall r d d',
  stmt r d = Some d' -> exists new, tbl d' = tbl d ++ new.

Lemma exec_each_runs : forall rows d,
  (forall r, In r rows -> parents r d = true) ->
  exists d', exec_each stmt rows d = Some d'.
Proof.
  induction rows as [|r rows IH]; intros d H; simpl.
  - eauto.
  - destruct (@stmt_runs r d (H r (or_introl eq_refl))) as [d1 E1]. rewrite E1.
    apply IH. intros r' Hr'. eapply parents_stay; eauto. apply H. now right.
Qed.

Lemma exec_each_present : forall rows d d',
  exec_each stmt rows d = Some d' ->
  (forall r, present r d = true -> present r d' = true)
  /\ (forall r, In r rows -> present r d' = true)
  /\ exists new, tbl d' = tbl d ++ new.
Proof.
  induction rows as [|r rows IH]; intros d d' H; simpl in H.
  - inversion H; subst. split; [auto|]. split; [intros r []|].
    exists []. now rewrite app_nil_r.
  - destruct (stmt r d) as [d1|] eqn:E1; [|discriminate].
    destruct (IH _ _ H) as (Hmono & Hin & new & Hnew).
    destruct (@stmt_appends _ _ _ E1) as [new1 Hnew1].
    split; [|split].
    + intros r' Hr'. apply Hmono. eapply present_stays; eauto.
    + intros r' [<-|Hr']; [|now apply Hin].
      apply Hmono. eapply stmt_present; eauto.
    + exists (new1 ++ new). rewrite Hnew, Hnew1. now rewrite app_assoc.
Qed.

(** A batch that passed validation: the transaction either commits, and
    then every record is in the table behind the rows that were there, or
    it is rejected by the store and nothing changed; it commits whenever
    the parents of every record exist. *)
Definition batch_inserted (rows : list R) (d : DB) (res : error * DB) : Prop :=
  (res = (Some fk_failed, d)
   \/ exists d', res = (None, d')
                 /\ (forall r, In r rows -> present r d' = true)
                 /\ exists new, tbl d' = tbl d ++ new)
  /\ ((forall r, In r rows -> parents r d = true) -> exists d', res = (None, d')).

Lemma in_transaction_batch : forall rows d,
  batch_inserted rows d (in_transaction (exec_each stmt rows) d).
Proof.
  intros rows d. unfold batch_inserted, in_transaction. split.
  - destruct (exec_each stmt rows d) as [d'|] eqn:E; [right|now left].
    exists d'. split; [reflexivity|].
    destruct (@exec_each_present _ _ _ E) as (_ & Hin & Hnew). auto.
  - intros H. destruct (@exec_each_runs rows d H) as [d' E]. rewrite E. eauto.
Qed.

End Batch.

Lemma existsb_app_true : forall A (f : A -> bool) l x,
  existsb f l = true -> existsb f (l ++ [x]) = true.
Proof. intros. rewrite existsb_app. rewrite H. reflexivity. Qed.

Lemma existsb_app_last : forall A (f : A -> bool) l x,
  f x = true -> existsb f (l ++ [x]) = true.
Proof. intros. rewrite existsb_app. simpl. rewrite H. now rewrite orb_true_r. Qed.

Definition country_present (c : Country) (d : DB) : bool :=
  country_exists d (Country_CountryShort c).
Definition state_present (s : State) (d : DB) : bool :=
  state_exists d (State_StateShort s) (State_CountryShort s).
Definition city_present (c : City) (d : DB) : bool := city_exists d c.
Definition zip_present (z : Zip) (d : DB) : bool := zip_exists d z.
Definition query_present (q : string) (d : DB) : bool := query_exists d q.

Definition no_parents {R} (r : R) (d : DB) : bool := true.
Definition state_parents (s : State) (d : DB) : bool :=
  country_exists d (State_CountryShort s).
Definition city_parents (c : City) (d : DB) : bool :=
  state_exists d (City_StateShort c) (City_CountryShort c)
  && country_exists d (City_CountryShort c).
Definition zip_parents (z : Zip) (d : DB) : bool :=
  country_exists d (Zip_CountryShort z).

Ltac insert_cases H :=
  repeat match type of H with
         | (if ?c then _ else _) = Some _ => destruct c eqn:?
         end;
  inversion H; subst; clear H.

Lemma AddCountries_batch : forall batch ext d,
  existsb country_invalid batch = false ->
  batch_inserted no_parents country_present tbl_countries batch d
                 (AddCountries batch ext d).
Proof.
  intros batch ext d Hv. unfold AddCountries. rewrite Hv.
  apply in_transaction_batch.
  - intros r d0 _. unfold insert_country. destruct (country_exists _ _); eauto.
  - intros r d0 d' H. unfold insert_country in H. insert_cases H.
    + assumption.
    + unfold country_present, country_exists. cbn.
      apply existsb_app_last. cbn. apply String.eqb_refl.
  - intros r r' d0 d' H Hp. unfold insert_country in H. insert_cases H.
    + assumption.
    + unfold country_present, country_exists in *. cbn.
      now apply existsb_app_true.
  - reflexivity.
  - intros r d0 d' H. unfold insert_country in H. insert_cases H.
    + exists []. now rewrite app_nil_r.
    + eexists. reflexivity.
Qed.

Lemma AddStates_batch : forall batch ext d,
  existsb state_invalid batch = false ->
  batch_inserted state_parents state_present tbl_states batch d
                 (AddStates batch ext d).
Proof.
  intros batch ext d Hv. unfold AddStates. rewrite Hv.
  apply in_transaction_batch.
  - intros r d0 Hp. unfold insert_state. unfold state_parents in Hp. rewrite Hp.
    destruct (state_exists _ _ _); eauto.
  - intros r d0 d' H. unfold insert_state in H. insert_cases H.
    + assumption.
    + unfold state_present, state_exists. cbn.
      apply existsb_app_last. cbn. now rewrite !String.eqb_refl.
  - intros r r' d0 d' H Hp. unfold insert_state in H. insert_cases H.
    + assumption.
    + unfold state_present, state_exists in *. cbn. now apply existsb_app_true.
  - intros r r' d0 d' H Hp. unfold insert_state in H. insert_cases H; assumption.
  - intros r d0 d' H. unfold insert_state in H. insert_cases H.
    + exists []. now rewrite app_nil_r.
    + eexists. reflexivity.
Qed.

Lemma AddCities_batch : forall batch ext d,
  existsb city_invalid batch = false ->
  batch_inserted city_parents city_present tbl_cities batch d
                 (AddCities batch ext d).
Proof.
  intros batch ext d Hv. unfold AddCities. rewrite Hv.
  apply in_transaction_batch.
  - intros r d0 Hp. unfold insert_city. unfold city_parents in Hp. rewrite Hp.
    destruct (city_exists _ _); eauto.
  - intros r d0 d' H. unfold insert_city in H. insert_cases H.
    + assumption.
    + unfold city_present, city_exists. cbn.
      apply existsb_app_last. cbn. now rewrite !String.eqb_refl.
  - intros r r' d0 d' H Hp. unfold insert_city in H. insert_cases H.
    + assumption.
    + unfold city_present, city_exists in *. cbn. now apply existsb_app_true.
  - intros r r' d0 d' H Hp. unfold insert_city in H. insert_cases H; assumption.
  - intros r d0 d' H. unfold insert_city in H. insert_cases H.
    + exists []. now rewrite app_nil_r.
    + eexists. reflexivity.
Qed.

Lemma AddZips_batch : forall batch ext d,
  existsb zip_invalid batch = false ->
  batch_inserted zip_parents zip_present tbl_zips batch d
                 (AddZips batch ext d).
Proof.
  intros batch ext d Hv. unfold AddZips. rewrite Hv.
  apply in_transaction_batch.
  - intros r d0 Hp. unfold insert_zip. unfold zip_parents in Hp. rewrite Hp.
    destruct (zip_exists _ _); eauto.
  - intros r d0 d' H. unfold insert_zip in H. insert_cases H.
    + assumption.
    + unfold zip_present, zip_exists. cbn.
      apply existsb_app_last. cbn. now rewrite !String.eqb_refl.
  - intros r r' d0 d' H Hp. unfold insert_zip in H. insert_cases H.
    + assumption.
    + unfold zip_present, zip_exists in *. cbn. now apply existsb_app_true.
  - intros r r' d0 d' H Hp. unfold insert_zip in H. insert_cases H; assumption.
  - intros r d0 d' H. unfold insert_zip in H. insert_cases H.
    + exists []. now rewrite app_nil_r.
    + eexists. reflexivity.
Qed.

Lemma AddQueries_batch : forall batch ext d,
  existsb query_invalid batch = false ->
  batch_inserted no_parents query_present tbl_queries batch d
                 (AddQueries batch ext d).
Proof.
  intros batch ext d Hv. unfold AddQueries. rewrite Hv.
  apply in_transaction_batch.
  - intros r d0 _. unfold insert_query. destruct (query_exists _ _); eauto.
  - intros r d0 d' H. unfold insert_query in H. insert_cases H.
    + assumption.
    + unfold query_present, query_exists. cbn.
      apply existsb_app_last. cbn. apply String.eqb_refl.
  - intros r r' d0 d' H Hp. unfold insert_query in H. insert_cases H.
    + assumption.
    + unfold query_present, query_exists in *. cbn. now apply existsb_app_true.
  - reflexivity.
  - intros r d0 d' H. unfold insert_query in H. insert_cases H.
    + exists []. now rewrite app_nil_r.
    + eexists. reflexivity.
Qed.

(** A call of the store that refuses a batch: one error, the store as it
    was. *)
Definition rejects {R} (add : list R -> bool -> DB -> error * DB)
  (invalid : R -> bool) (msg : string) : Prop :=
  forall batch external d,
    existsb invalid batch = true -> add batch external d = (Some msg, d).

(** A method of the manager that refuses a batch: one error, the manager
    and its store as they were. *)
Definition manager_rejects {R} (add : list R -> M error)
  (invalid : R -> bool) (msg : string) : Prop :=
  forall batch sm,
    existsb invalid batch = true -> add batch sm = Ret (Some msg) sm.

(** A method of the manager that hands a batch it accepts to the store. *)
Definition manager_forwards {R R'} (add : list R -> M error)
  (invalid : R -> bool) (conv : R -> R')
  (store_add : list R' -> bool -> DB -> error * DB) : Prop :=
  forall batch sm,
    batch <> [] -> existsb invalid batch = false ->
    final_db (add batch sm) = snd (store_add (map conv batch) true (db sm)).

Definition city_of_input (c : CityInput) : City :=
  mkCity None (CityInput_City c) (CityInput_StateShort c)
         (CityInput_CountryShort c) None false true.
Definition state_of_input (s : StateInput) : State :=
  mkState None (StateInput_State s) (StateInput_StateShort s)
          (StateInput_CountryShort s) false true.
Definition country_of_input (c : CountryInput) : Country :=
  mkCountry None (CountryInput_Country c) (CountryInput_CountryShort c) false true.

(** C8, as the code has it.  Each bulk add validates the whole batch
    first: one record with an empty required field makes the call return
    its one error and write nothing.  A batch that passes is inserted in a
    single transaction, a record whose key is already there being skipped;
    the transaction commits, leaving every record of the batch in the
    table, whenever the rows the records refer to exist (the country of a
    state or zip, the state and country of a city); when the store rejects
    an insert for a missing parent row the call returns that error and
    nothing is written. *)
Theorem bulk_add_is_all_or_nothing :
  (rejects AddCountries country_invalid
     "all countries must have countryShort and country"
   /\ rejects AddStates state_invalid
        "all states must have stateShort, state, and countryShort"
   /\ rejects AddCities city_invalid
        "all cities must have city, stateShort, and countryShort"
   /\ rejects AddZips zip_invalid "all zips must have zip and countryShort"
   /\ rejects AddQueries query_invalid "all queries must be non-empty strings")
  /\ (forall external d,
        (forall batch, existsb country_invalid batch = false ->
           batch_inserted no_parents country_present tbl_countries batch d
                          (AddCountries batch external d))
        /\ (forall batch, existsb state_invalid batch = false ->
              batch_inserted state_parents state_present tbl_states batch d
                             (AddStates batch external d))
        /\ (forall batch, existsb city_invalid batch = false ->
              batch_inserted city_parents city_present tbl_cities batch d
                             (AddCities batch external d))
        /\ (forall batch, existsb zip_invalid batch = false ->
              batch_inserted zip_parents zip_present tbl_zips batch d
                             (AddZips batch external d))
        /\ (forall batch, existsb query_invalid batch = false ->
              batch_inserted no_parents query_present tbl_queries batch d
                             (AddQueries batch external d)))
  /\ (manager_rejects SM_AddCities city_input_invalid
        "all cities must have city, state, stateShort, and countryShort"
      /\ manager_rejects SM_AddStates state_input_invalid
           "all states must have state, stateShort, and countryShort"
      /\ manager_rejects SM_AddCountries country_input_invalid
           "all countries must have countryShort and country name"
      /\ manager_rejects AddSearchQueries query_invalid
           "all queries must be non-empty strings")
  /\ (manager_forwards SM_AddCities city_input_invalid city_of_input AddCities
      /\ manager_forwards SM_AddStates state_input_invalid state_of_input AddStates
      /\ manager_forwards SM_AddCountries country_input_invalid country_of_input
                          AddCountries).
Proof.
  split; [|split; [|split]].
  - split; [|split; [|split; [|split]]]; intros batch external d H.
    + unfold AddCountries. now rewrite H.
    + unfold AddStates. now rewrite H.
    + unfold AddCities. now rewrite H.
    + unfold AddZips. now rewrite H.
    + unfold AddQueries. now rewrite H.
  - intros external d. split; [|split; [|split; [|split]]]; intros batch H;
      first [ now apply AddCountries_batch | now apply AddStates_batch
            | now apply AddCities_batch | now apply AddZips_batch
            | now apply AddQueries_batch ].
  - split; [|split; [|split]]; intros batch sm H.
    + unfold SM_AddCities. destruct batch; [discriminate H|]. now rewrite H.
    + unfold SM_AddStates. destruct batch; [discriminate H|]. now rewrite H.
    + unfold SM_AddCountries. destruct batch; [discriminate H|]. now rewrite H.
    + unfold AddSearchQueries. destruct batch; [discriminate H|].
      unfold bind, withDB, AddQueries. rewrite H. cbn [fst snd].
      unfold ret. destruct sm; reflexivity.
  - split; [|split]; intros batch sm Hne H.
    + unfold SM_AddCities. destruct batch; [contradiction|]. rewrite H.
      apply check_refreshData_db.
    + unfold SM_AddStates. destruct batch; [contradiction|]. rewrite H.
      apply check_refreshData_db.
    + unfold SM_AddCountries. destruct batch; [contradiction|]. rewrite H.
      apply check_refreshData_db.
Qed.

(** *** Pagination *)

Lemma insert_sorted_length : forall x l,
  List.length (insert_sorted x l) = S (List.length l).
Proof.
  intros x l. induction l as [|y l IH]; simpl; [reflexivity|].
  destruct (x <=? y); simpl; [reflexivity|now rewrite IH].
Qed.

Lemma sort_Ints_length : forall l, List.length (sort_Ints l) = List.length l.
Proof.
  induction l as [|x l IH]; simpl; [reflexivity|].
  rewrite insert_sorted_length. now rewrite IH.
Qed.

Lemma append_then_sort_lengths : forall s x,
  List.length (elems (fst (append_then_sort s x))) = S (List.length (elems s))
  /\ List.length (elems (snd (append_then_sort s x))) = List.length (elems s).
Proof.
  intros s x. unfold append_then_sort.
  assert (L : List.length (sort_Ints (elems s ++ [x])) = S (List.length (elems s))).
  { rewrite sort_Ints_length, length_app. simpl. lia. }
  destruct (spare s); simpl; split; auto.
  rewrite length_firstn. lia.
Qed.

(** Marking a page that the held [PageNav] already shows does nothing. *)
Lemma MarkPageAsDone_already_marked : forall sm cur held page,
  currentNav sm = Some cur ->
  NavResponse_Page cur = Page_PageNav held ->
  In page (elems (PageNav_Pages held)) ->
  MarkPageAsDone page sm = Ret None sm.
Proof.
  intros sm cur held page Hcur Hpage Hin.
  unfold MarkPageAsDone, bind, get_sm. rewrite Hcur, Hpage.
  assert (E : existsb (fun p => p =? page) (elems (PageNav_Pages held)) = true).
  { apply existsb_exists. exists page. split; [exact Hin|apply Z.eqb_refl]. }
  rewrite E. reflexivity.
Qed.

(** The pagination a manager holds, seen as (number of pages in view,
    declared total). *)
Definition held_pagination (sm : StateManager) : option (nat * Z) :=
  match currentNav sm with
  | Some cur =>
      match NavResponse_Page cur with
      | Page_PageNav held =>
          Some (List.length (elems (PageNav_Pages held)), PageNav_Total held)
      | _ => None
      end
  | None => None
  end.

(** One call of [MarkPageAsDone] on a manager that holds [n] pages of a
    declared total other than [n + 1]: it returns, the manager still holds
    [n] pages of the same total, and no session changed its completed
    flag.  The page that was marked went to the store's [page] column
    only. *)
Lemma MarkPageAsDone_does_not_accumulate : forall sm n total page,
  held_pagination sm = Some (n, total) ->
  Z.of_nat n + 1 <> total ->
  exists e sm',
    MarkPageAsDone page sm = Ret e sm'
    /\ held_pagination sm' = Some (n, total)
    /\ map NavSession_Completed (tbl_nav_sessions (db sm'))
       = map NavSession_Completed (tbl_nav_sessions (db sm)).
Proof.
  intros sm n total page Hheld Hne. unfold held_pagination in Hheld.
  destruct (currentNav sm) as [cur|] eqn:Hcur; [|discriminate].
  destruct (NavResponse_Page cur) as [|held|] eqn:Hpage; try discriminate.
  inversion Hheld; subst n total. clear Hheld.
  unfold MarkPageAsDone. unfold bind at 1. unfold get_sm at 1.
  rewrite Hcur, Hpage.
  destruct (existsb _ _).
  - exists None, sm. split; [reflexivity|]. split; [|reflexivity].
    unfold held_pagination. now rewrite Hcur, Hpage.
  - pose proof (append_then_sort_lengths (PageNav_Pages held) page) as [L1 L2].
    destruct (append_then_sort (PageNav_Pages held) page) as [local seen].
    cbn [fst snd] in L1, L2.
    unfold bind at 1. unfold modify at 1.
    unfold bind at 1. unfold queryDB at 1. cbn [db set_currentNav].
    destruct (GetCurrentNavSession (db sm)) as [s|].
    + unfold bind, withDB.
      cbn [fst snd UpdateNavSession PageNav_Pages PageNav_Total].
      assert (Eq : (slice_len local =? PageNav_Total held) = false).
      { apply Z.eqb_neq. unfold slice_len. rewrite L1. lia. }
      rewrite Eq. eexists _, _. split; [reflexivity|].
      split.
      * unfold held_pagination. cbn. now rewrite L2.
      * cbn. rewrite map_map. apply map_ext. intros s0.
        destruct (NavSession_ID s0 =? NavSession_ID s); reflexivity.
    + eexists _, _. split; [reflexivity|]. split; [|reflexivity].
      unfold held_pagination. cbn. now rewrite L2.
Qed.

(** [MarkPageAsDone] over a list of pages, stopping at the first error. *)
Fixpoint mark_pages (pages : list Z) : M error :=
  match pages with
  | [] => ret None
  | page :: rest => check MarkPageAsDone page ;; mark_pages rest
  end.

(** However many pages are marked, a pagination attached with [n] pages
    and a total other than [n + 1] never completes the session: the
    manager keeps showing the [n] pages it was given. *)
Lemma mark_pages_never_completes : forall pages sm n total,
  held_pagination sm = Some (n, total) ->
  Z.of_nat n + 1 <> total ->
  exists e sm',
    mark_pages pages sm = Ret e sm'
    /\ held_pagination sm' = Some (n, total)
    /\ map NavSession_Completed (tbl_nav_sessions (db sm'))
       = map NavSession_Completed (tbl_nav_sessions (db sm)).
Proof.
  induction pages as [|page rest IH]; intros sm n total Hheld Hne; simpl.
  - exists None, sm. auto.
  - destruct (MarkPageAsDone_does_not_accumulate sm page Hheld Hne)
      as (e & sm1 & Hrun & Hheld1 & Hc1).
    unfold bind. rewrite Hrun. destruct e as [msg|].
    + exists (Some msg), sm1. auto.
    + destruct (IH sm1 n total Hheld1 Hne) as (e2 & sm2 & Hrun2 & Hheld2 & Hc2).
      exists e2, sm2. split; [exact Hrun2|]. split; [exact Hheld2|]. congruence.
Qed.

Lemma GetCurrentNavSession_map : forall (f : NavSession -> NavSession) l,
  (forall s, NavSession_Completed (f s) = NavSession_Completed s) ->
  find (fun s => negb (NavSession_Completed s)) (map f l)
  = option_map f (find (fun s => negb (NavSession_Completed s)) l).
Proof.
  intros f l H. induction l as [|s l IH]; simpl; [reflexivity|].
  rewrite H. destruct (negb (NavSession_Completed s)); [reflexivity|exact IH].
Qed.

(** The call that brings the copy of the held pages to the declared total
    does complete the step: with [n] pages held, a total of [n + 1], a page
    not yet among them and an active session [s], the manager's page value
    becomes the sentinel and every session row with the id of [s] gets
    [completed = true]. *)
Lemma MarkPageAsDone_reaching_total_completes : forall sm cur held page s,
  currentNav sm = Some cur ->
  NavResponse_Page cur = Page_PageNav held ->
  ~ In page (elems (PageNav_Pages held)) ->
  slice_len (PageNav_Pages held) + 1 = PageNav_Total held ->
  GetCurrentNavSession (db sm) = Some s ->
  exists sm',
    MarkPageAsDone page sm = Ret None sm'
    /\ option_map NavResponse_Page (currentNav sm') = Some Page_completed
    /\ forall s', In s' (tbl_nav_sessions (db sm')) ->
                  NavSession_ID s' = NavSession_ID s ->
                  NavSession_Completed s' = true.
Proof.
  intros sm cur held page s Hcur Hpage Hnin Htot Hs.
  unfold MarkPageAsDone. unfold bind at 1. unfold get_sm at 1.
  rewrite Hcur, Hpage.
  assert (E : existsb (fun p => p =? page) (elems (PageNav_Pages held)) = false).
  { destruct (existsb _ _) eqn:E; [|reflexivity].
    apply existsb_exists in E. destruct E as (p & Hin & Hp).
    apply Z.eqb_eq in Hp. subst p. contradiction. }
  rewrite E.
  pose proof (append_then_sort_lengths (PageNav_Pages held) page) as [L1 L2].
  destruct (append_then_sort (PageNav_Pages held) page) as [local seen].
  cbn [fst snd] in L1, L2.
  unfold bind at 1. unfold modify at 1.
  unfold bind at 1. unfold queryDB at 1. cbn [db set_currentNav].
  rewrite Hs. unfold bind at 1. unfold withDB at 1.
  cbn [fst snd UpdateNavSession PageNav_Pages PageNav_Total].
  assert (Eq : (slice_len local =? PageNav_Total held) = true).
  { apply Z.eqb_eq. unfold slice_len in *. rewrite L1. lia. }
  rewrite Eq.
  unfold MarkComplete. unfold bind at 1. unfold queryDB at 1.
  cbn [db set_db tbl_nav_sessions with_nav_sessions].
  unfold GetCurrentNavSession in *. cbn [tbl_nav_sessions with_nav_sessions].
  rewrite GetCurrentNavSession_map.
  2:{ intros s0. destruct (NavSession_ID s0 =? NavSession_ID s); reflexivity. }
  cbn [db set_currentNav].
  rewrite Hs. cbn [option_map]. rewrite Z.eqb_refl.
  unfold bind, withDB, get_sm, modify, ret. cbn.
  eexists. split; [reflexivity|]. cbn. split; [reflexivity|].
  intros s' Hin Hid. rewrite map_map in Hin. apply in_map_iff in Hin.
  destruct Hin as (s0 & <- & _).
  destruct (NavSession_ID s0 =? NavSession_ID s) eqn:E0; cbn in *.
  - rewrite ?E0, ?Z.eqb_refl. reflexivity.
  - rewrite ?E0 in *. apply Z.eqb_neq in E0. contradiction.
Qed.

(** [Init] ends in [restoreOrStartSession] on a manager whose cursor it
    has set to 0, unless it returned an error or panicked before. *)
Lemma Init_restores_from_index_0 : forall options ld sm,
  (exists sm0, currentIndex sm0 = 0
               /\ Init options ld sm = restoreOrStartSession sm0)
  \/ (exists msg sm1, Init options ld sm = Ret (Some msg) sm1)
  \/ (exists d, Init options ld sm = Crash d).
Proof.
  intros options ld sm. unfold Init, bind, modify, get_sm, queryDB, ret.
  destruct (setDefault ld _) as [[msg|] sm1|d]; cbv beta iota.
  - right. left. eauto.
  - match goal with |- context [match fst ?x with _ => _ end] =>
      destruct (fst x) as [msg|] end; cbv beta iota.
    + right. left. eauto.
    + match goal with |- context [generateNavOrder ?x] =>
        pose proof (generateNavOrder_ret x) as G;
        destruct (generateNavOrder x) as [u sm2|d] end; cbv beta iota.
      * left. exists sm2. split; [|reflexivity].
        destruct (G u sm2 eq_refl) as (_ & _ & Hi & _). rewrite Hi. reflexivity.
      * right. right. eauto.
  - right. right. eauto.
Qed.

(* ===================================================================== *)
(** ** Further properties of the store and the manager *)
(* ===================================================================== *)

(** *** The end of the sequence *)

Lemma wrap_int_small : forall z, - 2 ^ 63 <= z < 2 ^ 63 -> wrap_int z = z.
Proof.
  intros z H. unfold wrap_int.
  rewrite Z.mod_small; lia.
Qed.

Lemma GetNextNav_past_the_end : forall sm,
  GetCurrentNavSession (db sm) = None ->
  navOrder_len sm <= wrap_int (currentIndex sm + 1) ->
  GetNextNav sm
  = Ret (None, None)
        (set_currentNav None (set_currentIndex (wrap_int (currentIndex sm + 1)) sm)).
Proof.
  intros sm E H. unfold GetNextNav.
  unfold bind at 1. unfold queryDB at 1. rewrite E.
  unfold bind at 1. unfold get_sm at 1. cbv iota.
  unfold bind at 1. unfold modify at 1.
  unfold bind at 1. unfold buildNavResponseFromIndex.
  change (navOrder_len (set_currentIndex (wrap_int (currentIndex sm + 1)) sm))
    with (navOrder_len sm).
  assert (G : (wrap_int (currentIndex sm + 1) >=? navOrder_len sm) = true).
  { rewrite Z.geb_leb. apply Z.leb_le. exact H. }
  rewrite G. reflexivity.
Qed.

(** X1.  Past the last step.  When no session is active and the
    incremented index is at or beyond the end of the sequence, [GetNextNav]
    returns a nil response with a nil error, drops the current response
    and writes nothing to the store; it does not start again at 0.  Every
    further call does the same, the cursor going up by one each time. *)
Theorem GetNextNav_exhausted_stays_exhausted :
  forall n sm,
    GetCurrentNavSession (db sm) = None ->
    navOrder_len sm <= currentIndex sm + 1 ->
    currentIndex sm + Z.of_nat (S n) < 2 ^ 63 ->
    GetNextNav sm
    = Ret (None, None) (set_currentNav None (set_currentIndex (currentIndex sm + 1) sm))
    /\ run_ops (repeat Op_GetNextNav (S n)) (Running sm)
       = Running (set_currentNav None
                    (set_currentIndex (currentIndex sm + Z.of_nat (S n)) sm)).
Proof.
  assert (Len : forall sm, 0 <= navOrder_len sm).
  { intros sm. unfold navOrder_len. lia. }
  assert (One : forall sm,
             GetCurrentNavSession (db sm) = None ->
             navOrder_len sm <= currentIndex sm + 1 ->
             currentIndex sm + 1 < 2 ^ 63 ->
             GetNextNav sm
             = Ret (None, None)
                   (set_currentNav None (set_currentIndex (currentIndex sm + 1) sm))).
  { intros sm E H B. pose proof (Len sm).
    rewrite (GetNextNav_past_the_end sm E).
    - rewrite wrap_int_small by lia. reflexivity.
    - rewrite wrap_int_small by lia. exact H. }
  induction n as [|n IH]; intros sm E H B.
  - split; [apply One; auto; lia|].
    cbn [repeat run_ops run_op]. unfold discard, bind.
    rewrite One by (auto; lia). reflexivity.
  - split; [apply One; auto; lia|].
    change (repeat Op_GetNextNav (S (S n)))
      with (Op_GetNextNav :: repeat Op_GetNextNav (S n)).
    cbn [run_ops run_op]. unfold discard at 1. unfold bind at 1.
    rewrite One by (auto; lia). cbn [ret world_of].
    set (sm1 := set_currentNav None (set_currentIndex (currentIndex sm + 1) sm)).
    destruct (IH sm1) as [_ R].
    + exact E.
    + change (navOrder_len sm1) with (navOrder_len sm).
      change (currentIndex sm1) with (currentIndex sm + 1). lia.
    + change (currentIndex sm1) with (currentIndex sm + 1). lia.
    + rewrite R. unfold sm1, set_currentNav, set_currentIndex.
      cbn [db format targetCountry currentNav countries states cities zips
           queries currentIndex navOrder].
      f_equal. f_equal. lia.
Qed.

(** *** Completing a step *)

Lemma one_active_is_found : forall l s,
  find (fun x => negb (NavSession_Completed x)) l = Some s ->
  (List.length (filter (fun x => negb (NavSession_Completed x)) l) <= 1)%nat ->
  forall x, In x l -> NavSession_Completed x = false -> x = s.
Proof.
  induction l as [|y l IH]; simpl; intros s F L x Hin Hx; [contradiction|].
  destruct (negb (NavSession_Completed y)) eqn:Ey.
  - inversion F; subst y. simpl in L.
    destruct Hin as [->|Hin]; [reflexivity|].
    assert (In x (filter (fun x => negb (NavSession_Completed x)) l)).
    { apply filter_In. split; [exact Hin|]. now rewrite Hx. }
    destruct (filter _ l); [contradiction|simpl in L; lia].
  - destruct Hin as [->|Hin].
    + rewrite Hx in Ey. discriminate.
    + eapply IH; eauto.
Qed.

Lemma GetNextNav_index : forall sm x sm',
  GetCurrentNavSession (db sm) = None ->
  GetNextNav sm = Ret x sm' ->
  currentIndex sm' = wrap_int (currentIndex sm + 1).
Proof.
  intros sm x sm' E H. unfold GetNextNav in H.
  unfold bind at 1 in H. unfold queryDB at 1 in H. rewrite E in H.
  unfold bind at 1 in H. unfold get_sm at 1 in H. cbv iota in H.
  unfold bind at 1 in H. unfold modify at 1 in H.
  unfold bind at 1 in H.
  match type of H with context [buildNavResponseFromIndex ?i ?y] =>
    destruct (buildNavResponseFromIndex_same i y) as [Hb|[r Hb]]; rewrite Hb in H
  end; [discriminate|].
  unfold bind at 1 in H. unfold modify at 1 in H. destruct r as [cur|].
  - unfold bind in H.
    destruct (saveCurrentSession _) as [e sm2|] eqn:Es; [|discriminate].
    inversion H; subst. apply saveCurrentSession_memory in Es.
    rewrite Es. reflexivity.
  - inversion H. reflexivity.
Qed.

Lemma MarkComplete_clears : forall sm e sm1,
  (active_sessions (db sm) <= 1)%nat ->
  MarkComplete sm = Ret e sm1 ->
  e = None /\ active_sessions (db sm1) = 0%nat
  /\ currentIndex sm1 = currentIndex sm /\ navOrder sm1 = navOrder sm.
Proof.
  intros sm e sm1 L H. unfold MarkComplete in H.
  unfold bind at 1 in H. unfold queryDB at 1 in H.
  destruct (GetCurrentNavSession (db sm)) as [s|] eqn:E.
  - unfold bind at 1 in H. unfold withDB at 1 in H.
    cbn [fst snd UpdateNavSession] in H.
    unfold bind at 1 in H. unfold get_sm at 1 in H.
    cbn [currentNav set_db] in H.
    destruct (currentNav sm) as [cur|]; [|discriminate H].
    unfold bind, modify, ret in H. inversion H; subst e sm1. clear H.
    cbn [db set_currentNav set_db currentIndex navOrder].
    split; [reflexivity|]. split; [|split; reflexivity].
    unfold active_sessions. cbn [tbl_nav_sessions with_nav_sessions].
    apply length_zero_iff_nil.
    destruct (filter _ (map _ _)) as [|y ys] eqn:F; [reflexivity|].
    assert (Hy : In y (y :: ys)) by now left.
    rewrite <- F in Hy. apply filter_In in Hy. destruct Hy as [Hin Hc].
    apply in_map_iff in Hin. destruct Hin as (x & <- & Hin).
    destruct (NavSession_ID x =? NavSession_ID s) eqn:Eid; [discriminate Hc|].
    apply negb_true_iff in Hc.
    rewrite (one_active_is_found _ E L x Hin Hc) in Eid.
    rewrite Z.eqb_refl in Eid. discriminate.
  - inversion H; subst e sm1. clear H.
    split; [reflexivity|]. split; [now apply active_sessions_none|].
    split; reflexivity.
Qed.

(** X2.  Completing unblocks the advance.  On a store with at most one
    active session, a [MarkComplete] that returns leaves no active session,
    and does not move the cursor; a [GetNextNav] that follows is therefore
    not held back and, when it returns, has moved the cursor by exactly
    one.  With no active session to begin with, [MarkComplete] changes
    nothing. *)
Theorem MarkComplete_unblocks_GetNextNav :
  forall sm,
    (active_sessions (db sm) <= 1)%nat ->
    (forall e sm1,
        MarkComplete sm = Ret e sm1 ->
        e = None
        /\ active_sessions (db sm1) = 0%nat
        /\ currentIndex sm1 = currentIndex sm
        /\ forall x sm2,
             GetNextNav sm1 = Ret x sm2 ->
             currentIndex sm2 = wrap_int (currentIndex sm + 1))
    /\ (GetCurrentNavSession (db sm) = None -> MarkComplete sm = Ret None sm).
Proof.
  intros sm L. split.
  - intros e sm1 H.
    destruct (MarkComplete_clears _ L H) as (He & A & I & _).
    split; [exact He|]. split; [exact A|]. split; [exact I|].
    intros x sm2 H2. rewrite <- I.
    apply GetNextNav_index in H2; [exact H2|].
    apply active_sessions_none. exact A.
  - intros E. unfold MarkComplete, bind, queryDB. rewrite E. reflexivity.
Qed.

(** *** The restored cursor *)

(** X3.  Restore keeps the cursor inside the sequence.  With an active
    session and a sequence that is not empty, [restoreOrStartSession]
    returns a nil error with a cursor that is a valid index, whatever the
    session refers to; it writes nothing to the store. *)
Theorem restore_cursor_in_range :
  forall sm s,
    GetCurrentNavSession (db sm) = Some s ->
    navOrder sm <> [] ->
    exists sm',
      restoreOrStartSession sm = Ret None sm'
      /\ db sm' = db sm
      /\ 0 <= currentIndex sm' < navOrder_len sm'
      /\ exists nav, nth_error (navOrder sm') (Z.to_nat (currentIndex sm')) = Some nav.
Proof.
  intros sm s E Hne.
  unfold restoreOrStartSession, bind, queryDB, get_sm, modify, ret.
  rewrite E. eexists. split; [reflexivity|]. cbn.
  split; [reflexivity|].
  match goal with |- context [findNavIndex sm s ?c ?q ?z ?ci ?st] =>
    pose proof (findNavIndex_relocated sm s c q z ci st) as R;
    set (i := findNavIndex sm s c q z ci st) in *
  end.
  unfold navOrder_len. cbn.
  destruct R as [(n & nav & Hi & Hn & _)|(Hi & _)].
  - assert (n < List.length (navOrder sm))%nat.
    { apply nth_error_Some. rewrite Hn. discriminate. }
    split; [lia|]. exists nav. rewrite Hi, Nat2Z.id. exact Hn.
  - rewrite Hi. destruct (navOrder sm) as [|nav navs]; [contradiction|].
    split; [simpl; lia|]. exists nav. reflexivity.
Qed.

(** *** The shape of the expansion *)

Ltac format_cases f :=
  repeat match goal with
         | |- context [if (f =? ?x)%string then _ else _] =>
             destruct (String.eqb_spec f x) as [->|_]
         end.

Ltac in_steps :=
  repeat match goal with
         | H : In _ [] |- _ => contradiction H
         | H : In _ [_] |- _ => destruct H as [H|H]; [subst|contradiction H]
         | H : In _ (map _ _) |- _ =>
             apply in_map_iff in H; destruct H as (? & H & ?); subst
         | H : In _ (flat_map _ _) |- _ =>
             apply in_flat_map in H; destruct H as (? & ? & H)
         | H : In _ (match ?x with _ => _ end) |- _ => destruct x eqn:?
         end.

Lemma addNavForQuery_without_query : forall f country states cities zips nav,
  In nav (addNavForQuery f None country states cities zips) ->
  Nav_Query nav = None.
Proof.
  intros f country states cities zips nav. unfold addNavForQuery.
  format_cases f; intros H; in_steps; reflexivity.
Qed.

Lemma addNavForQuery_with_query : forall f q country states cities zips nav,
  strings_HasPrefix f "query-" = true ->
  In nav (addNavForQuery f (Some q) country states cities zips) ->
  Nav_Query nav = Some (Query_Query q).
Proof.
  intros f q country states cities zips nav. unfold addNavForQuery.
  format_cases f; intros P H; try discriminate P; in_steps; reflexivity.
Qed.

Lemma addNavForQuery_format_query : forall country states cities zips,
  addNavForQuery NavFormatQuery None country states cities zips = [].
Proof. intros. reflexivity. Qed.

Lemma last_in : forall {A} (l : list A) x, In x l -> In (last l x) l.
Proof.
  induction l as [|y l IH]; intros x H; [contradiction|].
  destruct l as [|z l]; [now left|].
  right. change (last (y :: z :: l) x) with (last (z :: l) x).
  assert (E : forall d d', last (z :: l) d = last (z :: l) d').
  { clear. revert z. induction l as [|w l IH]; intros z d d'; [reflexivity|].
    change (last (z :: w :: l) d) with (last (w :: l) d).
    change (last (z :: w :: l) d') with (last (w :: l) d'). apply IH. }
  rewrite (E x z). apply IH. now left.
Qed.

Lemma loop_var_in : forall {A} (l : list A) x, In x l -> In (loop_var l x) l.
Proof.
  intros A l x H. unfold loop_var.
  destruct loopvar_per_iteration; [exact H|now apply last_in].
Qed.

(** X4.  Which steps carry a query.  After an expansion, every step has a
    query text exactly when the format starts with "query-", and then
    the text is that of a loaded query.  The format "query" does not
    start with "query-": it is expanded with no query at hand and yields
    no step at all, whatever is loaded. *)
Theorem expansion_carries_query_iff_query_prefix :
  forall sm f sm',
    format sm = Some f ->
    generateNavOrder sm = Ret tt sm' ->
    (forall nav,
        In nav (navOrder sm') ->
        (Nav_Query nav <> None <-> strings_HasPrefix f "query-" = true)
        /\ (forall text, Nav_Query nav = Some text ->
                         exists q, In q (queries sm) /\ Query_Query q = text))
    /\ (f = NavFormatQuery -> navOrder sm' = []).
Proof.
  intros sm f sm' Hf H. unfold generateNavOrder in H. rewrite Hf in H.
  assert (E : navOrder sm' = flat_map (navs_of_country sm f) (countries sm)).
  { destruct (countries sm); inversion H; reflexivity. }
  clear H. rewrite E. split.
  - intros nav Hin. apply in_flat_map in Hin. destruct Hin as (c & _ & Hin).
    unfold navs_of_country in Hin.
    destruct (strings_HasPrefix f "query-") eqn:P.
    + apply in_flat_map in Hin. destruct Hin as (q & Hq & Hin).
      apply addNavForQuery_with_query in Hin; [|exact P].
      split.
      * split; [reflexivity|]. intros _. rewrite Hin. discriminate.
      * intros text T. rewrite Hin in T. inversion T.
        exists (loop_var (queries sm) q). split; [|reflexivity].
        now apply loop_var_in.
    + apply addNavForQuery_without_query in Hin. rewrite Hin.
      split; [|discriminate]. split; [congruence|discriminate].
  - intros ->. clear E.
    induction (countries sm) as [|c l IH]; [reflexivity|].
    cbn [flat_map]. rewrite IH.
    unfold navs_of_country.
    change (strings_HasPrefix NavFormatQuery "query-") with false.
    cbv iota. rewrite addNavForQuery_format_query. reflexivity.
Qed.

Lemma flat_map_length_ext : forall {A B} (f g : A -> list B) l,
  (forall x, List.length (f x) = List.length (g x)) ->
  List.length (flat_map f l) = List.length (flat_map g l).
Proof.
  intros A B f g l H. induction l as [|x l IH]; [reflexivity|].
  cbn [flat_map]. rewrite !length_app, IH, H. reflexivity.
Qed.

Lemma flat_map_length_const : forall {A B} (f : A -> list B) l n,
  (forall x, List.length (f x) = n) ->
  List.length (flat_map f l) = (List.length l * n)%nat.
Proof.
  intros A B f l n H. induction l as [|x l IH]; [reflexivity|].
  cbn [flat_map List.length]. rewrite length_app, IH, H. lia.
Qed.

Lemma addNavForQuery_length_any_query : forall f q q' country states cities zips,
  List.length (addNavForQuery f (Some q) country states cities zips)
  = List.length (addNavForQuery f (Some q') country states cities zips).
Proof.
  intros f q q' country states cities zips. unfold addNavForQuery.
  format_cases f; rewrite ?length_map; try reflexivity;
    apply flat_map_length_ext; intros city;
    repeat match goal with
           | |- context [match ?x with _ => _ end] => destruct x
           end; reflexivity.
Qed.

(** X5.  Size of a query expansion.  For a format that starts with
    "query-" every loaded query contributes the same number of steps for
    a given country, so a country's block has (number of loaded queries)
    times (steps of any one query) steps; with no query loaded the whole
    sequence is empty, whatever countries, cities and zips are loaded. *)
Theorem query_expansion_size :
  forall sm f sm',
    format sm = Some f ->
    strings_HasPrefix f "query-" = true ->
    generateNavOrder sm = Ret tt sm' ->
    (forall country q,
        List.length (navs_of_country sm f country)
        = (List.length (queries sm)
           * List.length
               (addNavForQuery f (Some q) country
                  (getStatesByCountry sm (Country_CountryShort country))
                  (getCitiesByCountry sm (Country_CountryShort country))
                  (getZipsByCountry sm (Country_CountryShort country))))%nat)
    /\ (queries sm = [] -> navOrder sm' = []).
Proof.
  intros sm f sm' Hf P H. unfold generateNavOrder in H. rewrite Hf in H.
  assert (E : navOrder sm' = flat_map (navs_of_country sm f) (countries sm)).
  { destruct (countries sm); inversion H; reflexivity. }
  clear H.
  assert (B : forall country q,
             List.length (navs_of_country sm f country)
             = (List.length (queries sm)
                * List.length
                    (addNavForQuery f (Some q) country
                       (getStatesByCountry sm (Country_CountryShort country))
                       (getCitiesByCountry sm (Country_CountryShort country))
                       (getZipsByCountry sm (Country_CountryShort country))))%nat).
  { intros country q. unfold navs_of_country. rewrite P.
    apply flat_map_length_const. intros q'.
    apply addNavForQuery_length_any_query. }
  split; [exact B|].
  intros Q. rewrite E. clear E.
  induction (countries sm) as [|c l IH]; [reflexivity|].
  cbn [flat_map]. rewrite IH, app_nil_r.
  unfold navs_of_country. rewrite P, Q. reflexivity.
Qed.

Lemma findStateByShort_in : forall stateShort states state,
  findStateByShort stateShort states = Some state ->
  In state states /\ State_StateShort state = stateShort.
Proof.
  intros stateShort states state H. unfold findStateByShort in H.
  apply find_some in H. destruct H as [H E].
  apply String.eqb_eq in E. now split.
Qed.

Ltac from_loaded :=
  match goal with
  | H : findStateByShort _ _ = Some ?s |- exists state, In state _ /\ _ =>
      exists s; apply findStateByShort_in in H; destruct H; repeat split; assumption
  | H : In ?x ?l |- exists y, In y ?l /\ _ =>
      exists (loop_var l x); repeat split; apply loop_var_in; exact H
  | H : In ?x ?l |- exists y, In y ?l /\ _ =>
      exists x; repeat split; assumption
  end.

Lemma addNavForQuery_sources : forall f query country states cities zips nav,
  In nav (addNavForQuery f query country states cities zips) ->
  (forall z, Nav_Zip nav = Some z -> exists zip, In zip zips /\ Zip_Zip zip = z)
  /\ (forall c, Nav_City nav = Some c ->
                exists city, In city cities /\ City_City city = c)
  /\ (forall s, Nav_State nav = Some s ->
                exists state, In state states /\ State_State state = s
                              /\ Nav_StateShort nav = Some (State_StateShort state))
  /\ (forall k, Nav_County nav = Some k ->
                exists city, In city cities /\ City_County city = Some k).
Proof.
  intros f query country states cities zips nav. unfold addNavForQuery.
  format_cases f; intros H; in_steps;
    (split; [|split; [|split]]);
    (let t := fresh "t" in
     let T := fresh "T" in
     intros t T; cbn in T; try discriminate T; inversion T; subst;
     try from_loaded).
Qed.

(** X6.  Steps are made of loaded entities of their own country.  After
    an expansion every step names a loaded country, and each text it
    carries is that of a loaded zip, city or state of that same country
    (with the state's own short code beside the state's name); a county is
    that of a loaded city of the country. *)
Theorem expansion_steps_come_from_loaded_entities :
  forall sm f sm' nav,
    format sm = Some f ->
    generateNavOrder sm = Ret tt sm' ->
    In nav (navOrder sm') ->
    exists country,
      In country (countries sm)
      /\ Nav_Country nav = Some (Country_CountryShort country)
      /\ (forall z, Nav_Zip nav = Some z ->
            exists zip, In zip (zips sm) /\ Zip_Zip zip = z
                        /\ Zip_CountryShort zip = Country_CountryShort country)
      /\ (forall c, Nav_City nav = Some c ->
            exists city, In city (cities sm) /\ City_City city = c
                         /\ City_CountryShort city = Country_CountryShort country)
      /\ (forall s, Nav_State nav = Some s ->
            exists state, In state (states sm) /\ State_State state = s
                          /\ Nav_StateShort nav = Some (State_StateShort state)
                          /\ State_CountryShort state = Country_CountryShort country)
      /\ (forall k, Nav_County nav = Some k ->
            exists city, In city (cities sm) /\ City_County city = Some k
                         /\ City_CountryShort city = Country_CountryShort country).
Proof.
  intros sm f sm' nav Hf H Hin. unfold generateNavOrder in H. rewrite Hf in H.
  assert (E : navOrder sm' = flat_map (navs_of_country sm f) (countries sm)).
  { destruct (countries sm); inversion H; reflexivity. }
  clear H. rewrite E in Hin. clear E.
  apply in_flat_map in Hin. destruct Hin as (country & Hc & Hin).
  exists country. split; [exact Hc|].
  split; [eapply navs_of_country_country; exact Hin|].
  assert (S : exists query,
             In nav (addNavForQuery f query country
                       (getStatesByCountry sm (Country_CountryShort country))
                       (getCitiesByCountry sm (Country_CountryShort country))
                       (getZipsByCountry sm (Country_CountryShort country)))).
  { unfold navs_of_country in Hin.
    destruct (strings_HasPrefix f "query-").
    - apply in_flat_map in Hin. destruct Hin as (q & _ & Hin). eauto.
    - eauto. }
  destruct S as (query & S). apply addNavForQuery_sources in S.
  destruct S as (Z & C & St & K).
  split; [|split; [|split]].
  - intros z Hz. destruct (Z z Hz) as (zip & I & T). exists zip.
    unfold getZipsByCountry in I. apply filter_In in I. destruct I as [I Ec].
    apply String.eqb_eq in Ec. auto.
  - intros c Hcity. destruct (C c Hcity) as (city & I & T). exists city.
    unfold getCitiesByCountry in I. apply filter_In in I. destruct I as [I Ec].
    apply String.eqb_eq in Ec. auto.
  - intros s Hs. destruct (St s Hs) as (state & I & T & T'). exists state.
    unfold getStatesByCountry in I. apply filter_In in I. destruct I as [I Ec].
    apply String.eqb_eq in Ec. auto.
  - intros k Hk. destruct (K k Hk) as (city & I & T). exists city.
    unfold getCitiesByCountry in I. apply filter_In in I. destruct I as [I Ec].
    apply String.eqb_eq in Ec. auto.
Qed.

(** *** Methods that return

    [wp m Q sm]: on the manager [sm] the method [m] returns, and its result
    and the manager it leaves satisfy [Q]. *)
Definition wp {A} (m : M A) (Q : A -> StateManager -> Prop) (sm : StateManager) : Prop :=
  match m sm with
  | Ret a sm' => Q a sm'
  | Crash _ => False
  end.

Lemma wp_bind_eq : forall A B (m : M A) (k : A -> M B) Q sm,
  wp (bind m k) Q sm = wp m (fun a sm' => wp (k a) Q sm') sm.
Proof. intros. unfold wp, bind. destruct (m sm); reflexivity. Qed.

Lemma wp_ret_eq : forall A (a : A) Q sm, wp (ret a) Q sm = Q a sm.
Proof. reflexivity. Qed.

Lemma wp_get_sm_eq : forall Q sm, wp get_sm Q sm = Q sm sm.
Proof. reflexivity. Qed.

Lemma wp_modify_eq : forall f Q sm, wp (modify f) Q sm = Q tt (f sm).
Proof. reflexivity. Qed.

Lemma wp_withDB_eq : forall A (op : DB -> A * DB) Q sm,
  wp (withDB op) Q sm = Q (fst (op (db sm))) (set_db (snd (op (db sm))) sm).
Proof. reflexivity. Qed.

Lemma wp_queryDB_eq : forall A (q : DB -> A) Q sm,
  wp (queryDB q) Q sm = Q (q (db sm)) sm.
Proof. reflexivity. Qed.

Lemma wp_mono : forall A (m : M A) (Q Q' : A -> StateManager -> Prop) sm,
  wp m Q sm -> (forall a sm', Q a sm' -> Q' a sm') -> wp m Q' sm.
Proof. intros A m Q Q' sm H I. unfold wp in *. destruct (m sm); auto. Qed.

Lemma wp_returns : forall A (m : M A) Q sm,
  wp m Q sm <-> exists a sm', m sm = Ret a sm' /\ Q a sm'.
Proof.
  intros A m Q sm. unfold wp. split.
  - destruct (m sm) as [a sm'|d]; [eauto|contradiction].
  - intros (a & sm' & E & H). rewrite E. exact H.
Qed.

Lemma wp_of_eq : forall A (m : M A) (Q : A -> StateManager -> Prop) sm a sm',
  m sm = Ret a sm' -> Q a sm' -> wp m Q sm.
Proof. intros A m Q sm a sm' E H. unfold wp. rewrite E. exact H. Qed.

Ltac wp_step :=
  first [ rewrite wp_bind_eq | rewrite wp_ret_eq | rewrite wp_get_sm_eq
        | rewrite wp_modify_eq | rewrite wp_withDB_eq | rewrite wp_queryDB_eq ];
  cbv beta.

(** Every step names a country that [findCountry] finds. *)
Definition steps_ok (sm : StateManager) : Prop :=
  forall nav, In nav (navOrder sm) ->
    exists code c, Nav_Country nav = Some code /\ findCountry sm code = Some c.

(** What [Init] establishes and every method keeps: the format is set, the
    cursor is not negative, a manager over a store with an active session
    holds a response, and every step names a loaded country. *)
Definition ready (sm : StateManager) : Prop :=
  format sm <> None
  /\ 0 <= currentIndex sm
  /\ ((0 < active_sessions (db sm))%nat -> currentNav sm <> None)
  /\ steps_ok sm.

(** [ready], as a test. *)
Definition steps_okb (sm : StateManager) : bool :=
  forallb (fun nav =>
             match Nav_Country nav with
             | Some code =>
                 match findCountry sm code with Some _ => true | None => false end
             | None => false
             end) (navOrder sm).

Definition readyb (sm : StateManager) : bool :=
  match format sm with Some _ => true | None => false end
  && (0 <=? currentIndex sm)
  && match currentNav sm with
     | Some _ => true
     | None => (active_sessions (db sm) =? 0)%nat
     end
  && steps_okb sm.

Lemma readyb_ready : forall sm, readyb sm = true -> ready sm.
Proof.
  intros sm H. unfold readyb in H.
  apply andb_prop in H. destruct H as [H S].
  apply andb_prop in H. destruct H as [H N].
  apply andb_prop in H. destruct H as [F I].
  split; [destruct (format sm); [discriminate|discriminate F]|].
  split; [now apply Z.leb_le|]. split.
  - intros P. destruct (currentNav sm); [discriminate|].
    apply Nat.eqb_eq in N. lia.
  - intros nav Hin. unfold steps_okb in S. rewrite forallb_forall in S.
    specialize (S nav Hin).
    destruct (Nav_Country nav) as [code|]; [|discriminate S].
    destruct (findCountry sm code) as [c|] eqn:E; [|discriminate S].
    exists code, c. split; [reflexivity|exact E].
Qed.

Lemma find_exists : forall A (p : A -> bool) l x,
  In x l -> p x = true -> exists y, find p l = Some y.
Proof.
  intros A p l x. induction l as [|y l IH]; intros Hin Hp; [contradiction|].
  simpl. destruct (p y) eqn:E; [eauto|].
  destruct Hin as [->|Hin]; [congruence|auto].
Qed.

Lemma generateNavOrder_some : forall sm f,
  format sm = Some f ->
  generateNavOrder sm
  = Ret tt (set_navOrder (flat_map (navs_of_country sm f) (countries sm)) sm).
Proof.
  intros sm f H. unfold generateNavOrder. rewrite H.
  destruct (countries sm); reflexivity.
Qed.

Lemma steps_ok_expanded : forall sm f,
  steps_ok (set_navOrder (flat_map (navs_of_country sm f) (countries sm)) sm).
Proof.
  intros sm f nav H. cbn [navOrder set_navOrder] in H.
  apply in_flat_map in H. destruct H as (c & Hc & H).
  apply navs_of_country_country in H.
  exists (Country_CountryShort c).
  destruct (@find_exists _ (fun c' => (Country_CountryShort c' =? Country_CountryShort c)%string)
              (countries sm) c Hc (String.eqb_refl _)) as [c' E].
  exists c'. split; [exact H|exact E].
Qed.

Lemma wp_generateNavOrder : forall sm (Q : unit -> StateManager -> Prop),
  format sm <> None ->
  (forall l, steps_ok (set_navOrder l sm) -> Q tt (set_navOrder l sm)) ->
  wp generateNavOrder Q sm.
Proof.
  intros sm Q Hf H. destruct (format sm) as [f|] eqn:E; [|congruence].
  eapply wp_of_eq; [apply generateNavOrder_some, E|].
  apply H. apply steps_ok_expanded.
Qed.

Lemma GetCities_after_GetStates : forall cs d,
  fst (GetCities cs (map State_StateShort (GetStates cs d)) d) = None.
Proof.
  intros cs d. destruct cs as [|c cs]; [reflexivity|].
  unfold GetCities. destruct (map _ _); reflexivity.
Qed.

(** What a method leaves of the manager's memory. *)
Definition mem_ok (sm sm' : StateManager) : Prop :=
  format sm' <> None
  /\ currentIndex sm' = currentIndex sm
  /\ (currentNav sm <> None -> currentNav sm' <> None)
  /\ steps_ok sm'.

Lemma mem_ok_refl : forall sm, format sm <> None -> steps_ok sm -> mem_ok sm sm.
Proof. intros sm F S. repeat split; auto. Qed.

Lemma mem_ok_set_db : forall sm d,
  format sm <> None -> steps_ok sm -> mem_ok sm (set_db d sm).
Proof. intros sm d F S. repeat split; auto. Qed.

Lemma wp_refreshData : forall sm,
  format sm <> None ->
  wp refreshData
     (fun _ sm' => db sm' = db sm /\ format sm' = format sm
                   /\ currentIndex sm' = currentIndex sm
                   /\ currentNav sm' = currentNav sm /\ steps_ok sm') sm.
Proof.
  intros sm F. unfold refreshData. repeat wp_step.
  cbn [db set_countries set_states targetCountry].
  rewrite GetCities_after_GetStates.
  repeat wp_step. apply wp_generateNavOrder; [exact F|].
  intros l S. wp_step. auto.
Qed.

Lemma steps_ok_same : forall sm sm',
  navOrder sm' = navOrder sm -> countries sm' = countries sm ->
  steps_ok sm -> steps_ok sm'.
Proof.
  intros sm sm' N C S nav H. rewrite N in H.
  destruct (S nav H) as (code & c & E & F). exists code, c.
  split; [exact E|]. unfold findCountry in *. rewrite C. exact F.
Qed.

Lemma wp_buildNavResponseFromIndex : forall i sm,
  format sm <> None -> steps_ok sm -> 0 <= i ->
  wp (buildNavResponseFromIndex i)
     (fun r sm' =>
        sm' = sm
        /\ (r = None <-> navOrder_len sm <= i)
        /\ forall cur, r = Some cur ->
             nth_error (navOrder sm) (Z.to_nat i) = Some (NavResponse_Nav cur)
             /\ NavResponse_HasNext cur = (i <? navOrder_len sm - 1)
             /\ NavResponse_Page cur = Page_nil
             /\ format sm = Some (NavResponse_Format cur)
             /\ exists c, findCountry sm (NavResponse_Country cur) = Some c) sm.
Proof.
  intros i sm F S Hi. unfold wp, buildNavResponseFromIndex.
  destruct (i >=? navOrder_len sm) eqn:G.
  - rewrite Z.geb_leb in G. apply Z.leb_le in G.
    split; [reflexivity|]. split; [tauto|discriminate].
  - rewrite Z.geb_leb in G. apply Z.leb_gt in G.
    assert (L : (i <? 0) = false) by (apply Z.ltb_ge; lia). rewrite L.
    assert (N : (Z.to_nat i < List.length (navOrder sm))%nat).
    { unfold navOrder_len in G. lia. }
    destruct (nth_error (navOrder sm) (Z.to_nat i)) as [nav|] eqn:E;
      [|apply nth_error_None in E; lia].
    destruct (S nav (nth_error_In _ _ E)) as (code & c & C & Fc). rewrite C.
    destruct (format sm) as [f|]; [|congruence].
    split; [reflexivity|]. split; [split; [discriminate|lia]|].
    intros cur H. inversion H; subst cur. cbn.
    repeat split. exists c. rewrite Fc.
    destruct (findCountry_code _ _ Fc) as [-> _]. exact Fc.
Qed.

Lemma wp_saveCurrentSession : forall sm cur c,
  currentNav sm = Some cur ->
  findCountry sm (NavResponse_Country cur) = Some c ->
  wp saveCurrentSession (fun _ sm' => sm' = set_db (db sm') sm) sm.
Proof.
  intros sm cur c Hc Hf. unfold wp.
  destruct (saveCurrentSession sm) as [e sm'|d] eqn:E.
  - eapply saveCurrentSession_memory; eauto.
  - unfold saveCurrentSession in E. unfold bind at 1 in E.
    unfold get_sm at 1 in E. rewrite Hc, Hf in E.
    unfold bind, withDB in E.
    match type of E with
    | context [fst ?x] => destruct (fst x)
    end; discriminate E.
Qed.

Lemma findNavIndex_nonneg : forall sm session country query zip city state,
  0 <= findNavIndex sm session country query zip city state.
Proof.
  intros. destruct (findNavIndex_relocated sm session country query zip city state)
    as [(n & nav & -> & _)|[-> _]]; lia.
Qed.

Lemma wp_restoreOrStartSession : forall sm,
  format sm <> None -> steps_ok sm -> 0 <= currentIndex sm ->
  wp restoreOrStartSession
     (fun _ sm' => format sm' = format sm /\ navOrder sm' = navOrder sm
                   /\ countries sm' = countries sm /\ ready sm') sm.
Proof.
  intros sm F S I. unfold restoreOrStartSession.
  wp_step. wp_step.
  destruct (GetCurrentNavSession (db sm)) as [s|] eqn:E.
  - repeat wp_step. cbn [format navOrder countries set_currentNav set_currentIndex].
    repeat split; auto.
    + apply findNavIndex_nonneg.
    + discriminate.
  - wp_step. eapply wp_mono; [apply wp_buildNavResponseFromIndex; auto; lia|].
    intros r sm1 (-> & Hn & Hs). cbv beta. wp_step. wp_step.
    destruct r as [cur|].
    + destruct (Hs cur eq_refl) as (_ & _ & _ & _ & c & Hc).
      eapply wp_mono; [eapply wp_saveCurrentSession; [reflexivity|exact Hc]|].
      intros e sm' ->. cbn. repeat split; auto. discriminate.
    + wp_step. cbn. repeat split; auto.
      apply active_sessions_none in E. cbn. intros H. lia.
Qed.

Lemma wp_GetNextNav : forall sm,
  ready sm -> currentIndex sm + 1 < 2 ^ 63 ->
  wp GetNextNav
     (fun _ sm' => format sm' = format sm /\ navOrder sm' = navOrder sm
                   /\ countries sm' = countries sm /\ ready sm') sm.
Proof.
  intros sm (F & I & A & S) B. unfold GetNextNav.
  wp_step. wp_step. wp_step. wp_step.
  destruct (GetCurrentNavSession (db sm)) as [s|] eqn:E.
  - destruct (GetCurrentNavSession_active _ E) as [_ ->]. cbn [negb].
    wp_step. unfold ready. auto 10.
  - wp_step. wp_step. rewrite wrap_int_small by lia. wp_step.
    eapply wp_mono; [apply wp_buildNavResponseFromIndex; auto; cbn; lia|].
    intros r sm1 (-> & Hn & Hs). cbv beta. wp_step. wp_step.
    destruct r as [cur|].
    + destruct (Hs cur eq_refl) as (_ & _ & _ & _ & c & Hc).
      wp_step. eapply wp_mono; [eapply wp_saveCurrentSession; [reflexivity|exact Hc]|].
      intros e sm' ->. cbv beta. wp_step. cbn. unfold ready. cbn.
      repeat split; auto; try lia. discriminate.
    + wp_step. cbn. unfold ready. cbn. repeat split; auto; try lia.
      apply active_sessions_none in E. intros H. lia.
Qed.

Lemma mem_ok_trans : forall sm1 sm2 sm3,
  mem_ok sm1 sm2 -> mem_ok sm2 sm3 -> mem_ok sm1 sm3.
Proof.
  intros sm1 sm2 sm3 (F1 & I1 & N1 & S1) (F2 & I2 & N2 & S2).
  repeat split; auto. congruence.
Qed.

Lemma wp_adds0 : forall A (m : M A) Q sm,
  adds 0 m -> wp m Q sm ->
  wp m (fun a sm' => Q a sm'
                     /\ (active_sessions (db sm') <= active_sessions (db sm))%nat) sm.
Proof.
  intros A m Q sm H W. specialize (H sm). unfold wp in *.
  destruct (m sm) as [a sm'|d]; [|contradiction].
  destruct H as [H _]. cbn [final_db] in H. split; [exact W|lia].
Qed.

Lemma quiet_ready : forall A (m : M A) sm,
  ready sm -> adds 0 m ->
  wp m (fun _ sm' => mem_ok sm sm') sm ->
  wp m (fun _ sm' => ready sm') sm.
Proof.
  intros A m sm (F & I & N & S) H W.
  eapply wp_mono; [apply wp_adds0; [exact H|exact W]|].
  intros a sm' [(F' & I' & N' & S') L]. repeat split; auto; try lia.
  intros P. apply N', N. lia.
Qed.

Lemma wp_MarkComplete : forall sm,
  format sm <> None -> steps_ok sm ->
  (GetCurrentNavSession (db sm) <> None -> currentNav sm <> None) ->
  wp MarkComplete (fun _ sm' => mem_ok sm sm') sm.
Proof.
  intros sm F S N. unfold MarkComplete. wp_step. wp_step.
  destruct (GetCurrentNavSession (db sm)) as [s|] eqn:E.
  - wp_step. wp_step. cbn [fst snd UpdateNavSession]. wp_step. wp_step.
    cbn [currentNav set_db].
    destruct (currentNav sm) as [cur|] eqn:C; [|exfalso; apply N; congruence].
    repeat wp_step. repeat split; auto. discriminate.
  - wp_step. now apply mem_ok_refl.
Qed.

Lemma wp_SetPageNav : forall totalPages pages sm,
  format sm <> None -> steps_ok sm ->
  wp (SetPageNav totalPages pages) (fun _ sm' => mem_ok sm sm') sm.
Proof.
  intros totalPages pages sm F S. unfold SetPageNav. wp_step. wp_step.
  destruct (currentNav sm) as [cur|] eqn:C.
  - repeat wp_step. cbn [db set_currentNav].
    destruct (GetCurrentNavSession (db sm)) as [s|]; wp_step;
      repeat split; auto; discriminate.
  - wp_step. now apply mem_ok_refl.
Qed.

Lemma wp_MarkPageAsDone : forall page sm,
  format sm <> None -> steps_ok sm ->
  wp (MarkPageAsDone page) (fun _ sm' => mem_ok sm sm') sm.
Proof.
  intros page sm F S. unfold MarkPageAsDone. wp_step. wp_step.
  destruct (currentNav sm) as [cur|] eqn:C; [|wp_step; now apply mem_ok_refl].
  destruct (NavResponse_Page cur) as [|held|]; try (wp_step; now apply mem_ok_refl).
  destruct (existsb _ _); [wp_step; now apply mem_ok_refl|].
  destruct (append_then_sort (PageNav_Pages held) page) as [local seen].
  repeat wp_step. cbn [db set_currentNav].
  destruct (GetCurrentNavSession (db sm)) as [s|].
  - wp_step. wp_step. cbn [fst snd UpdateNavSession].
    match goal with |- wp (if ?c then _ else _) _ _ => destruct c end.
    + eapply wp_mono; [apply wp_MarkComplete; auto; discriminate|].
      intros e sm' M. eapply mem_ok_trans; [|exact M].
      repeat split; auto. discriminate.
    + wp_step. repeat split; auto. discriminate.
  - wp_step. repeat split; auto. discriminate.
Qed.

Lemma wp_check_refreshData : forall (op : DB -> error * DB) sm,
  format sm <> None -> steps_ok sm ->
  wp (check withDB op ;; refreshData) (fun _ sm' => mem_ok sm sm') sm.
Proof.
  intros op sm F S. wp_step. wp_step.
  destruct (op (db sm)) as [[msg|] d]; cbn [fst snd].
  - wp_step. now apply mem_ok_set_db.
  - eapply wp_mono; [apply wp_refreshData; exact F|].
    intros e sm' (_ & F' & I' & N' & S'). cbn in *.
    repeat split; auto; congruence.
Qed.

Lemma wp_AddSearchQueries : forall l sm,
  format sm <> None -> steps_ok sm ->
  wp (AddSearchQueries l) (fun _ sm' => mem_ok sm sm') sm.
Proof.
  intros l sm F S. unfold AddSearchQueries.
  destruct l as [|q l]; [wp_step; now apply mem_ok_refl|].
  wp_step. wp_step.
  destruct (AddQueries (q :: l) true (db sm)) as [[msg|] d]; cbn [fst snd].
  - wp_step. now apply mem_ok_set_db.
  - repeat wp_step. apply wp_generateNavOrder; [exact F|].
    intros nl Hs. wp_step. repeat split; auto.
Qed.

Lemma wp_ClearSearchQueries : forall sm,
  format sm <> None -> steps_ok sm ->
  wp ClearSearchQueries (fun _ sm' => mem_ok sm sm') sm.
Proof.
  intros sm F S. unfold ClearSearchQueries.
  wp_step. wp_step. cbn [fst snd ClearQueries].
  repeat wp_step. apply wp_generateNavOrder; [exact F|].
  intros nl Hs. wp_step. repeat split; auto.
Qed.

Lemma wp_Populate : forall sm,
  format sm <> None -> steps_ok sm ->
  wp Populate (fun _ sm' => mem_ok sm sm') sm.
Proof.
  intros sm F S. unfold Populate.
  repeat match goal with
         | |- wp (bind (withDB ?op) _) _ ?x =>
             wp_step; wp_step;
             let e := fresh "e" in
             let d := fresh "d" in
             destruct (op (db x)) as [[e|] d]; cbn [fst snd];
             [wp_step; repeat split; auto|]
         end.
  wp_step. apply wp_generateNavOrder; [exact F|].
  intros nl Hs. wp_step. repeat split; auto.
Qed.

Lemma wp_setDefault : forall ld sm,
  wp (setDefault ld)
     (fun _ sm' => sm' = set_db (db sm') sm
                   /\ (active_sessions (db sm') <= active_sessions (db sm))%nat) sm.
Proof.
  intros ld sm. apply wp_adds0; [apply adds_setDefault|].
  unfold setDefault. wp_step. wp_step.
  destruct (CountTotal (db sm) >? 0); [wp_step; now destruct sm|].
  repeat match goal with
         | |- wp (bind (withDB ?op) _) _ ?x =>
             wp_step; wp_step;
             let e := fresh "e" in
             let d := fresh "d" in
             destruct (op (db x)) as [[e|] d]; cbn [fst snd];
             [wp_step; reflexivity|]
         end.
  wp_step. reflexivity.
Qed.

Lemma wp_Init : forall options ld sm,
  wp (Init options ld) (fun e sm' => e = None \/ ready sm -> ready sm') sm.
Proof.
  intros options ld sm. unfold Init. repeat wp_step.
  eapply wp_mono; [apply wp_setDefault|].
  intros e sm1 [E L]. cbv beta. rewrite E. clear E.
  destruct e as [msg|].
  - wp_step. intros [H|(F & I & N & S)]; [discriminate|].
    repeat split; cbn; auto; try discriminate.
    intros P. apply N. cbn in L. lia.
  - repeat wp_step. cbn [db set_db set_countries set_states targetCountry].
    rewrite GetCities_after_GetStates. repeat wp_step.
    apply wp_generateNavOrder; [discriminate|].
    intros l S.
    eapply wp_mono; [apply wp_restoreOrStartSession|].
    + discriminate.
    + exact S.
    + cbn. lia.
    + intros e sm' (_ & _ & _ & R) _. exact R.
Qed.

Lemma wp_ResetNav : forall sm,
  format sm <> None -> steps_ok sm ->
  wp ResetNav (fun _ sm' => ready sm') sm.
Proof.
  intros sm F S. unfold ResetNav. wp_step. wp_step.
  cbn [fst snd ResetNavSessions]. repeat wp_step.
  eapply wp_mono; [apply wp_restoreOrStartSession|].
  - exact F.
  - exact S.
  - cbn. lia.
  - intros e sm' (_ & _ & _ & R). exact R.
Qed.

Lemma wp_SM_AddCities : forall l sm,
  format sm <> None -> steps_ok sm ->
  wp (SM_AddCities l) (fun _ sm' => mem_ok sm sm') sm.
Proof.
  intros l sm F S. unfold SM_AddCities.
  destruct l as [|c l]; [wp_step; now apply mem_ok_refl|].
  destruct (existsb _ _); [wp_step; now apply mem_ok_refl|].
  now apply wp_check_refreshData.
Qed.

Lemma wp_SM_AddStates : forall l sm,
  format sm <> None -> steps_ok sm ->
  wp (SM_AddStates l) (fun _ sm' => mem_ok sm sm') sm.
Proof.
  intros l sm F S. unfold SM_AddStates.
  destruct l as [|c l]; [wp_step; now apply mem_ok_refl|].
  destruct (existsb _ _); [wp_step; now apply mem_ok_refl|].
  now apply wp_check_refreshData.
Qed.

Lemma wp_SM_AddCountries : forall l sm,
  format sm <> None -> steps_ok sm ->
  wp (SM_AddCountries l) (fun _ sm' => mem_ok sm sm') sm.
Proof.
  intros l sm F S. unfold SM_AddCountries.
  destruct l as [|c l]; [wp_step; now apply mem_ok_refl|].
  destruct (existsb _ _); [wp_step; now apply mem_ok_refl|].
  now apply wp_check_refreshData.
Qed.

Lemma wp_discard : forall A (m : M A) (Q : StateManager -> Prop) sm,
  wp m (fun _ sm' => Q sm') sm -> wp (discard m) (fun _ sm' => Q sm') sm.
Proof.
  intros A m Q sm H. unfold discard. wp_step.
  eapply wp_mono; [exact H|]. intros a sm' H'. wp_step. exact H'.
Qed.

Lemma wp_run_op : forall op sm,
  ready sm -> currentIndex sm + 1 < 2 ^ 63 ->
  wp (run_op op) (fun _ sm' => ready sm') sm.
Proof.
  intros op sm R B.
  destruct (creates_sessions op) eqn:C.
  - destruct op; try discriminate C; cbn [run_op]; apply wp_discard.
    + eapply wp_mono; [apply wp_Init|]. intros e sm' H. apply H. now right.
    + eapply wp_mono; [apply wp_GetNextNav; assumption|].
      intros e sm' (_ & _ & _ & H). exact H.
    + destruct R as (F & _ & _ & S). now apply wp_ResetNav.
  - pose proof (adds_run_op op C) as A.
    apply quiet_ready; [exact R|exact A|].
    destruct R as (F & I & N & S).
    destruct op; try discriminate C; cbn [run_op]; apply wp_discard.
    + unfold GetNav. repeat wp_step. now apply mem_ok_refl.
    + unfold GetCurrentNav. repeat wp_step. now apply mem_ok_refl.
    + now apply wp_SetPageNav.
    + now apply wp_MarkPageAsDone.
    + apply wp_MarkComplete; auto. intros H. apply N.
      destruct (active_sessions (db sm)) eqn:Z; [|lia].
      apply active_sessions_none in Z. contradiction.
    + now apply wp_AddSearchQueries.
    + unfold AddSearchQuery. destruct (_ =? _)%string.
      * wp_step. now apply mem_ok_refl.
      * now apply wp_AddSearchQueries.
    + now apply wp_ClearSearchQueries.
    + now apply wp_SM_AddCities.
    + now apply wp_SM_AddStates.
    + now apply wp_SM_AddCountries.
    + now apply wp_Populate.
    + unfold SM_ResetDatabase. now apply wp_check_refreshData.
Qed.

(** X7.  [Init] always returns.  From any manager, whatever the store and
    the options, [Init] returns (it does not panic); when the error it
    returns is nil the manager is ready: its format is set, its cursor is
    not negative, it holds a response if the store has an active session,
    and every step of its sequence names a loaded country. *)
Theorem Init_returns_and_makes_ready :
  forall options ld sm,
    exists e sm',
      Init options ld sm = Ret e sm' /\ (e = None -> ready sm').
Proof.
  intros options ld sm.
  destruct (proj1 (wp_returns _ _ _) (wp_Init options ld sm)) as (e & sm' & E & H).
  exists e, sm'. split; [exact E|]. intros ->. apply H. now left.
Qed.

(** X8.  A ready manager does not panic.  On a ready manager whose cursor
    is below the largest int, every public operation, with any arguments,
    returns, and leaves the manager ready. *)
Theorem ready_manager_never_panics :
  forall op sm,
    ready sm ->
    currentIndex sm + 1 < 2 ^ 63 ->
    exists sm', run_op op sm = Ret tt sm' /\ ready sm'.
Proof.
  intros op sm R B.
  destruct (proj1 (wp_returns _ _ _) (wp_run_op op R B)) as ([] & sm' & E & H).
  eauto.
Qed.

(** *** Walking the sequence *)

Lemma wp_GetNextNav_advance : forall sm,
  ready sm -> GetCurrentNavSession (db sm) = None ->
  currentIndex sm + 1 < 2 ^ 63 ->
  wp GetNextNav
     (fun res sm' =>
        let i := currentIndex sm + 1 in
        currentIndex sm' = i /\ navOrder sm' = navOrder sm
        /\ ready sm' /\ currentNav sm' = fst res
        /\ (fst res = None <-> navOrder_len sm <= i)
        /\ forall r, fst res = Some r ->
             nth_error (navOrder sm) (Z.to_nat i) = Some (NavResponse_Nav r)
             /\ NavResponse_HasNext r = (i <? navOrder_len sm - 1)
             /\ NavResponse_Page r = Page_nil
             /\ format sm = Some (NavResponse_Format r)) sm.
Proof.
  intros sm (F & I & A & S) E B. unfold GetNextNav.
  wp_step. wp_step. wp_step. wp_step. rewrite E.
  wp_step. wp_step. rewrite wrap_int_small by lia. wp_step.
  eapply wp_mono; [apply wp_buildNavResponseFromIndex; auto; cbn; lia|].
  intros r sm1 (-> & Hn & Hs). cbv beta. wp_step. wp_step.
  change (navOrder_len (set_currentIndex (currentIndex sm + 1) sm))
    with (navOrder_len sm) in *.
  change (navOrder (set_currentIndex (currentIndex sm + 1) sm))
    with (navOrder sm) in *.
  change (format (set_currentIndex (currentIndex sm + 1) sm))
    with (format sm) in *.
  destruct r as [cur|].
  - destruct (Hs cur eq_refl) as (H1 & H2 & H3 & H4 & c & Hc).
    wp_step. eapply wp_mono; [eapply wp_saveCurrentSession; [reflexivity|exact Hc]|].
    intros e sm' ->. cbv beta. wp_step. cbn [fst]. cbn.
    split; [reflexivity|]. split; [reflexivity|]. split.
    { unfold ready. cbn. repeat split; auto; try lia. discriminate. }
    split; [reflexivity|]. split; [exact Hn|].
    intros r Hr. inversion Hr; subst r. auto.
  - wp_step. cbn [fst]. cbn.
    split; [reflexivity|]. split; [reflexivity|]. split.
    { unfold ready. cbn. repeat split; auto; try lia.
      apply active_sessions_none in E. intros H. lia. }
    split; [reflexivity|]. split; [exact Hn|]. discriminate.
Qed.

(** X9.  An advance returns the next step.  On a ready manager with no
    active session whose cursor is not on the last step, [GetNextNav]
    returns a response for the step right after the cursor, moves the
    cursor onto it and holds the response as the current one; the response
    has the manager's format, no pagination, and [HasNext] set exactly when
    a further step exists. *)
Theorem GetNextNav_returns_the_next_step :
  forall sm,
    ready sm ->
    GetCurrentNavSession (db sm) = None ->
    currentIndex sm + 1 < navOrder_len sm ->
    navOrder_len sm < 2 ^ 63 ->
    exists r e sm',
      GetNextNav sm = Ret (Some r, e) sm'
      /\ nth_error (navOrder sm) (Z.to_nat (currentIndex sm + 1))
         = Some (NavResponse_Nav r)
      /\ currentIndex sm' = currentIndex sm + 1
      /\ currentNav sm' = Some r
      /\ navOrder sm' = navOrder sm
      /\ format sm = Some (NavResponse_Format r)
      /\ NavResponse_Page r = Page_nil
      /\ (NavResponse_HasNext r = true <-> currentIndex sm + 2 < navOrder_len sm).
Proof.
  intros sm R E L B.
  assert (B' : currentIndex sm + 1 < 2 ^ 63) by lia.
  destruct (proj1 (wp_returns _ _ _) (wp_GetNextNav_advance R E B'))
    as ([r e] & sm' & G & H).
  cbv zeta in H. cbn [fst] in H.
  destruct H as (I & N & _ & C & Hn & Hs).
  destruct r as [r|]; [|exfalso; apply proj1 in Hn; specialize (Hn eq_refl); lia].
  destruct (Hs r eq_refl) as (H1 & H2 & H3 & H4).
  exists r, e, sm'. repeat split; auto.
  - intros T. rewrite H2 in T. apply Z.ltb_lt in T. lia.
  - intros T. rewrite H2. apply Z.ltb_lt. lia.
Qed.

Lemma run_ops_app : forall ops1 ops2 w,
  run_ops (ops1 ++ ops2) w = run_ops ops2 (run_ops ops1 w).
Proof.
  induction ops1 as [|op ops1 IH]; intros ops2 w; [reflexivity|].
  cbn [app run_ops]. destruct w as [d|sm].
  - clear. induction ops2; reflexivity.
  - apply IH.
Qed.

Lemma wp_round : forall sm,
  ready sm -> active_sessions (db sm) = 0%nat ->
  currentIndex sm + 1 < navOrder_len sm -> navOrder_len sm < 2 ^ 63 ->
  exists sm',
    run_ops [Op_GetNextNav; Op_MarkComplete] (Running sm) = Running sm'
    /\ ready sm' /\ active_sessions (db sm') = 0%nat
    /\ currentIndex sm' = currentIndex sm + 1
    /\ navOrder sm' = navOrder sm
    /\ option_map NavResponse_Nav (currentNav sm')
       = nth_error (navOrder sm) (Z.to_nat (currentIndex sm + 1)).
Proof.
  intros sm R A L B.
  assert (E : GetCurrentNavSession (db sm) = None) by now apply active_sessions_none.
  assert (B' : currentIndex sm + 1 < 2 ^ 63) by lia.
  destruct (proj1 (wp_returns _ _ _) (wp_GetNextNav_advance R E B'))
    as ([r e] & sm1 & G & H).
  cbv zeta in H. cbn [fst] in H.
  destruct H as (I & N & R1 & C & Hn & Hs).
  destruct r as [r|]; [|exfalso; apply proj1 in Hn; specialize (Hn eq_refl); lia].
  destruct (Hs r eq_refl) as (H1 & _).
  assert (A1 : (active_sessions (db sm1) <= 1)%nat).
  { pose proof (bounded_GetNextNav sm) as Bd. rewrite G in Bd.
    cbn [final_db] in Bd. lia. }
  assert (W : wp MarkComplete (fun _ sm' => mem_ok sm1 sm') sm1).
  { destruct R1 as (F1 & _ & _ & S1). apply wp_MarkComplete; auto.
    intros _. rewrite C. discriminate. }
  apply wp_returns in W. destruct W as (e2 & sm2 & M & (F2 & I2 & N2 & S2)).
  destruct (MarkComplete_clears _ A1 M) as (_ & A2 & _ & Nv).
  exists sm2. split.
  { cbn [run_ops run_op]. unfold discard, bind. rewrite G. cbn [ret world_of].
    rewrite M. reflexivity. }
  split.
  { destruct R as (_ & I0 & _ & _).
    split; [exact F2|]. split; [lia|]. split; [|exact S2].
    intros P. lia. }
  split; [exact A2|]. split; [congruence|]. split; [congruence|].
  rewrite H1.
  assert (Cn : option_map NavResponse_Nav (currentNav sm2) = Some (NavResponse_Nav r)).
  { unfold MarkComplete in M. unfold bind at 1 in M. unfold queryDB at 1 in M.
    destruct (GetCurrentNavSession (db sm1)) as [s|].
    - unfold bind at 1 in M. unfold withDB at 1 in M.
      cbn [fst snd UpdateNavSession] in M.
      unfold bind at 1 in M. unfold get_sm at 1 in M.
      cbn [currentNav set_db] in M. rewrite C in M.
      unfold bind, modify, ret in M. inversion M. reflexivity.
    - inversion M; subst. rewrite C. reflexivity. }
  exact Cn.
Qed.

(** X10.  Walking the sequence.  From a ready manager with no active
    session, [k] rounds of [GetNextNav] followed by [MarkComplete] that
    stay inside the sequence all return; they leave the cursor [k] steps
    further, no active session, the sequence as it was, and as current
    response the one for the step under the cursor: the walk visits the
    steps one by one, in order. *)
Theorem walk_visits_steps_in_order :
  forall k sm,
    ready sm ->
    active_sessions (db sm) = 0%nat ->
    currentIndex sm + Z.of_nat (S k) < navOrder_len sm ->
    navOrder_len sm < 2 ^ 63 ->
    exists sm',
      run_ops (List.concat (repeat [Op_GetNextNav; Op_MarkComplete] (S k))) (Running sm)
      = Running sm'
      /\ ready sm'
      /\ active_sessions (db sm') = 0%nat
      /\ currentIndex sm' = currentIndex sm + Z.of_nat (S k)
      /\ navOrder sm' = navOrder sm
      /\ option_map NavResponse_Nav (currentNav sm')
         = nth_error (navOrder sm) (Z.to_nat (currentIndex sm + Z.of_nat (S k))).
Proof.
  induction k as [|k IH]; intros sm R A L B.
  - destruct (wp_round R A) as (sm' & H); [lia|lia|].
    exists sm'. cbn [repeat List.concat app]. exact H.
  - destruct (wp_round R A) as (sm1 & H1 & R1 & A1 & I1 & N1 & _); [lia|lia|].
    destruct (IH sm1 R1 A1) as (sm' & H2 & R2 & A2 & I2 & N2 & C2).
    + unfold navOrder_len in *. rewrite N1, I1. lia.
    + unfold navOrder_len in *. rewrite N1. lia.
    + exists sm'.
      change (List.concat (repeat [Op_GetNextNav; Op_MarkComplete] (S (S k))))
        with ([Op_GetNextNav; Op_MarkComplete]
                ++ List.concat (repeat [Op_GetNextNav; Op_MarkComplete] (S k))).
      rewrite run_ops_app, H1. split; [exact H2|].
      split; [exact R2|]. split; [exact A2|].
      assert (Ei : currentIndex sm1 + Z.of_nat (S k)
                   = currentIndex sm + Z.of_nat (S (S k))) by lia.
      split; [lia|]. split; [congruence|].
      rewrite C2, N1, Ei. reflexivity.
Qed.

(* ===================================================================== *)
(** ** What every operation keeps of the store

    [keeps I m]: started on a store that satisfies [I], the method [m]
    ends, by return or by panic, with a store that satisfies [I].  The
    hypotheses of the section are the statements of [db.go]; the lemmas
    follow the methods of the manager down to them. *)
(* ===================================================================== *)

(** The operations of a walk: they read and move the cursor and write
    sessions and used flags, and add or delete no entity. *)
Definition walk_op (op : Op) : bool :=
  match op with
  | Op_GetNav | Op_GetNextNav | Op_GetCurrentNav | Op_SetPageNav _ _
  | Op_MarkPageAsDone _ | Op_MarkComplete | Op_ResetNav => true
  | _ => false
  end.

Section Keeps.

Variable I : DB -> Prop.

Definition keeps {A} (m : M A) : Prop :=
  forall sm, I (db sm) -> I (final_db (m sm)).

Lemma keeps_ret : forall A (a : A), keeps (ret a).
Proof. intros A a sm H. exact H. Qed.

Lemma keeps_panic : forall A, keeps (@panic A).
Proof. intros A sm H. exact H. Qed.

Lemma keeps_get_sm : keeps get_sm.
Proof. intros sm H. exact H. Qed.

Lemma keeps_queryDB : forall A (q : DB -> A), keeps (queryDB q).
Proof. intros A q sm H. exact H. Qed.

Lemma keeps_modify : forall f, (forall sm, db (f sm) = db sm) -> keeps (modify f).
Proof. intros f E sm H. cbn [modify final_db]. rewrite E. exact H. Qed.

Lemma keeps_withDB : forall A (op : DB -> A * DB),
  (forall d, I d -> I (snd (op d))) -> keeps (withDB op).
Proof. intros A op L sm H. apply L, H. Qed.

Lemma keeps_bind : forall A B (m : M A) (k : A -> M B),
  keeps m -> (forall a, keeps (k a)) -> keeps (bind m k).
Proof.
  intros A B m k Hm Hk sm H. unfold bind. specialize (Hm sm H).
  destruct (m sm) as [a sm'|d]; [apply Hk, Hm|exact Hm].
Qed.

Lemma keeps_generateNavOrder : keeps generateNavOrder.
Proof. intros sm H. rewrite generateNavOrder_db. exact H. Qed.

Lemma keeps_buildNavResponseFromIndex : forall i, keeps (buildNavResponseFromIndex i).
Proof.
  intros i sm H.
  destruct (buildNavResponseFromIndex_same i sm) as [E|[r E]]; rewrite E; exact H.
Qed.

Hypothesis keeps_AddCountries : forall l ext d, I d -> I (snd (AddCountries l ext d)).
Hypothesis keeps_AddStates : forall l ext d, I d -> I (snd (AddStates l ext d)).
Hypothesis keeps_AddCities : forall l ext d, I d -> I (snd (AddCities l ext d)).
Hypothesis keeps_AddZips : forall l ext d, I d -> I (snd (AddZips l ext d)).
Hypothesis keeps_AddQueries : forall l ext d, I d -> I (snd (AddQueries l ext d)).
Hypothesis keeps_ClearQueries : forall d, I d -> I (snd (ClearQueries d)).
Hypothesis keeps_ResetNavSessions : forall d, I d -> I (snd (ResetNavSessions d)).
Hypothesis keeps_DB_ResetDatabase : forall d, I d -> I (snd (DB_ResetDatabase d)).
Hypothesis keeps_SaveNavSession : forall s d,
  NavSession_Completed s = false -> I d -> I (snd (SaveNavSession s d)).
Hypothesis keeps_UpdateNavSession : forall d s updates,
  GetCurrentNavSession d = Some s ->
  I d -> I (snd (UpdateNavSession (NavSession_ID s) updates d)).
Hypothesis keeps_markEntitiesAsUsed_updates : forall country query zip city state d,
  I d -> I (markEntitiesAsUsed_updates country query zip city state d).

Ltac keeps_step :=
  first
    [ apply keeps_ret | apply keeps_panic | apply keeps_get_sm | apply keeps_queryDB
    | apply keeps_modify; intros; reflexivity
    | apply keeps_generateNavOrder | apply keeps_buildNavResponseFromIndex
    | apply keeps_withDB; solve [auto]
    | apply keeps_bind; [|intros]
    | match goal with
      | |- keeps (match ?x with _ => _ end) => destruct x
      | |- keeps (if ?x then _ else _) => destruct x
      end ].

Lemma keeps_markEntitiesAsUsed : forall country query zip city state,
  keeps (markEntitiesAsUsed country query zip city state).
Proof.
  intros. unfold markEntitiesAsUsed. apply keeps_withDB. intros d H.
  now apply keeps_markEntitiesAsUsed_updates.
Qed.

Lemma keeps_saveCurrentSession : keeps saveCurrentSession.
Proof.
  unfold saveCurrentSession. apply keeps_bind; [apply keeps_get_sm|]. intros sm.
  destruct (currentNav sm) as [cur|]; [|apply keeps_ret].
  destruct (findCountry sm (NavResponse_Country cur)); [|apply keeps_panic].
  apply keeps_bind.
  - apply keeps_withDB. intros d H. now apply keeps_SaveNavSession.
  - intros [msg|]; [apply keeps_ret|apply keeps_markEntitiesAsUsed].
Qed.

Lemma keeps_restoreOrStartSession : keeps restoreOrStartSession.
Proof.
  unfold restoreOrStartSession.
  repeat first [apply keeps_saveCurrentSession | keeps_step].
Qed.

Lemma keeps_GetNextNav : keeps GetNextNav.
Proof.
  unfold GetNextNav.
  repeat first [apply keeps_saveCurrentSession | keeps_step].
Qed.

(** The three methods that update a session look up the active one first
    and update the row with its id. *)
Lemma keeps_update_then : forall B sm s updates (k : error -> M B),
  GetCurrentNavSession (db sm) = Some s -> I (db sm) ->
  (forall e, keeps (k e)) ->
  I (final_db (bind (withDB (UpdateNavSession (NavSession_ID s) updates)) k sm)).
Proof.
  intros B sm s updates k E H Hk. unfold bind, withDB.
  apply Hk. cbn [db set_db]. now apply keeps_UpdateNavSession.
Qed.

Lemma keeps_MarkComplete : keeps MarkComplete.
Proof.
  intros sm H. unfold MarkComplete. unfold bind at 1. unfold queryDB at 1.
  destruct (GetCurrentNavSession (db sm)) as [s|] eqn:E; [|exact H].
  apply keeps_update_then; [exact E|exact H|].
  intros e. repeat keeps_step.
Qed.

Lemma keeps_SetPageNav : forall totalPages pages, keeps (SetPageNav totalPages pages).
Proof.
  intros totalPages pages sm H. unfold SetPageNav.
  unfold bind at 1. unfold get_sm at 1.
  destruct (currentNav sm) as [cur|]; [|exact H].
  unfold bind at 1. unfold modify at 1.
  unfold bind at 1. unfold queryDB at 1. cbn [db set_currentNav].
  destruct (GetCurrentNavSession (db sm)) as [s|] eqn:E; [|exact H].
  cbn [withDB final_db db set_db]. now apply keeps_UpdateNavSession.
Qed.

Lemma keeps_MarkPageAsDone : forall page, keeps (MarkPageAsDone page).
Proof.
  intros page sm H. unfold MarkPageAsDone.
  unfold bind at 1. unfold get_sm at 1.
  destruct (currentNav sm) as [cur|]; [|exact H].
  destruct (NavResponse_Page cur) as [|held|]; try exact H.
  destruct (existsb _ _); [exact H|].
  destruct (append_then_sort (PageNav_Pages held) page) as [local seen].
  unfold bind at 1. unfold modify at 1.
  unfold bind at 1. unfold queryDB at 1. cbn [db set_currentNav].
  destruct (GetCurrentNavSession (db sm)) as [s|] eqn:E; [|exact H].
  apply keeps_update_then; [exact E|exact H|].
  intros e. repeat first [apply keeps_MarkComplete | keeps_step].
Qed.

Lemma keeps_refreshData : keeps refreshData.
Proof. unfold refreshData. repeat keeps_step. Qed.

Lemma keeps_AddSearchQueries : forall l, keeps (AddSearchQueries l).
Proof. intros. unfold AddSearchQueries. repeat keeps_step. Qed.

Lemma keeps_AddSearchQuery : forall q, keeps (AddSearchQuery q).
Proof.
  intros. unfold AddSearchQuery. destruct (_ =? _)%string;
    [apply keeps_ret|apply keeps_AddSearchQueries].
Qed.

Lemma keeps_ClearSearchQueries : keeps ClearSearchQueries.
Proof. unfold ClearSearchQueries. repeat keeps_step. Qed.

Lemma keeps_ResetNav : keeps ResetNav.
Proof.
  unfold ResetNav. repeat first [apply keeps_restoreOrStartSession | keeps_step].
Qed.

Lemma keeps_SM_AddCities : forall l, keeps (SM_AddCities l).
Proof. intros. unfold SM_AddCities. repeat first [apply keeps_refreshData | keeps_step]. Qed.

Lemma keeps_SM_AddStates : forall l, keeps (SM_AddStates l).
Proof. intros. unfold SM_AddStates. repeat first [apply keeps_refreshData | keeps_step]. Qed.

Lemma keeps_SM_AddCountries : forall l, keeps (SM_AddCountries l).
Proof. intros. unfold SM_AddCountries. repeat first [apply keeps_refreshData | keeps_step]. Qed.

Lemma keeps_Populate : keeps Populate.
Proof. unfold Populate. repeat keeps_step. Qed.

Lemma keeps_SM_ResetDatabase : keeps SM_ResetDatabase.
Proof. unfold SM_ResetDatabase. repeat first [apply keeps_refreshData | keeps_step]. Qed.

Lemma keeps_setDefault : forall ld, keeps (setDefault ld).
Proof. intros. unfold setDefault. repeat keeps_step. Qed.

Lemma keeps_Init : forall options ld, keeps (Init options ld).
Proof.
  intros. unfold Init.
  repeat first [apply keeps_setDefault | apply keeps_restoreOrStartSession | keeps_step].
Qed.

Lemma keeps_discard : forall A (m : M A), keeps m -> keeps (discard m).
Proof.
  intros A m H. unfold discard. apply keeps_bind; [exact H|]. intros a. apply keeps_ret.
Qed.

Lemma keeps_run_op : forall op, keeps (run_op op).
Proof.
  intros op. destruct op; cbn [run_op]; apply keeps_discard;
    first [ apply keeps_Init | apply keeps_GetNextNav | apply keeps_SetPageNav
          | apply keeps_MarkPageAsDone | apply keeps_MarkComplete
          | apply keeps_AddSearchQueries | apply keeps_AddSearchQuery
          | apply keeps_ClearSearchQueries | apply keeps_ResetNav
          | apply keeps_SM_AddCities | apply keeps_SM_AddStates
          | apply keeps_SM_AddCountries | apply keeps_Populate
          | apply keeps_SM_ResetDatabase
          | unfold GetNav, GetCurrentNav; repeat keeps_step ].
Qed.

(** The operations that do not reach [ResetDatabase] or [ClearQueries],
    and those that do not reach [ResetNavSessions] either. *)
Lemma keeps_run_op_without_delete_of_entities : forall op,
  op <> Op_ResetDatabase -> op <> Op_ClearSearchQueries -> keeps (run_op op).
Proof.
  intros op H1 H2. destruct op; try congruence; cbn [run_op]; apply keeps_discard;
    first [ apply keeps_Init | apply keeps_GetNextNav | apply keeps_SetPageNav
          | apply keeps_MarkPageAsDone | apply keeps_MarkComplete
          | apply keeps_AddSearchQueries | apply keeps_AddSearchQuery
          | apply keeps_ResetNav
          | apply keeps_SM_AddCities | apply keeps_SM_AddStates
          | apply keeps_SM_AddCountries | apply keeps_Populate
          | unfold GetNav, GetCurrentNav; repeat keeps_step ].
Qed.

Lemma keeps_run_op_without_delete : forall op,
  op <> Op_ResetDatabase -> op <> Op_ClearSearchQueries -> op <> Op_ResetNav ->
  keeps (run_op op).
Proof.
  intros op H1 H2 H3. destruct op; try congruence; cbn [run_op]; apply keeps_discard;
    first [ apply keeps_Init | apply keeps_GetNextNav | apply keeps_SetPageNav
          | apply keeps_MarkPageAsDone | apply keeps_MarkComplete
          | apply keeps_AddSearchQueries | apply keeps_AddSearchQuery
          | apply keeps_SM_AddCities | apply keeps_SM_AddStates
          | apply keeps_SM_AddCountries | apply keeps_Populate
          | unfold GetNav, GetCurrentNav; repeat keeps_step ].
Qed.

Lemma keeps_run_op_walk : forall op, walk_op op = true -> keeps (run_op op).
Proof.
  intros op H. destruct op; try discriminate H; cbn [run_op]; apply keeps_discard;
    first [ apply keeps_GetNextNav | apply keeps_SetPageNav
          | apply keeps_MarkPageAsDone | apply keeps_MarkComplete
          | apply keeps_ResetNav
          | unfold GetNav, GetCurrentNav; repeat keeps_step ].
Qed.

Lemma keeps_step_relation : forall w w',
  step w w' -> I (world_db w) -> I (world_db w').
Proof.
  intros w w' H Hw. destruct H; cbn [world_db] in *.
  - exact Hw.
  - rewrite world_db_world_of. now apply keeps_run_op.
  - exact Hw.
Qed.

Lemma keeps_reachable : forall w,
  I empty_DB -> reachable w -> I (world_db w).
Proof.
  intros w H0 R. induction R as [|w w' R IH S]; [exact H0|].
  eapply keeps_step_relation; eauto.
Qed.

End Keeps.

(** *** Bulk adds, statement by statement *)

Lemma exec_each_keeps : forall (I : DB -> Prop) R (stmt : R -> DB -> option DB),
  (forall r d d', stmt r d = Some d' -> I d -> I d') ->
  forall rows d d', exec_each stmt rows d = Some d' -> I d -> I d'.
Proof.
  intros I R stmt H rows. induction rows as [|r rows IH]; simpl; intros d d' E Hd.
  - inversion E; subst. exact Hd.
  - destruct (stmt r d) as [d1|] eqn:E1; [|discriminate].
    eapply IH; [exact E|]. eapply H; eauto.
Qed.

Lemma in_transaction_keeps : forall (I : DB -> Prop) body d,
  (forall d', body d = Some d' -> I d -> I d') ->
  I d -> I (snd (in_transaction body d)).
Proof.
  intros I body d H Hd. unfold in_transaction.
  destruct (body d) as [d'|] eqn:E; cbn [snd]; [now apply H|exact Hd].
Qed.

Section Inserts.

Variable I : DB -> Prop.

Hypothesis keeps_insert_country : forall ext r d d',
  insert_country ext r d = Some d' -> I d -> I d'.
Hypothesis keeps_insert_state : forall ext r d d',
  insert_state ext r d = Some d' -> I d -> I d'.
Hypothesis keeps_insert_city : forall ext r d d',
  insert_city ext r d = Some d' -> I d -> I d'.
Hypothesis keeps_insert_zip : forall ext r d d',
  insert_zip ext r d = Some d' -> I d -> I d'.
Hypothesis keeps_insert_query : forall ext r d d',
  insert_query ext r d = Some d' -> I d -> I d'.

Lemma AddCountries_keeps : forall l ext d, I d -> I (snd (AddCountries l ext d)).
Proof.
  intros l ext d H. unfold AddCountries. destruct (existsb _ _); [exact H|].
  apply in_transaction_keeps; [|exact H]. intros d'.
  apply exec_each_keeps. apply keeps_insert_country.
Qed.

Lemma AddStates_keeps : forall l ext d, I d -> I (snd (AddStates l ext d)).
Proof.
  intros l ext d H. unfold AddStates. destruct (existsb _ _); [exact H|].
  apply in_transaction_keeps; [|exact H]. intros d'.
  apply exec_each_keeps. apply keeps_insert_state.
Qed.

Lemma AddCities_keeps : forall l ext d, I d -> I (snd (AddCities l ext d)).
Proof.
  intros l ext d H. unfold AddCities. destruct (existsb _ _); [exact H|].
  apply in_transaction_keeps; [|exact H]. intros d'.
  apply exec_each_keeps. apply keeps_insert_city.
Qed.

Lemma AddZips_keeps : forall l ext d, I d -> I (snd (AddZips l ext d)).
Proof.
  intros l ext d H. unfold AddZips. destruct (existsb _ _); [exact H|].
  apply in_transaction_keeps; [|exact H]. intros d'.
  apply exec_each_keeps. apply keeps_insert_zip.
Qed.

Lemma AddQueries_keeps : forall l ext d, I d -> I (snd (AddQueries l ext d)).
Proof.
  intros l ext d H. unfold AddQueries. destruct (existsb _ _); [exact H|].
  apply in_transaction_keeps; [|exact H]. intros d'.
  apply exec_each_keeps. apply keeps_insert_query.
Qed.

End Inserts.

(** *** Rows stay in place

    [extends d d']: each entity table of [d'] is the one of [d] with rows
    appended, and the sessions are the same. *)
Definition extends (d d' : DB) : Prop :=
  (exists n, tbl_countries d' = tbl_countries d ++ n)
  /\ (exists n, tbl_states d' = tbl_states d ++ n)
  /\ (exists n, tbl_cities d' = tbl_cities d ++ n)
  /\ (exists n, tbl_zips d' = tbl_zips d ++ n)
  /\ (exists n, tbl_queries d' = tbl_queries d ++ n)
  /\ tbl_nav_sessions d' = tbl_nav_sessions d.

Lemma extends_refl : forall d, extends d d.
Proof.
  intros d. unfold extends.
  repeat split; try (exists []; now rewrite app_nil_r).
Qed.

Lemma extends_trans : forall d1 d2 d3, extends d1 d2 -> extends d2 d3 -> extends d1 d3.
Proof.
  intros d1 d2 d3 (C1 & S1 & Ci1 & Z1 & Q1 & N1) (C2 & S2 & Ci2 & Z2 & Q2 & N2).
  unfold extends.
  repeat match goal with
         | H : exists n, _ |- _ => destruct H as [? H]
         end.
  split; [|split; [|split; [|split; [|split]]]];
    try (eexists; etransitivity; [eassumption|];
         match goal with
         | H : ?t d2 = _ |- ?t d2 ++ _ = _ => rewrite H, <- app_assoc; reflexivity
         end).
  congruence.
Qed.

Ltac extends_by_cases H :=
  insert_cases H;
  [apply extends_refl
  |unfold extends; cbn;
   repeat split; try (exists []; now rewrite app_nil_r); eexists; reflexivity].

Lemma insert_country_extends : forall ext r d d',
  insert_country ext r d = Some d' -> extends d d'.
Proof. intros ext r d d' H. unfold insert_country in H. extends_by_cases H. Qed.

Lemma insert_state_extends : forall ext r d d',
  insert_state ext r d = Some d' -> extends d d'.
Proof. intros ext r d d' H. unfold insert_state in H. extends_by_cases H. Qed.

Lemma insert_city_extends : forall ext r d d',
  insert_city ext r d = Some d' -> extends d d'.
Proof. intros ext r d d' H. unfold insert_city in H. extends_by_cases H. Qed.

Lemma insert_zip_extends : forall ext r d d',
  insert_zip ext r d = Some d' -> extends d d'.
Proof. intros ext r d d' H. unfold insert_zip in H. extends_by_cases H. Qed.

Lemma insert_query_extends : forall ext r d d',
  insert_query ext r d = Some d' -> extends d d'.
Proof. intros ext r d d' H. unfold insert_query in H. extends_by_cases H. Qed.

Lemma AddCountries_extends : forall l ext d, extends d (snd (AddCountries l ext d)).
Proof.
  intros l ext d. apply (@AddCountries_keeps (extends d)); [|apply extends_refl].
  intros e r d1 d2 H E. eapply extends_trans; [exact E|].
  eapply insert_country_extends; eauto.
Qed.

Lemma AddStates_extends : forall l ext d, extends d (snd (AddStates l ext d)).
Proof.
  intros l ext d. apply (@AddStates_keeps (extends d)); [|apply extends_refl].
  intros e r d1 d2 H E. eapply extends_trans; [exact E|].
  eapply insert_state_extends; eauto.
Qed.

Lemma AddCities_extends : forall l ext d, extends d (snd (AddCities l ext d)).
Proof.
  intros l ext d. apply (@AddCities_keeps (extends d)); [|apply extends_refl].
  intros e r d1 d2 H E. eapply extends_trans; [exact E|].
  eapply insert_city_extends; eauto.
Qed.

Lemma AddZips_extends : forall l ext d, extends d (snd (AddZips l ext d)).
Proof.
  intros l ext d. apply (@AddZips_keeps (extends d)); [|apply extends_refl].
  intros e r d1 d2 H E. eapply extends_trans; [exact E|].
  eapply insert_zip_extends; eauto.
Qed.

Lemma AddQueries_extends : forall l ext d, extends d (snd (AddQueries l ext d)).
Proof.
  intros l ext d. apply (@AddQueries_keeps (extends d)); [|apply extends_refl].
  intros e r d1 d2 H E. eapply extends_trans; [exact E|].
  eapply insert_query_extends; eauto.
Qed.

Lemma extends_keeps_used : forall d d', extends d d' -> keeps_used d d'.
Proof.
  intros d d' ([n1 C] & [n2 S] & [n3 Ci] & [n4 Z] & [n5 Q] & _).
  unfold keeps_used. rewrite C, S, Ci, Z, Q.
  repeat split; intros x H _; apply in_or_app; now left.
Qed.

Lemma keeps_used_trans : forall d1 d2 d3,
  keeps_used d1 d2 -> keeps_used d2 d3 -> keeps_used d1 d3.
Proof.
  intros d1 d2 d3 (C1 & S1 & Ci1 & Z1 & Q1) (C2 & S2 & Ci2 & Z2 & Q2).
  unfold keeps_used. repeat split; auto.
Qed.

Lemma final_db_discard : forall A (m : M A) sm,
  final_db (discard m sm) = final_db (m sm).
Proof. intros A m sm. unfold discard, bind. destruct (m sm); reflexivity. Qed.

Lemma ClearSearchQueries_db : forall sm,
  final_db (ClearSearchQueries sm) = snd (ClearQueries (db sm)).
Proof.
  intros sm. unfold ClearSearchQueries, bind, withDB, modify.
  cbn [fst snd ClearQueries].
  match goal with |- context [generateNavOrder ?x] =>
    pose proof (generateNavOrder_db x) as G;
    destruct (generateNavOrder x) as [u y|dd] end; exact G.
Qed.

(** Every used row but the queries that were added through the manager. *)
Definition keeps_used_seeded (d d' : DB) : Prop :=
  (forall c, In c (tbl_countries d) -> Country_Used c = true -> In c (tbl_countries d'))
  /\ (forall s, In s (tbl_states d) -> State_Used s = true -> In s (tbl_states d'))
  /\ (forall c, In c (tbl_cities d) -> City_Used c = true -> In c (tbl_cities d'))
  /\ (forall z, In z (tbl_zips d) -> Zip_Used z = true -> In z (tbl_zips d'))
  /\ (forall q, In q (tbl_queries d) -> Query_Used q = true ->
                Query_External q = false -> In q (tbl_queries d')).

Lemma keeps_used_run_op : forall op sm,
  op <> Op_ResetDatabase -> op <> Op_ClearSearchQueries ->
  keeps_used (db sm) (final_db (run_op op sm)).
Proof.
  intros op sm H1 H2.
  apply (@keeps_run_op_without_delete_of_entities (keeps_used (db sm)));
    try assumption.
  - intros l ext d K. eapply keeps_used_trans; [exact K|].
    apply extends_keeps_used, AddCountries_extends.
  - intros l ext d K. eapply keeps_used_trans; [exact K|].
    apply extends_keeps_used, AddStates_extends.
  - intros l ext d K. eapply keeps_used_trans; [exact K|].
    apply extends_keeps_used, AddCities_extends.
  - intros l ext d K. eapply keeps_used_trans; [exact K|].
    apply extends_keeps_used, AddZips_extends.
  - intros l ext d K. eapply keeps_used_trans; [exact K|].
    apply extends_keeps_used, AddQueries_extends.
  - intros d K. eapply keeps_used_trans; [exact K|].
    apply keeps_used_same; reflexivity.
  - intros s d _ K. eapply keeps_used_trans; [exact K|].
    apply keeps_used_same; unfold SaveNavSession; destruct (_ && _); reflexivity.
  - intros d s updates _ K. eapply keeps_used_trans; [exact K|].
    apply keeps_used_same; unfold UpdateNavSession; destruct updates; reflexivity.
  - intros country query zip city state d K. eapply keeps_used_trans; [exact K|].
    apply markEntitiesAsUsed_updates_keeps_used.
  - apply keeps_used_same; reflexivity.
Qed.

(** X11.  Used flags outlive every operation but [ResetDatabase].  Whatever
    the manager and the arguments, an operation other than [ResetDatabase]
    leaves every country, state, city and zip row that was marked used in
    the store, unchanged, and every used query that was not added through
    the manager; [ClearSearchQueries] apart, the used queries that were
    added through the manager stay as well.  This holds whether the
    operation returns or panics. *)
Theorem used_flags_outlive_every_operation_but_ResetDatabase :
  forall op sm,
    op <> Op_ResetDatabase ->
    keeps_used_seeded (db sm) (final_db (run_op op sm))
    /\ (op <> Op_ClearSearchQueries ->
        keeps_used (db sm) (final_db (run_op op sm))).
Proof.
  intros op sm H. split; [|now apply keeps_used_run_op].
  assert (D : op = Op_ClearSearchQueries \/ op <> Op_ClearSearchQueries).
  { destruct op; (now left) || (right; discriminate). }
  destruct D as [->|D].
  - cbn [run_op]. rewrite final_db_discard, ClearSearchQueries_db.
    unfold keeps_used_seeded. cbn.
    repeat split; auto.
    intros q Hin _ Hext. apply filter_In. split; [exact Hin|].
    now rewrite Hext.
  - destruct (keeps_used_run_op sm H D) as (C & S & Ci & Z & Q).
    unfold keeps_used_seeded. repeat split; auto.
Qed.

(** *** Keys

    The primary keys and UNIQUE constraints of [initTables], and the
    rowids. *)
Definition state_key (s : State) : string * string :=
  (State_StateShort s, State_CountryShort s).
Definition city_key (c : City) : string * string * string :=
  (City_City c, City_StateShort c, City_CountryShort c).
Definition zip_key (z : Zip) : string * string :=
  (Zip_Zip z, Zip_CountryShort z).

Definition unique_keys (d : DB) : Prop :=
  NoDup (map Country_CountryShort (tbl_countries d))
  /\ NoDup (map state_key (tbl_states d))
  /\ NoDup (map city_key (tbl_cities d))
  /\ NoDup (map zip_key (tbl_zips d))
  /\ NoDup (map Query_Query (tbl_queries d))
  /\ NoDup (map City_ID (tbl_cities d))
  /\ NoDup (map Zip_ID (tbl_zips d))
  /\ NoDup (map Query_ID (tbl_queries d))
  /\ NoDup (map NavSession_ID (tbl_nav_sessions d)).

Lemma NoDup_snoc : forall A (l : list A) x,
  NoDup l -> ~ In x l -> NoDup (l ++ [x]).
Proof.
  intros A l x N H. induction N as [|y l Hy N IH]; simpl.
  - constructor; [intros []|constructor].
  - constructor.
    + intros Hin. apply in_app_or in Hin. destruct Hin as [Hin|[->|[]]].
      * contradiction.
      * apply H. now left.
    + apply IH. intros Hin. apply H. now right.
Qed.

Lemma NoDup_map_snoc : forall A K (k : A -> K) (l : list A) x,
  NoDup (map k l) -> ~ In (k x) (map k l) -> NoDup (map k (l ++ [x])).
Proof. intros A K k l x N H. rewrite map_app. now apply NoDup_snoc. Qed.

Lemma existsb_false_not_in : forall A K (k : A -> K) (test : A -> bool) key l,
  (forall r, k r = key -> test r = true) ->
  existsb test l = false -> ~ In key (map k l).
Proof.
  intros A K k test key l T E Hin. apply in_map_iff in Hin.
  destruct Hin as (r & Hk & Hr).
  assert (X : existsb test l = true).
  { apply existsb_exists. exists r. split; [exact Hr|now apply T]. }
  congruence.
Qed.

Lemma next_rowid_above : forall seq ids i,
  In (Some i) ids -> i < next_rowid seq ids.
Proof.
  intros seq ids i H. unfold next_rowid.
  induction ids as [|o ids IH]; [contradiction|].
  cbn [fold_right]. destruct H as [->|H].
  - lia.
  - specialize (IH H). destruct o; lia.
Qed.

Lemma next_rowid_fresh : forall seq ids, ~ In (Some (next_rowid seq ids)) ids.
Proof. intros seq ids H. apply (next_rowid_above seq) in H. lia. Qed.

Lemma map_key_update : forall A K (k : A -> K) (test : A -> bool) (f : A -> A) l,
  (forall x, k (f x) = k x) ->
  map k (map (fun x => if test x then f x else x) l) = map k l.
Proof.
  intros A K k test f l H. rewrite map_map. apply map_ext.
  intros x. destruct (test x); [apply H|reflexivity].
Qed.

Lemma map_key_map : forall A K (k : A -> K) (f : A -> A) l,
  (forall x, k (f x) = k x) -> map k (map f l) = map k l.
Proof. intros A K k f l H. rewrite map_map. apply map_ext. exact H. Qed.

Lemma NoDup_map_filter : forall A K (k : A -> K) (p : A -> bool) l,
  NoDup (map k l) -> NoDup (map k (filter p l)).
Proof.
  intros A K k p l. induction l as [|x l IH]; simpl; intros N; [constructor|].
  inversion N as [|y ys Hy N']; subst.
  destruct (p x); [|auto]. simpl. constructor; [|auto].
  intros Hin. apply Hy. apply in_map_iff in Hin. destruct Hin as (r & E & Hr).
  apply filter_In in Hr. apply in_map_iff. exists r. tauto.
Qed.

Lemma unique_keys_insert_country : forall ext r d d',
  insert_country ext r d = Some d' -> unique_keys d -> unique_keys d'.
Proof.
  intros ext r d d' H U. unfold insert_country in H. insert_cases H; [exact U|].
  destruct U as (U1 & U2 & U3 & U4 & U5 & U6 & U7 & U8 & U9).
  unfold unique_keys. cbn. repeat split; auto.
  apply NoDup_map_snoc; [exact U1|]. cbn.
  eapply existsb_false_not_in; [|eassumption].
  intros x E. cbv beta. rewrite E. apply String.eqb_refl.
Qed.

Lemma unique_keys_insert_state : forall ext r d d',
  insert_state ext r d = Some d' -> unique_keys d -> unique_keys d'.
Proof.
  intros ext r d d' H U. unfold insert_state in H. insert_cases H; [exact U|].
  destruct U as (U1 & U2 & U3 & U4 & U5 & U6 & U7 & U8 & U9).
  unfold unique_keys. cbn. repeat split; auto.
  apply NoDup_map_snoc; [exact U2|]. cbn.
  eapply existsb_false_not_in; [|eassumption].
  intros x E. unfold state_key in E. inversion E as [E'].
  cbv beta. repeat match goal with H : _ = _ :> string |- _ => rewrite H; clear H end.
  now rewrite !String.eqb_refl.
Qed.

Lemma unique_keys_insert_city : forall ext r d d',
  insert_city ext r d = Some d' -> unique_keys d -> unique_keys d'.
Proof.
  intros ext r d d' H U. unfold insert_city in H. insert_cases H; [exact U|].
  destruct U as (U1 & U2 & U3 & U4 & U5 & U6 & U7 & U8 & U9).
  unfold unique_keys. cbn. repeat split; auto.
  - apply NoDup_map_snoc; [exact U3|]. cbn.
    eapply existsb_false_not_in; [|eassumption].
    intros x E. unfold city_key in E. inversion E as [E'].
    cbv beta. repeat match goal with H : _ = _ :> string |- _ => rewrite H; clear H end.
    now rewrite !String.eqb_refl.
  - apply NoDup_map_snoc; [exact U6|]. cbn. apply next_rowid_fresh.
Qed.

Lemma unique_keys_insert_zip : forall ext r d d',
  insert_zip ext r d = Some d' -> unique_keys d -> unique_keys d'.
Proof.
  intros ext r d d' H U. unfold insert_zip in H. insert_cases H; [exact U|].
  destruct U as (U1 & U2 & U3 & U4 & U5 & U6 & U7 & U8 & U9).
  unfold unique_keys. cbn. repeat split; auto.
  - apply NoDup_map_snoc; [exact U4|]. cbn.
    eapply existsb_false_not_in; [|eassumption].
    intros x E. unfold zip_key in E. inversion E as [E'].
    cbv beta. repeat match goal with H : _ = _ :> string |- _ => rewrite H; clear H end.
    now rewrite !String.eqb_refl.
  - apply NoDup_map_snoc; [exact U7|]. cbn. apply next_rowid_fresh.
Qed.

Lemma unique_keys_insert_query : forall ext r d d',
  insert_query ext r d = Some d' -> unique_keys d -> unique_keys d'.
Proof.
  intros ext r d d' H U. unfold insert_query in H. insert_cases H; [exact U|].
  destruct U as (U1 & U2 & U3 & U4 & U5 & U6 & U7 & U8 & U9).
  unfold unique_keys. cbn. repeat split; auto.
  - apply NoDup_map_snoc; [exact U5|]. cbn.
    eapply existsb_false_not_in; [|eassumption].
    intros x E. cbv beta. rewrite E. apply String.eqb_refl.
  - apply NoDup_map_snoc; [exact U8|]. cbn. apply next_rowid_fresh.
Qed.

Lemma unique_keys_ClearQueries : forall d, unique_keys d -> unique_keys (snd (ClearQueries d)).
Proof.
  intros d (U1 & U2 & U3 & U4 & U5 & U6 & U7 & U8 & U9).
  unfold unique_keys. cbn. repeat split; auto.
  - now apply NoDup_map_filter.
  - now apply NoDup_map_filter.
  - rewrite map_key_map; [exact U9|].
    intros s. destruct (NavSession_QueryID s); [|reflexivity].
    destruct (has_id _ _); reflexivity.
Qed.

Lemma unique_keys_ResetNavSessions : forall d,
  unique_keys d -> unique_keys (snd (ResetNavSessions d)).
Proof.
  intros d (U1 & U2 & U3 & U4 & U5 & U6 & U7 & U8 & U9).
  unfold unique_keys. cbn. repeat split; auto. constructor.
Qed.

Lemma unique_keys_DB_ResetDatabase : forall d,
  unique_keys d -> unique_keys (snd (DB_ResetDatabase d)).
Proof.
  intros d (U1 & U2 & U3 & U4 & U5 & U6 & U7 & U8 & U9).
  unfold unique_keys. cbn.
  rewrite !map_key_map by reflexivity.
  repeat split; auto. constructor.
Qed.

Lemma unique_keys_SaveNavSession : forall s d,
  unique_keys d -> unique_keys (snd (SaveNavSession s d)).
Proof.
  intros s d U. unfold SaveNavSession. destruct (_ && _); [|exact U].
  destruct U as (U1 & U2 & U3 & U4 & U5 & U6 & U7 & U8 & U9).
  unfold unique_keys. cbn. repeat split; auto.
  apply NoDup_map_snoc; [exact U9|]. cbn.
  intros Hin.
  apply (@next_rowid_fresh (seq_nav_sessions d)
           (map (fun s => Some (NavSession_ID s)) (tbl_nav_sessions d))).
  apply in_map_iff in Hin. destruct Hin as (x & E & Hx).
  apply in_map_iff. exists x. split; [now rewrite E|exact Hx].
Qed.

Lemma apply_updates_id : forall updates s,
  NavSession_ID (fold_left apply_update updates s) = NavSession_ID s.
Proof.
  induction updates as [|u updates IH]; intros s; [reflexivity|].
  cbn [fold_left]. rewrite IH. destruct u; reflexivity.
Qed.

Lemma unique_keys_UpdateNavSession : forall id updates d,
  unique_keys d -> unique_keys (snd (UpdateNavSession id updates d)).
Proof.
  intros id updates d U. unfold UpdateNavSession.
  destruct updates as [|u updates]; [exact U|].
  destruct U as (U1 & U2 & U3 & U4 & U5 & U6 & U7 & U8 & U9).
  unfold unique_keys. cbn [snd tbl_countries tbl_states tbl_cities tbl_zips
                             tbl_queries tbl_nav_sessions with_nav_sessions].
  repeat split; auto.
  rewrite map_key_update; [exact U9|]. intros x. apply apply_updates_id.
Qed.

Lemma unique_keys_markEntitiesAsUsed_updates : forall country query zip city state d,
  unique_keys d -> unique_keys (markEntitiesAsUsed_updates country query zip city state d).
Proof.
  intros country query zip city state d (U1 & U2 & U3 & U4 & U5 & U6 & U7 & U8 & U9).
  destruct (markEntitiesAsUsed_updates_tables country query zip city state d)
    as (Tc & Tq & Tz & Tci & Ts).
  unfold unique_keys.
  rewrite Tc, Tq, Tz, Tci, Ts, markEntitiesAsUsed_updates_sessions.
  assert (K : forall A B K (k : A -> K) (o : option B) (f : B -> A -> A) l,
             (forall b x, k (f b x) = k x) -> map k (map_if o f l) = map k l).
  { intros A B K k o f l H. destruct o as [b|]; [|reflexivity].
    cbn. now apply map_key_map. }
  rewrite !K; try (repeat split; assumption).
  all: intros b x;
    first [ unfold mark_country; destruct (_ =? _)%string; reflexivity
          | unfold mark_state; destruct (_ && _); reflexivity
          | unfold mark_city; destruct (id_is _ _); reflexivity
          | unfold mark_zip; destruct (id_is _ _); reflexivity
          | unfold mark_query; destruct (id_is _ _); reflexivity ].
Qed.

Lemma unique_keys_run_op : forall op sm,
  unique_keys (db sm) -> unique_keys (final_db (run_op op sm)).
Proof.
  intros op sm. apply (@keeps_run_op unique_keys).
  - apply AddCountries_keeps, unique_keys_insert_country.
  - apply AddStates_keeps, unique_keys_insert_state.
  - apply AddCities_keeps, unique_keys_insert_city.
  - apply AddZips_keeps, unique_keys_insert_zip.
  - apply AddQueries_keeps, unique_keys_insert_query.
  - apply unique_keys_ClearQueries.
  - apply unique_keys_ResetNavSessions.
  - apply unique_keys_DB_ResetDatabase.
  - intros s d _. apply unique_keys_SaveNavSession.
  - intros d s updates _. apply unique_keys_UpdateNavSession.
  - apply unique_keys_markEntitiesAsUsed_updates.
Qed.

Lemma unique_keys_empty : unique_keys empty_DB.
Proof. unfold unique_keys. cbn. repeat split; constructor. Qed.

Lemma unique_keys_reachable : forall w, reachable w -> unique_keys (world_db w).
Proof.
  intros w R. induction R as [|w w' R IH S]; [apply unique_keys_empty|].
  destruct S; cbn [world_db] in *; auto.
  rewrite world_db_world_of. now apply unique_keys_run_op.
Qed.

(** X12.  Keys stay unique.  In every store the program can reach from a
    new file, by any sequence of operations, restarts and panics, no two
    countries share a code, no two states a (short code, country) pair, no
    two cities a (name, state, country) triple, no two zips a (zip,
    country) pair, no two queries a text, and no two rows of a table with
    rowids share an id; and every operation keeps it so. *)
Theorem reachable_stores_have_unique_keys :
  (forall w, reachable w -> unique_keys (world_db w))
  /\ (forall op sm, unique_keys (db sm) -> unique_keys (final_db (run_op op sm))).
Proof. split; [apply unique_keys_reachable|apply unique_keys_run_op]. Qed.

(** *** Completed sessions *)

Definition keeps_completed (d d' : DB) : Prop :=
  forall s, In s (tbl_nav_sessions d) -> NavSession_Completed s = true ->
            In s (tbl_nav_sessions d').

Lemma NoDup_map_inj : forall A K (k : A -> K) l x y,
  NoDup (map k l) -> In x l -> In y l -> k x = k y -> x = y.
Proof.
  intros A K k l x y. induction l as [|z l IH]; simpl; intros N Hx Hy E; [contradiction|].
  inversion N as [|? ? Hz N']; subst.
  destruct Hx as [->|Hx], Hy as [->|Hy]; auto.
  - exfalso. apply Hz. rewrite E. now apply in_map.
  - exfalso. apply Hz. rewrite <- E. now apply in_map.
Qed.

Lemma keeps_completed_same : forall d0 d d',
  tbl_nav_sessions d' = tbl_nav_sessions d ->
  keeps_completed d0 d -> keeps_completed d0 d'.
Proof. intros d0 d d' E K s Hin Hc. rewrite E. now apply K. Qed.

Lemma keeps_completed_insert : forall R (stmt : R -> DB -> option DB) d0,
  (forall r d d', stmt r d = Some d' -> tbl_nav_sessions d' = tbl_nav_sessions d) ->
  (forall r d d', stmt r d = Some d' -> unique_keys d -> unique_keys d') ->
  forall r d d', stmt r d = Some d' ->
    unique_keys d /\ keeps_completed d0 d -> unique_keys d' /\ keeps_completed d0 d'.
Proof.
  intros R stmt d0 Hs Hu r d d' H [U K]. split; [eapply Hu; eauto|].
  eapply keeps_completed_same; [eapply Hs; eauto|exact K].
Qed.

Lemma keeps_completed_run_op : forall op sm,
  unique_keys (db sm) ->
  op <> Op_ResetDatabase -> op <> Op_ClearSearchQueries -> op <> Op_ResetNav ->
  keeps_completed (db sm) (final_db (run_op op sm)).
Proof.
  intros op sm U H1 H2 H3.
  assert (G : unique_keys (final_db (run_op op sm))
              /\ keeps_completed (db sm) (final_db (run_op op sm))); [|apply G].
  apply (@keeps_run_op_without_delete
           (fun d => unique_keys d /\ keeps_completed (db sm) d)); try assumption.
  - apply AddCountries_keeps. intros ext.
    apply keeps_completed_insert;
      [apply insert_country_sessions|apply unique_keys_insert_country].
  - apply AddStates_keeps. intros ext.
    apply keeps_completed_insert;
      [apply insert_state_sessions|apply unique_keys_insert_state].
  - apply AddCities_keeps. intros ext.
    apply keeps_completed_insert;
      [apply insert_city_sessions|apply unique_keys_insert_city].
  - apply AddZips_keeps. intros ext.
    apply keeps_completed_insert;
      [apply insert_zip_sessions|apply unique_keys_insert_zip].
  - apply AddQueries_keeps. intros ext.
    apply keeps_completed_insert;
      [apply insert_query_sessions|apply unique_keys_insert_query].
  - intros s d _ [Ud K]. split; [now apply unique_keys_SaveNavSession|].
    intros x Hin Hc. specialize (K x Hin Hc).
    unfold SaveNavSession. destruct (_ && _); [|exact K].
    cbn. apply in_or_app. now left.
  - intros d s updates E [Ud K]. split; [now apply unique_keys_UpdateNavSession|].
    intros x Hin Hc. specialize (K x Hin Hc).
    unfold UpdateNavSession. destruct updates as [|u updates]; [exact K|].
    cbn [snd tbl_nav_sessions with_nav_sessions].
    apply in_map_iff. exists x. split; [|exact K].
    destruct (NavSession_ID x =? NavSession_ID s) eqn:I; [|reflexivity].
    exfalso. apply Z.eqb_eq in I.
    destruct (GetCurrentNavSession_active _ E) as [Hs Hn].
    destruct Ud as (_ & _ & _ & _ & _ & _ & _ & _ & U9).
    rewrite (NoDup_map_inj _ _ _ _ U9 K Hs I) in Hc. congruence.
  - intros country query zip city state d [Ud K].
    split; [now apply unique_keys_markEntitiesAsUsed_updates|].
    eapply keeps_completed_same; [apply markEntitiesAsUsed_updates_sessions|exact K].
  - split; [exact U|]. intros s Hin _. exact Hin.
Qed.

(** X13.  Completed sessions are history.  In a reachable state, an
    operation other than [ResetNav], [ResetDatabase] and
    [ClearSearchQueries] leaves every completed session row in the store
    exactly as it was: the updates of [SetPageNav], [MarkPageAsDone] and
    [MarkComplete] only ever reach the active session. *)
Theorem completed_sessions_are_left_alone :
  forall op sm,
    reachable (Running sm) ->
    op <> Op_ResetDatabase -> op <> Op_ClearSearchQueries -> op <> Op_ResetNav ->
    forall s,
      In s (tbl_nav_sessions (db sm)) ->
      NavSession_Completed s = true ->
      In s (tbl_nav_sessions (final_db (run_op op sm))).
Proof.
  intros op sm R H1 H2 H3.
  apply keeps_completed_run_op; try assumption.
  apply (unique_keys_reachable R).
Qed.

(** *** Pagination across a restart *)

Lemma GetCurrentNavSession_updated : forall d s updates,
  GetCurrentNavSession d = Some s ->
  NavSession_Completed (fold_left apply_update updates s) = false ->
  (forall x, NavSession_Completed x = true ->
             NavSession_Completed (fold_left apply_update updates x) = true) ->
  GetCurrentNavSession (snd (UpdateNavSession (NavSession_ID s) updates d))
  = Some (fold_left apply_update updates s).
Proof.
  intros d s updates E Hs Hx. unfold UpdateNavSession.
  destruct updates as [|u updates]; [exact E|].
  set (ups := u :: updates) in *.
  cbn [snd]. unfold GetCurrentNavSession in *.
  cbn [tbl_nav_sessions with_nav_sessions].
  induction (tbl_nav_sessions d) as [|x l IH]; [discriminate E|].
  cbn [map find] in *.
  destruct (negb (NavSession_Completed x)) eqn:C.
  - inversion E; subst x. rewrite Z.eqb_refl, Hs. reflexivity.
  - apply negb_false_iff in C.
    destruct (NavSession_ID x =? NavSession_ID s).
    + rewrite (Hx x C). cbn [negb]. apply IH, E.
    + rewrite C. cbn [negb]. apply IH, E.
Qed.

(** X14.  Pagination survives a restart.  With a current response and an
    active session, [SetPageNav] returns a nil error, holds the pagination
    in the current response and writes it into the [page] column of the
    active session, which stays the active one; a manager that restores
    from that store afterwards shows a pagination with the same pages and
    the same total. *)
Theorem SetPageNav_is_stored_and_restored :
  forall totalPages pages sm cur s,
    currentNav sm = Some cur ->
    GetCurrentNavSession (db sm) = Some s ->
    exists sm',
      SetPageNav totalPages pages sm = Ret None sm'
      /\ currentNav sm'
         = Some (set_Page (Page_PageNav (mkPageNav pages totalPages)) cur)
      /\ GetCurrentNavSession (db sm')
         = Some (apply_update s (Update_page (PageText_json (elems pages) totalPages)))
      /\ forall sm2,
           db sm2 = db sm' ->
           exists sm2' cur2 held,
             restoreOrStartSession sm2 = Ret None sm2'
             /\ currentNav sm2' = Some cur2
             /\ NavResponse_Page cur2 = Page_PageNav held
             /\ elems (PageNav_Pages held) = elems pages
             /\ PageNav_Total held = totalPages.
Proof.
  intros totalPages pages sm cur s C E.
  unfold SetPageNav. unfold bind at 1. unfold get_sm at 1. rewrite C.
  unfold bind at 1. unfold modify at 1.
  unfold bind at 1. unfold queryDB at 1. cbn [db set_currentNav]. rewrite E.
  unfold withDB. cbn [fst UpdateNavSession db set_currentNav].
  eexists. split; [reflexivity|]. cbn [currentNav set_db set_currentNav db].
  split; [reflexivity|].
  assert (G : GetCurrentNavSession
                (snd (UpdateNavSession (NavSession_ID s)
                        [Update_page (marshal_PageNav (mkPageNav pages totalPages))]
                        (db sm)))
              = Some (apply_update s (Update_page (PageText_json (elems pages) totalPages)))).
  { apply (@GetCurrentNavSession_updated (db sm) s
             [Update_page (marshal_PageNav (mkPageNav pages totalPages))] E).
    - cbn. apply (GetCurrentNavSession_active _ E).
    - intros x Hx. exact Hx. }
  cbn [snd UpdateNavSession marshal_PageNav PageNav_Pages PageNav_Total] in G |- *.
  split; [exact G|].
  intros sm2 D.
  unfold restoreOrStartSession. unfold bind at 1. unfold queryDB at 1.
  rewrite D. cbn [db set_db]. rewrite G.
  unfold bind, get_sm, modify, ret.
  eexists. eexists. eexists. split; [reflexivity|].
  cbn [currentNav set_currentNav]. split; [reflexivity|].
  cbn. repeat split.
Qed.

(** *** What [Init] loads *)

(** The loaded entities, the options and the sequence are the same. *)
Definition same_lists (sm sm' : StateManager) : Prop :=
  format sm' = format sm /\ targetCountry sm' = targetCountry sm
  /\ countries sm' = countries sm /\ states sm' = states sm
  /\ cities sm' = cities sm /\ zips sm' = zips sm
  /\ queries sm' = queries sm /\ navOrder sm' = navOrder sm.

Lemma same_lists_refl : forall sm, same_lists sm sm.
Proof. intros sm. unfold same_lists. repeat split. Qed.

Lemma same_lists_set_db : forall sm d, same_lists sm (set_db d sm).
Proof. intros sm d. unfold same_lists. repeat split. Qed.

Lemma restoreOrStartSession_lists : forall sm e sm',
  restoreOrStartSession sm = Ret e sm' -> same_lists sm sm'.
Proof.
  intros sm e sm' H. unfold restoreOrStartSession in H.
  unfold bind at 1 in H. unfold queryDB at 1 in H.
  destruct (GetCurrentNavSession (db sm)) as [s|].
  - unfold bind, get_sm, modify, ret in H. inversion H; subst.
    unfold same_lists. repeat split.
  - unfold bind at 1 in H.
    destruct (buildNavResponseFromIndex_same 0 sm) as [E|[r E]];
      rewrite E in H; [discriminate H|].
    unfold bind at 1 in H. unfold modify at 1 in H.
    destruct r as [cur|].
    + apply saveCurrentSession_memory in H. rewrite H.
      unfold same_lists. repeat split.
    + inversion H; subst. unfold same_lists. repeat split.
Qed.

Lemma navs_of_country_lists : forall sm sm' f c,
  states sm' = states sm -> cities sm' = cities sm -> zips sm' = zips sm ->
  queries sm' = queries sm ->
  navs_of_country sm' f c = navs_of_country sm f c.
Proof.
  intros sm sm' f c S C Z Q.
  unfold navs_of_country, getStatesByCountry, getCitiesByCountry, getZipsByCountry.
  rewrite S, C, Z, Q. reflexivity.
Qed.

(** The manager holds what the queries of [Init] return on the store [d]
    for these options, and the sequence expanded from it. *)
Definition loaded (options : InitOptions) (d : DB) (sm : StateManager) : Prop :=
  let codes := map Country_CountryShort (countries sm) in
  format sm = Some (InitOptions_Format options)
  /\ targetCountry sm = InitOptions_TargetCountry options
  /\ countries sm = GetCountries (InitOptions_TargetCountry options) d
  /\ states sm = GetStates codes d
  /\ cities sm = snd (GetCities codes (map State_StateShort (states sm)) d)
  /\ zips sm = GetZips codes d
  /\ queries sm = GetQueries d
  /\ navOrder sm
     = flat_map (navs_of_country sm (InitOptions_Format options)) (countries sm).

Lemma loaded_same_lists : forall options d sm sm',
  same_lists sm sm' -> loaded options d sm -> loaded options d sm'.
Proof.
  intros options d sm sm' (F & T & C & S & Ci & Z & Q & N)
         (F1 & T1 & C1 & S1 & Ci1 & Z1 & Q1 & N1).
  unfold loaded. rewrite F, T, C, S, Ci, Z, Q, N.
  repeat split; auto.
  rewrite N1. apply flat_map_ext. intros c.
  symmetry. now apply navs_of_country_lists.
Qed.

Lemma wp_and_eq : forall A (m : M A) (Q Q' : A -> StateManager -> Prop) sm,
  wp m Q sm -> (forall a sm', m sm = Ret a sm' -> Q' a sm') ->
  wp m (fun a sm' => Q a sm' /\ Q' a sm') sm.
Proof.
  intros A m Q Q' sm W H. unfold wp in *.
  destruct (m sm) as [a sm'|d]; [|contradiction]. split; [exact W|now apply H].
Qed.

Lemma wp_generateNavOrder_eq : forall sm f (Q : unit -> StateManager -> Prop),
  format sm = Some f ->
  Q tt (set_navOrder (flat_map (navs_of_country sm f) (countries sm)) sm) ->
  wp generateNavOrder Q sm.
Proof.
  intros sm f Q F H. eapply wp_of_eq; [apply generateNavOrder_some, F|exact H].
Qed.

Lemma wp_Init_loaded : forall options ld sm,
  wp (Init options ld)
     (fun e sm' =>
        e = None ->
        exists sm1,
          setDefault ld (set_targetCountry (InitOptions_TargetCountry options)
                           (set_format (Some (InitOptions_Format options)) sm))
          = Ret None sm1
          /\ loaded options (db sm1) sm') sm.
Proof.
  intros options ld sm. unfold Init. repeat wp_step.
  set (sm0 := set_targetCountry (InitOptions_TargetCountry options)
                (set_format (Some (InitOptions_Format options)) sm)).
  eapply wp_mono.
  { eapply wp_and_eq with (Q' := fun a sm' => setDefault ld sm0 = Ret a sm');
      [apply wp_setDefault|]. intros a sm' E. exact E. }
  intros e sm1 [[E L] D]. cbv beta in D |- *.
  destruct e as [msg|]; [wp_step; discriminate|].
  rewrite E. clear L.
  repeat wp_step. cbn [db set_db set_countries set_states targetCountry].
  rewrite GetCities_after_GetStates. repeat wp_step.
  eapply wp_generateNavOrder_eq; [reflexivity|].
  match goal with |- wp _ _ ?x => set (sm3 := x) end.
  eapply wp_mono.
  { eapply wp_and_eq with (Q' := fun a sm' => restoreOrStartSession sm3 = Ret a sm');
      [apply wp_restoreOrStartSession|].
    - discriminate.
    - apply steps_ok_expanded.
    - cbn. lia.
    - intros a sm' R. exact R. }
  intros e sm' [_ R] _. cbv beta in R.
  exists sm1. split; [exact D|].
  apply restoreOrStartSession_lists in R.
  eapply loaded_same_lists; [exact R|].
  unfold loaded, sm3, sm0. cbn. repeat split.
Qed.

Lemma loaded_target : forall options d sm,
  loaded options d sm ->
  InitOptions_TargetCountry options <> "all"%string ->
  let target := InitOptions_TargetCountry options in
  (forall c, In c (countries sm) -> Country_CountryShort c = target)
  /\ (forall s, In s (states sm) -> State_CountryShort s = target)
  /\ (forall c, In c (cities sm) -> City_CountryShort c = target)
  /\ (forall z, In z (zips sm) -> Zip_CountryShort z = target)
  /\ (forall nav, In nav (navOrder sm) -> Nav_Country nav = Some target)
  /\ (countries sm = [] -> navOrder sm = []).
Proof.
  intros options d sm' (F & Tg & C & S & Ci & Z & Q & N) T target.
  assert (HC : forall c, In c (countries sm') -> Country_CountryShort c = target).
  { intros c Hc. rewrite C in Hc. unfold GetCountries in Hc.
    destruct (String.eqb_spec (InitOptions_TargetCountry options) "all");
      [contradiction|].
    apply filter_In in Hc. destruct Hc as [_ Hc]. now apply String.eqb_eq in Hc. }
  assert (M : forall x, mem_string x (map Country_CountryShort (countries sm')) = true ->
                        x = target).
  { intros x Hx. unfold mem_string in Hx. apply existsb_exists in Hx.
    destruct Hx as (y & Hy & E). apply String.eqb_eq in E. subst y.
    apply in_map_iff in Hy. destruct Hy as (c & <- & Hc). now apply HC. }
  split; [exact HC|]. split; [|split; [|split; [|split]]].
  - intros s Hs. rewrite S in Hs. unfold GetStates in Hs.
    destruct (map Country_CountryShort (countries sm')) eqn:E; [contradiction|].
    rewrite <- E in *. apply filter_In in Hs. destruct Hs as [_ Hs]. now apply M.
  - intros c Hc. rewrite Ci in Hc. unfold GetCities in Hc.
    destruct (map Country_CountryShort (countries sm')) eqn:E;
      [destruct (map State_StateShort (states sm')); contradiction|].
    rewrite <- E in *.
    destruct (map State_StateShort (states sm')); cbn [snd] in Hc;
      apply filter_In in Hc; destruct Hc as [_ Hc].
    + now apply M.
    + apply andb_prop in Hc. destruct Hc as [_ Hc]. now apply M.
  - intros z Hz. rewrite Z in Hz. unfold GetZips in Hz.
    destruct (map Country_CountryShort (countries sm')) eqn:E; [contradiction|].
    rewrite <- E in *. apply filter_In in Hz. destruct Hz as [_ Hz]. now apply M.
  - intros nav Hn. rewrite N in Hn. apply in_flat_map in Hn.
    destruct Hn as (c & Hc & Hn). apply navs_of_country_country in Hn.
    rewrite Hn, (HC c Hc). reflexivity.
  - intros E. rewrite N, E. reflexivity.
Qed.

(** X15.  [Init] loads the target country only.  When [Init] returns a nil
    error for a target country other than "all", every country, state,
    city and zip the manager holds has that country code, and so has every
    step of the sequence; the target code is not checked against anything,
    and a code with no row in the store gives an empty sequence. *)
Theorem Init_loads_the_target_country_only :
  forall options ld sm sm',
    Init options ld sm = Ret None sm' ->
    InitOptions_TargetCountry options <> "all"%string ->
    let target := InitOptions_TargetCountry options in
    (forall c, In c (countries sm') -> Country_CountryShort c = target)
    /\ (forall s, In s (states sm') -> State_CountryShort s = target)
    /\ (forall c, In c (cities sm') -> City_CountryShort c = target)
    /\ (forall z, In z (zips sm') -> Zip_CountryShort z = target)
    /\ (forall nav, In nav (navOrder sm') -> Nav_Country nav = Some target)
    /\ (countries sm' = [] -> navOrder sm' = []).
Proof.
  intros options ld sm sm' H T.
  pose proof (wp_Init_loaded options ld sm) as W. unfold wp in W. rewrite H in W.
  destruct (W eq_refl) as (sm1 & _ & L).
  exact (loaded_target L T).
Qed.

(** *** Adding twice *)














(** *** A saved step is found again *)

(** The fields [navMatches] compares. *)
Definition same_step (a b : Nav) : Prop :=
  Nav_Query a = Nav_Query b /\ Nav_Zip a = Nav_Zip b /\ Nav_City a = Nav_City b
  /\ Nav_State a = Nav_State b /\ Nav_Country a = Nav_Country b.

(** The loaded rows are the same up to their used flags. *)
Definition same_rows (sm sm2 : StateManager) : Prop :=
  map unuse_country (countries sm2) = map unuse_country (countries sm)
  /\ map unuse_state (states sm2) = map unuse_state (states sm)
  /\ map unuse_city (cities sm2) = map unuse_city (cities sm)
  /\ map unuse_zip (zips sm2) = map unuse_zip (zips sm)
  /\ map unuse_query (queries sm2) = map unuse_query (queries sm).

(** Rowids and state codes tell the loaded rows apart. *)
Definition told_apart (sm : StateManager) : Prop :=
  NoDup (map Query_ID (queries sm))
  /\ (forall q, In q (queries sm) -> Query_ID q <> None)
  /\ NoDup (map Zip_ID (zips sm))
  /\ (forall z, In z (zips sm) -> Zip_ID z <> None)
  /\ NoDup (map City_ID (cities sm))
  /\ (forall c, In c (cities sm) -> City_ID c <> None)
  /\ NoDup (map State_StateShort (states sm)).

Lemma find_by_key : forall A K (g : A -> A) (key : A -> K) (test : A -> bool) k l l2 x0,
  (forall x, test x = true <-> key x = k) ->
  (forall x, key (g x) = key x) ->
  map g l2 = map g l ->
  NoDup (map key l) ->
  In x0 l -> key x0 = k ->
  exists x2, find test l2 = Some x2 /\ g x2 = g x0.
Proof.
  intros A K g key test k l l2 x0 T G M N H0 K0.
  assert (E : exists y, In y l2 /\ g y = g x0).
  { assert (I : In (g x0) (map g l2)) by (rewrite M; now apply in_map).
    apply in_map_iff in I. destruct I as (y & E & Hy). eauto. }
  destruct E as (y & Hy & Ey).
  assert (Ty : test y = true).
  { apply T. rewrite <- (G y), Ey, G. exact K0. }
  destruct (find_exists test l2 y Hy Ty) as [x2 F].
  exists x2. split; [exact F|].
  apply find_some in F. destruct F as [H2 T2]. apply T in T2.
  assert (I : In (g x2) (map g l)) by (rewrite <- M; now apply in_map).
  apply in_map_iff in I. destruct I as (x1 & E1 & H1).
  assert (x1 = x0).
  { apply (NoDup_map_inj key l x1 x0 N H1 H0).
    rewrite <- (G x1), E1, G, T2, K0. reflexivity. }
  subst x1. symmetry. exact E1.
Qed.

Lemma id_is_spec : forall id o, id_is id o = true <-> o = Some id.
Proof.
  intros id [i|]; cbn; [|split; discriminate].
  rewrite Z.eqb_eq. split; [intros ->; reflexivity|intros H; now inversion H].
Qed.

Lemma addNavForQuery_state_short : forall f query country states cities zips nav ss,
  In nav (addNavForQuery f query country states cities zips) ->
  Nav_StateShort nav = Some ss ->
  exists state, In state states /\ State_StateShort state = ss
                /\ Nav_State nav = Some (State_State state).
Proof.
  intros f query country states cities zips nav ss. unfold addNavForQuery.
  format_cases f; intros H; in_steps; intros T; cbn in T;
    try discriminate T; inversion T; subst;
    match goal with
    | H : findStateByShort _ _ = Some ?s |- _ =>
        exists s; apply findStateByShort_in in H; destruct H; repeat split; assumption
    | H : In ?x ?l |- exists y, In y ?l /\ _ =>
        exists (loop_var l x); repeat split; apply loop_var_in; exact H
    end.
Qed.

(** Where the texts of a step of an expanded sequence come from. *)
Lemma expanded_step_sources : forall sm f nav,
  In nav (flat_map (navs_of_country sm f) (countries sm)) ->
  (forall t, Nav_Query nav = Some t -> exists q, In q (queries sm) /\ Query_Query q = t)
  /\ (forall t, Nav_Zip nav = Some t -> exists z, In z (zips sm) /\ Zip_Zip z = t)
  /\ (forall t, Nav_City nav = Some t -> exists c, In c (cities sm) /\ City_City c = t)
  /\ (forall t, Nav_StateShort nav = Some t ->
        exists s, In s (states sm) /\ State_StateShort s = t
                  /\ Nav_State nav = Some (State_State s))
  /\ (Nav_StateShort nav = None -> Nav_State nav = None).
Proof.
  intros sm f nav H. apply in_flat_map in H. destruct H as (c & Hc & H).
  assert (S : exists query,
             In nav (addNavForQuery f query c
                       (getStatesByCountry sm (Country_CountryShort c))
                       (getCitiesByCountry sm (Country_CountryShort c))
                       (getZipsByCountry sm (Country_CountryShort c)))
             /\ (forall t, Nav_Query nav = Some t ->
                   exists q, In q (queries sm) /\ Query_Query q = t)).
  { unfold navs_of_country in H.
    destruct (strings_HasPrefix f "query-") eqn:P.
    - apply in_flat_map in H. destruct H as (q & Hq & H).
      eexists. split; [exact H|].
      apply addNavForQuery_with_query in H; [|exact P].
      intros t T. rewrite H in T. inversion T.
      exists (loop_var (queries sm) q). split; [now apply loop_var_in|reflexivity].
    - eexists. split; [exact H|].
      apply addNavForQuery_without_query in H. rewrite H. discriminate. }
  destruct S as (query & S & Q).
  pose proof (addNavForQuery_sources _ _ _ _ _ _ _ S) as (Z & C & St & _).
  split; [exact Q|]. split; [|split; [|split]].
  - intros t T. destruct (Z t T) as (z & I & E). exists z.
    unfold getZipsByCountry in I. apply filter_In in I. tauto.
  - intros t T. destruct (C t T) as (ci & I & E). exists ci.
    unfold getCitiesByCountry in I. apply filter_In in I. tauto.
  - intros t T.
    destruct (addNavForQuery_state_short _ _ _ _ _ _ _ S T) as (st & I & E & N).
    exists st. unfold getStatesByCountry in I. apply filter_In in I. tauto.
  - intros T. destruct (Nav_State nav) as [n|] eqn:N; [|reflexivity].
    destruct (St n eq_refl) as (st & _ & _ & X). congruence.
Qed.

Lemma GetCurrentNavSession_appended : forall d d' s,
  GetCurrentNavSession d = None ->
  tbl_nav_sessions d' = tbl_nav_sessions d ++ [s] ->
  NavSession_Completed s = false ->
  GetCurrentNavSession d' = Some s.
Proof.
  intros d d' s E T C. unfold GetCurrentNavSession in *. rewrite T.
  revert E. generalize (tbl_nav_sessions d).
  induction l as [|x l IH]; cbn [app find]; intros E.
  - now rewrite C.
  - destruct (negb (NavSession_Completed x)); [discriminate E|auto].
Qed.

Lemma same_values_same_step : forall a b country query zip city state,
  same_values a country query zip city state ->
  same_values b country query zip city state ->
  same_step a b.
Proof.
  intros a b country query zip city state (A1 & A2 & A3 & A4 & A5) (B1 & B2 & B3 & B4 & B5).
  unfold same_step. repeat split; congruence.
Qed.

(** What the entities a restore finds through the ids of the session of a
    saved step say: the texts of that step. *)
Lemma saved_step_values : forall sm sm2 f nav cur s c,
  navOrder sm = flat_map (navs_of_country sm f) (countries sm) ->
  told_apart sm -> same_rows sm sm2 ->
  In nav (navOrder sm) ->
  NavResponse_Nav cur = nav ->
  Nav_Country nav = Some (NavResponse_Country cur) ->
  findCountry sm (NavResponse_Country cur) = Some c ->
  NavSession_CountryShort s = Country_CountryShort c ->
  NavSession_QueryID s
  = bind_opt (bind_opt (Nav_Query nav) (findQueryByText sm)) Query_ID ->
  NavSession_ZipID s
  = bind_opt (bind_opt (Nav_Zip nav) (findZipByText sm)) Zip_ID ->
  NavSession_CityID s
  = bind_opt (bind_opt (Nav_City nav) (findCityByText sm)) City_ID ->
  NavSession_StateShort s
  = option_map State_StateShort (bind_opt (Nav_StateShort nav) (findState sm)) ->
  same_values nav
    (findCountry sm2 (NavSession_CountryShort s))
    (bind_opt (NavSession_QueryID s) (findQuery sm2))
    (bind_opt (NavSession_ZipID s) (findZip sm2))
    (bind_opt (NavSession_CityID s) (findCity sm2))
    (bind_opt (NavSession_StateShort s) (findState sm2)).
Proof.
  intros sm sm2 f nav cur s c N (Q1 & Q2 & Z1 & Z2 & C1 & C2 & S1)
         (Rc & Rs & Rci & Rz & Rq) Hin Hnav Hcountry Hc Ec Eq Ez Eci Es.
  rewrite N in Hin.
  destruct (expanded_step_sources _ _ _ Hin) as (Sq & Sz & Sc & Ss & Sn).
  unfold same_values. split; [|split; [|split; [|split]]].
  - (* query *)
    rewrite Eq. destruct (Nav_Query nav) as [t|] eqn:T; [|reflexivity].
    destruct (Sq t eq_refl) as (q & Hq & Et). cbn [bind_opt].
    destruct (@find_exists _ (fun q => (Query_Query q =? t)%string) (queries sm) q Hq)
      as [q0 F0]; [rewrite Et; apply String.eqb_refl|].
    unfold findQueryByText. rewrite F0. cbn [bind_opt].
    apply find_some in F0. destruct F0 as [H0 T0]. apply String.eqb_eq in T0.
    destruct (Query_ID q0) as [id|] eqn:I; [|exfalso; now apply (Q2 q0 H0)].
    cbn [bind_opt]. unfold findQuery.
    destruct (@find_by_key _ _ unuse_query Query_ID (fun q => id_is id (Query_ID q))
                (Some id) (queries sm) (queries sm2) q0) as (q2 & F2 & E2); auto.
    + intros x. apply id_is_spec.
    + rewrite F2. cbn. f_equal. rewrite <- T0.
      change (Query_Query q2) with (Query_Query (unuse_query q2)).
      rewrite E2. reflexivity.
  - (* zip *)
    rewrite Ez. destruct (Nav_Zip nav) as [t|] eqn:T; [|reflexivity].
    destruct (Sz t eq_refl) as (z & Hz & Et). cbn [bind_opt].
    destruct (@find_exists _ (fun z => (Zip_Zip z =? t)%string) (zips sm) z Hz)
      as [z0 F0]; [rewrite Et; apply String.eqb_refl|].
    unfold findZipByText. rewrite F0. cbn [bind_opt].
    apply find_some in F0. destruct F0 as [H0 T0]. apply String.eqb_eq in T0.
    destruct (Zip_ID z0) as [id|] eqn:I; [|exfalso; now apply (Z2 z0 H0)].
    cbn [bind_opt]. unfold findZip.
    destruct (@find_by_key _ _ unuse_zip Zip_ID (fun z => id_is id (Zip_ID z))
                (Some id) (zips sm) (zips sm2) z0) as (z2 & F2 & E2); auto.
    + intros x. apply id_is_spec.
    + rewrite F2. cbn. f_equal. rewrite <- T0.
      change (Zip_Zip z2) with (Zip_Zip (unuse_zip z2)).
      rewrite E2. reflexivity.
  - (* city *)
    rewrite Eci. destruct (Nav_City nav) as [t|] eqn:T; [|reflexivity].
    destruct (Sc t eq_refl) as (ci & Hci & Et). cbn [bind_opt].
    destruct (@find_exists _ (fun c => (City_City c =? t)%string) (cities sm) ci Hci)
      as [c0 F0]; [rewrite Et; apply String.eqb_refl|].
    unfold findCityByText. rewrite F0. cbn [bind_opt].
    apply find_some in F0. destruct F0 as [H0 T0]. apply String.eqb_eq in T0.
    destruct (City_ID c0) as [id|] eqn:I; [|exfalso; now apply (C2 c0 H0)].
    cbn [bind_opt]. unfold findCity.
    destruct (@find_by_key _ _ unuse_city City_ID (fun c => id_is id (City_ID c))
                (Some id) (cities sm) (cities sm2) c0) as (c2 & F2 & E2); auto.
    + intros x. apply id_is_spec.
    + rewrite F2. cbn. f_equal. rewrite <- T0.
      change (City_City c2) with (City_City (unuse_city c2)).
      rewrite E2. reflexivity.
  - (* state *)
    rewrite Es. destruct (Nav_StateShort nav) as [t|] eqn:T.
    + destruct (Ss t eq_refl) as (st & Hst & Et & En). cbn [bind_opt].
      destruct (@find_exists _ (fun s => (State_StateShort s =? t)%string)
                  (states sm) st Hst) as [s0 F0]; [rewrite Et; apply String.eqb_refl|].
      unfold findState at 1. rewrite F0. cbn [option_map bind_opt].
      apply find_some in F0. destruct F0 as [H0 T0]. apply String.eqb_eq in T0.
      assert (s0 = st).
      { apply (NoDup_map_inj State_StateShort (states sm) s0 st S1 H0 Hst). congruence. }
      subst s0. unfold findState. rewrite T0.
      destruct (@find_by_key _ _ unuse_state State_StateShort
                  (fun s => (State_StateShort s =? t)%string)
                  t (states sm) (states sm2) st) as (s2 & F2 & E2); auto.
      * intros x. apply String.eqb_eq.
      * rewrite F2. cbn. rewrite En. f_equal.
        change (State_State s2) with (State_State (unuse_state s2)).
        rewrite E2. reflexivity.
    + cbn. apply Sn. reflexivity.
  - (* country *)
    rewrite Hcountry, Ec.
    destruct (findCountry_code _ _ Hc) as [Ecode Hin_c]. rewrite Ecode.
    assert (I : In (unuse_country c) (map unuse_country (countries sm2))).
    { rewrite Rc. now apply in_map. }
    apply in_map_iff in I. destruct I as (c2 & E2 & H2).
    destruct (@find_exists _ (fun x => (Country_CountryShort x =? NavResponse_Country cur)%string)
                (countries sm2) c2 H2) as [c3 F3].
    { change (Country_CountryShort c2) with (Country_CountryShort (unuse_country c2)).
      rewrite E2. cbn. rewrite Ecode. apply String.eqb_refl. }
    unfold findCountry. rewrite F3. cbn.
    apply find_some in F3. destruct F3 as [_ T3]. apply String.eqb_eq in T3.
    now rewrite T3.
Qed.

Lemma same_step_same_values : forall a b country query zip city state,
  same_step a b ->
  same_values b country query zip city state ->
  same_values a country query zip city state.
Proof.
  intros a b country query zip city state (A1 & A2 & A3 & A4 & A5) (B1 & B2 & B3 & B4 & B5).
  unfold same_values. repeat split; congruence.
Qed.

Lemma saved_step_found :
  forall sm f r sm' sm2,
    navOrder sm = flat_map (navs_of_country sm f) (countries sm) ->
    told_apart sm ->
    GetCurrentNavSession (db sm) = None ->
    GetNextNav sm = Ret (Some r, None) sm' ->
    db sm2 = db sm' -> same_rows sm sm2 -> navOrder sm2 = navOrder sm ->
    exists sm2' j nav,
      restoreOrStartSession sm2 = Ret None sm2'
      /\ currentIndex sm2' = Z.of_nat j
      /\ Z.of_nat j <= currentIndex sm'
      /\ nth_error (navOrder sm) j = Some nav
      /\ same_step nav (NavResponse_Nav r)
      /\ (forall m nav', (m < j)%nat -> nth_error (navOrder sm) m = Some nav' ->
                         ~ same_step nav' (NavResponse_Nav r))
      /\ ((forall m nav', Z.of_nat m < currentIndex sm' ->
                          nth_error (navOrder sm) m = Some nav' ->
                          ~ same_step nav' (NavResponse_Nav r)) ->
          currentIndex sm2' = currentIndex sm').
Proof.
  intros sm f r sm' sm2 N TA E G D R N2.
  destruct (GetNextNav_advances _ E G) as [Sv Bd]. cbv zeta in Sv, Bd.
  set (i := wrap_int (currentIndex sm + 1)) in *.
  apply buildNavResponseFromIndex_some in Bd.
  destruct Bd as (_ & Hi & Hnth & _ & _ & _ & _ & code & Hcode & Hname).
  change (navOrder (set_currentIndex i sm)) with (navOrder sm) in Hnth.
  change (navOrder_len (set_currentIndex i sm)) with (navOrder_len sm) in Hi.
  destruct (@saveCurrentSession_ok _ _ Sv r eq_refl)
    as (c & s & Hc & Hrows & Hact & _ & Ecs & Eq & Ez & Eci & Es & _ & _ & Hidx & _).
  cbn [currentIndex set_currentNav set_currentIndex] in Hidx.
  assert (Hin : In (NavResponse_Nav r) (navOrder sm)) by (eapply nth_error_In; eauto).
  assert (Hcountry : Nav_Country (NavResponse_Nav r) = Some (NavResponse_Country r)).
  { rewrite Hcode. f_equal. rewrite Hname.
    pose proof Hin as Hin'. rewrite N in Hin'. apply in_flat_map in Hin'.
    destruct Hin' as (c0 & Hc0 & Hn0). apply navs_of_country_country in Hn0.
    rewrite Hcode in Hn0. inversion Hn0; subst code.
    destruct (@find_exists _ (fun x => (Country_CountryShort x =? Country_CountryShort c0)%string)
                (countries sm) c0 Hc0 (String.eqb_refl _)) as [c1 F1].
    change (findCountry (set_currentIndex i sm) (Country_CountryShort c0))
      with (find (fun x => (Country_CountryShort x =? Country_CountryShort c0)%string)
                 (countries sm)).
    rewrite F1. apply find_some in F1. destruct F1 as [_ F1].
    apply String.eqb_eq in F1. now rewrite F1. }
  assert (V : same_values (NavResponse_Nav r)
                (findCountry sm2 (NavSession_CountryShort s))
                (bind_opt (NavSession_QueryID s) (findQuery sm2))
                (bind_opt (NavSession_ZipID s) (findZip sm2))
                (bind_opt (NavSession_CityID s) (findCity sm2))
                (bind_opt (NavSession_StateShort s) (findState sm2))).
  { eapply (@saved_step_values sm sm2 f (NavResponse_Nav r) r s c); eauto. }
  assert (A : GetCurrentNavSession (db sm') = Some s).
  { eapply GetCurrentNavSession_appended; [exact E|exact Hrows|exact Hact]. }
  clearbody i.
  unfold restoreOrStartSession. unfold bind at 1. unfold queryDB at 1.
  rewrite D, A. unfold bind, get_sm, modify, ret.
  cbn [currentIndex set_currentNav set_currentIndex].
  match goal with |- context [findNavIndex sm2 s ?co ?q ?z ?ci ?st] =>
    pose proof (findNavIndex_relocated sm2 s co q z ci st) as L;
    set (j := findNavIndex sm2 s co q z ci st) in *
  end.
  rewrite N2 in L.
  destruct L as [(n & nav & Hj & Hn & Pn & Hmin)|(_ & Hnone)];
    [|exfalso; exact (Hnone _ Hin V)].
  assert (Le : (n <= Z.to_nat i)%nat).
  { destruct (Nat.le_gt_cases n (Z.to_nat i)) as [X|X]; [exact X|].
    exfalso. exact (Hmin _ _ X Hnth V). }
  eexists. exists n, nav. split; [reflexivity|].
  split; [exact Hj|]. split; [rewrite Hidx; lia|]. split; [exact Hn|].
  split; [eapply same_values_same_step; eauto|]. split.
  - intros m nav' Hm Hm' S. apply (Hmin m nav' Hm Hm').
    eapply same_step_same_values; eauto.
  - intros U. cbn [currentIndex set_currentNav set_currentIndex].
    rewrite Hj, Hidx.
    destruct (Nat.eq_dec n (Z.to_nat i)) as [->|Ne]; [lia|].
    exfalso. apply (U n nav); [rewrite Hidx; lia|exact Hn|].
    eapply same_values_same_step; eauto.
Qed.

(** X18.  A saved step is found again.  Let [GetNextNav] move an expanded
    sequence to a step and save its session, on a manager whose loaded
    queries, zips and cities have distinct rowids and whose loaded states
    have distinct short codes.  A manager that then restores from that
    store, with the same rows loaded (up to their used flags) and the same
    sequence, puts its cursor on the first step that has the same query,
    zip, city, state and country as the saved one: never past the saved
    step, and on the saved step itself when no earlier step reads the
    same. *)
Theorem saved_step_is_found_again :
  forall sm f r sm' sm2,
    navOrder sm = flat_map (navs_of_country sm f) (countries sm) ->
    told_apart sm ->
    GetCurrentNavSession (db sm) = None ->
    GetNextNav sm = Ret (Some r, None) sm' ->
    db sm2 = db sm' -> same_rows sm sm2 -> navOrder sm2 = navOrder sm ->
    exists sm2' j nav,
      restoreOrStartSession sm2 = Ret None sm2'
      /\ currentIndex sm2' = Z.of_nat j
      /\ Z.of_nat j <= currentIndex sm'
      /\ nth_error (navOrder sm) j = Some nav
      /\ same_step nav (NavResponse_Nav r)
      /\ (forall m nav', (m < j)%nat -> nth_error (navOrder sm) m = Some nav' ->
                         ~ same_step nav' (NavResponse_Nav r))
      /\ ((forall m nav', Z.of_nat m < currentIndex sm' ->
                          nth_error (navOrder sm) m = Some nav' ->
                          ~ same_step nav' (NavResponse_Nav r)) ->
          currentIndex sm2' = currentIndex sm').
Proof.
  intros sm f r sm' sm2 N TA E G D R N2.
  exact (saved_step_found f N TA E G D R N2).
Qed.

Lemma reachable_run_ops : forall ops w, reachable w -> reachable (run_ops ops w).
Proof.
  induction ops as [|op ops IH]; intros w R; [exact R|].
  cbn [run_ops]. destruct w as [d|sm]; [exact R|].
  apply IH. eapply reachable_step; [exact R|apply step_op].
Qed.

Lemma reachable_fresh_manager : reachable (Running (NewStateManager empty_DB)).
Proof. eapply reachable_step; [apply reachable_start|apply step_open]. Qed.

(** [told_apart], as a test. *)
Fixpoint nodupb {K} (eqb : K -> K -> bool) (l : list K) : bool :=
  match l with
  | [] => true
  | x :: rest => negb (existsb (eqb x) rest) && nodupb eqb rest
  end.

Definition option_Z_eqb (a b : option Z) : bool :=
  match a, b with
  | Some x, Some y => x =? y
  | None, None => true
  | _, _ => false
  end.

Definition has_rowid {A} (id : A -> option Z) (l : list A) : bool :=
  forallb (fun x => match id x with Some _ => true | None => false end) l.

Definition told_apartb (sm : StateManager) : bool :=
  nodupb option_Z_eqb (map Query_ID (queries sm)) && has_rowid Query_ID (queries sm)
  && nodupb option_Z_eqb (map Zip_ID (zips sm)) && has_rowid Zip_ID (zips sm)
  && nodupb option_Z_eqb (map City_ID (cities sm)) && has_rowid City_ID (cities sm)
  && nodupb String.eqb (map State_StateShort (states sm)).

Lemma nodupb_NoDup : forall K (eqb : K -> K -> bool) l,
  (forall x y, eqb x y = true <-> x = y) ->
  nodupb eqb l = true -> NoDup l.
Proof.
  intros K eqb l E. induction l as [|x l IH]; cbn; intros H; [constructor|].
  apply andb_prop in H. destruct H as [H1 H2]. constructor; [|auto].
  intros Hin. apply negb_true_iff in H1.
  assert (X : existsb (eqb x) l = true).
  { apply existsb_exists. exists x. split; [exact Hin|now apply E]. }
  congruence.
Qed.

Lemma option_Z_eqb_spec : forall x y, option_Z_eqb x y = true <-> x = y.
Proof.
  intros [x|] [y|]; cbn; try (split; discriminate); [|tauto].
  rewrite Z.eqb_eq. split; [intros ->; reflexivity|intros H; now inversion H].
Qed.

Lemma has_rowid_spec : forall A (id : A -> option Z) l,
  has_rowid id l = true -> forall x, In x l -> id x <> None.
Proof.
  intros A id l H x Hin. unfold has_rowid in H. rewrite forallb_forall in H.
  specialize (H x Hin). destruct (id x); [discriminate|discriminate H].
Qed.

Lemma told_apartb_told_apart : forall sm, told_apartb sm = true -> told_apart sm.
Proof.
  intros sm H. unfold told_apartb in H.
  repeat match type of H with
         | _ && _ = true => apply andb_prop in H; destruct H as [H ?]
         end.
  unfold told_apart.
  repeat split;
    first [ eapply nodupb_NoDup; [apply option_Z_eqb_spec|eassumption]
          | eapply nodupb_NoDup; [apply String.eqb_eq|eassumption]
          | eapply has_rowid_spec; eassumption ].
Qed.

Lemma same_rows_set_db : forall sm d, same_rows sm (set_db d sm).
Proof. intros sm d. unfold same_rows. repeat split. Qed.

Lemma navOrder_set_db : forall sm d, navOrder (set_db d sm) = navOrder sm.
Proof. reflexivity. Qed.

Lemma db_set_db : forall sm d, db (set_db d sm) = d.
Proof. reflexivity. Qed.

(** *** Rowids *)

(** Every row of a table with rowids has one. *)
Definition rowids_assigned (d : DB) : Prop :=
  (forall c, In c (tbl_cities d) -> City_ID c <> None)
  /\ (forall z, In z (tbl_zips d) -> Zip_ID z <> None)
  /\ (forall q, In q (tbl_queries d) -> Query_ID q <> None).

Lemma in_map_keeps : forall A K (k : A -> K) (f : A -> A) (P : K -> Prop) l,
  (forall x, k (f x) = k x) ->
  (forall x, In x l -> P (k x)) ->
  forall y, In y (map f l) -> P (k y).
Proof.
  intros A K k f P l H Hl y Hy. apply in_map_iff in Hy.
  destruct Hy as (x & <- & Hx). rewrite H. now apply Hl.
Qed.

Lemma in_snoc_keeps : forall A (P : A -> Prop) l x,
  (forall y, In y l -> P y) -> P x -> forall y, In y (l ++ [x]) -> P y.
Proof.
  intros A P l x Hl Hx y Hy. apply in_app_or in Hy.
  destruct Hy as [Hy|[<-|[]]]; auto.
Qed.

Ltac rowids_insert H :=
  insert_cases H; [assumption|];
  match goal with
  | U : rowids_assigned _ |- _ => destruct U as (U1 & U2 & U3)
  end;
  unfold rowids_assigned; cbn; repeat split; auto;
  apply in_snoc_keeps; auto; cbn; discriminate.

Lemma rowids_insert_country : forall ext r d d',
  insert_country ext r d = Some d' -> rowids_assigned d -> rowids_assigned d'.
Proof. intros ext r d d' H U. unfold insert_country in H. rowids_insert H. Qed.

Lemma rowids_insert_state : forall ext r d d',
  insert_state ext r d = Some d' -> rowids_assigned d -> rowids_assigned d'.
Proof. intros ext r d d' H U. unfold insert_state in H. rowids_insert H. Qed.

Lemma rowids_insert_city : forall ext r d d',
  insert_city ext r d = Some d' -> rowids_assigned d -> rowids_assigned d'.
Proof. intros ext r d d' H U. unfold insert_city in H. rowids_insert H. Qed.

Lemma rowids_insert_zip : forall ext r d d',
  insert_zip ext r d = Some d' -> rowids_assigned d -> rowids_assigned d'.
Proof. intros ext r d d' H U. unfold insert_zip in H. rowids_insert H. Qed.

Lemma rowids_insert_query : forall ext r d d',
  insert_query ext r d = Some d' -> rowids_assigned d -> rowids_assigned d'.
Proof. intros ext r d d' H U. unfold insert_query in H. rowids_insert H. Qed.

Lemma rowids_markEntitiesAsUsed_updates : forall country query zip city state d,
  rowids_assigned d ->
  rowids_assigned (markEntitiesAsUsed_updates country query zip city state d).
Proof.
  intros country query zip city state d (U1 & U2 & U3).
  destruct (markEntitiesAsUsed_updates_tables country query zip city state d)
    as (Tc & Tq & Tz & Tci & Ts).
  unfold rowids_assigned. rewrite Tq, Tz, Tci.
  assert (K : forall A B (k : A -> option Z) (o : option B) (f : B -> A -> A) l,
             (forall b x, k (f b x) = k x) ->
             (forall x, In x l -> k x <> None) ->
             forall y, In y (map_if o f l) -> k y <> None).
  { intros A B k o f l H Hl y Hy. destruct o as [b|]; [|now apply Hl].
    cbn in Hy. revert y Hy.
    apply (@in_map_keeps A (option Z) k (f b) (fun i => i <> None) l); auto. }
  split; [|split].
  - apply K; [|exact U1]. intros b x. unfold mark_city.
    destruct (id_is _ _); reflexivity.
  - apply K; [|exact U2]. intros b x. unfold mark_zip.
    destruct (id_is _ _); reflexivity.
  - apply K; [|exact U3]. intros b x. unfold mark_query.
    destruct (id_is _ _); reflexivity.
Qed.

Lemma rowids_run_op : forall op sm,
  rowids_assigned (db sm) -> rowids_assigned (final_db (run_op op sm)).
Proof.
  intros op sm. apply (@keeps_run_op rowids_assigned).
  - apply AddCountries_keeps, rowids_insert_country.
  - apply AddStates_keeps, rowids_insert_state.
  - apply AddCities_keeps, rowids_insert_city.
  - apply AddZips_keeps, rowids_insert_zip.
  - apply AddQueries_keeps, rowids_insert_query.
  - intros d (U1 & U2 & U3). unfold rowids_assigned. cbn.
    repeat split; auto. intros q Hq. apply filter_In in Hq. now apply U3.
  - intros d U. exact U.
  - intros d (U1 & U2 & U3). unfold rowids_assigned. cbn.
    split; [|split].
    + revert U1. apply (@in_map_keeps _ _ City_ID unuse_city (fun i => i <> None)).
      reflexivity.
    + revert U2. apply (@in_map_keeps _ _ Zip_ID unuse_zip (fun i => i <> None)).
      reflexivity.
    + revert U3. apply (@in_map_keeps _ _ Query_ID unuse_query (fun i => i <> None)).
      reflexivity.
  - intros s d _ U. unfold SaveNavSession. destruct (_ && _); exact U.
  - intros d s updates _ U. unfold UpdateNavSession. destruct updates; exact U.
  - apply rowids_markEntitiesAsUsed_updates.
Qed.

Lemma rowids_reachable : forall w, reachable w -> rowids_assigned (world_db w).
Proof.
  intros w R. induction R as [|w w' R IH S].
  - unfold rowids_assigned. cbn. repeat split; intros x [].
  - destruct S; cbn [world_db] in *; auto.
    rewrite world_db_world_of. now apply rowids_run_op.
Qed.

(** *** From the store to the loaded rows *)

Lemma NoDup_map_fst_of_pair : forall A K1 K2 (k1 : A -> K1) (k2 : A -> K2) c l,
  NoDup (map (fun x => (k1 x, k2 x)) l) ->
  (forall x, In x l -> k2 x = c) ->
  NoDup (map k1 l).
Proof.
  intros A K1 K2 k1 k2 c l. induction l as [|x l IH]; cbn; intros N H; [constructor|].
  inversion N as [|? ? Hx N']; subst. constructor; [|auto].
  intros Hin. apply Hx. apply in_map_iff in Hin. destruct Hin as (y & E & Hy).
  apply in_map_iff. exists y. split; [|exact Hy].
  rewrite E, (H y (or_intror Hy)), (H x (or_introl eq_refl)). reflexivity.
Qed.

Lemma loaded_told_apart : forall options d sm,
  loaded options d sm ->
  unique_keys d -> rowids_assigned d ->
  InitOptions_TargetCountry options <> "all"%string ->
  told_apart sm.
Proof.
  intros options d sm L U (Rc & Rz & Rq) T.
  destruct (loaded_target L T) as (_ & Hs & _).
  destruct L as (F & Tg & C & S & Ci & Z & Q & N).
  destruct U as (U1 & U2 & U3 & U4 & U5 & U6 & U7 & U8 & U9).
  unfold told_apart. rewrite Q. unfold GetQueries.
  split; [exact U8|]. split; [exact Rq|].
  assert (Zs : NoDup (map Zip_ID (zips sm)) /\ forall z, In z (zips sm) -> Zip_ID z <> None).
  { rewrite Z. unfold GetZips. destruct (map Country_CountryShort (countries sm)).
    - split; [constructor|intros z []].
    - split; [now apply NoDup_map_filter|].
      intros z Hz. apply filter_In in Hz. now apply Rz. }
  assert (Cs : NoDup (map City_ID (cities sm))
               /\ forall c, In c (cities sm) -> City_ID c <> None).
  { rewrite Ci. unfold GetCities.
    destruct (map Country_CountryShort (countries sm));
      destruct (map State_StateShort (states sm)); cbn [snd];
      try (split; [constructor|intros c []]);
      (split; [now apply NoDup_map_filter|]);
      intros c Hc; apply filter_In in Hc; now apply Rc. }
  destruct Zs as [Z1 Z2]. destruct Cs as [C1 C2].
  repeat split; auto.
  apply (@NoDup_map_fst_of_pair _ _ _ State_StateShort State_CountryShort
           (InitOptions_TargetCountry options)); [|exact Hs].
  rewrite S. unfold GetStates. destruct (map Country_CountryShort (countries sm));
    [constructor|].
  now apply (@NoDup_map_filter _ _ state_key).
Qed.

(** *** The expansion reads texts only *)

Lemma last_map : forall A B (g : A -> B) l x, last (map g l) (g x) = g (last l x).
Proof.
  intros A B g l x. induction l as [|y l IH]; [reflexivity|].
  destruct l as [|z l]; [reflexivity|].
  change (last (map g (y :: z :: l)) (g x)) with (last (map g (z :: l)) (g x)).
  change (last (y :: z :: l) x) with (last (z :: l) x). exact IH.
Qed.

Lemma loop_var_map : forall A B (g : A -> B) l x,
  loop_var (map g l) (g x) = g (loop_var l x).
Proof.
  intros A B g l x. unfold loop_var.
  destruct loopvar_per_iteration; [reflexivity|apply last_map].
Qed.

Lemma find_map_commute : forall A (g : A -> A) (p : A -> bool) l,
  (forall x, p (g x) = p x) -> find p (map g l) = option_map g (find p l).
Proof.
  intros A g p l H. induction l as [|x l IH]; [reflexivity|].
  cbn. rewrite H. destruct (p x); [reflexivity|exact IH].
Qed.

Lemma filter_map_commute : forall A (g : A -> A) (p : A -> bool) l,
  (forall x, p (g x) = p x) -> filter p (map g l) = map g (filter p l).
Proof.
  intros A g p l H. induction l as [|x l IH]; [reflexivity|].
  cbn. rewrite H. destruct (p x); cbn; now rewrite IH.
Qed.

Lemma flat_map_map_commute : forall A B C (g : A -> B) (f : B -> list C) l,
  flat_map f (map g l) = flat_map (fun x => f (g x)) l.
Proof.
  intros A B C g f l. induction l as [|x l IH]; [reflexivity|].
  cbn. now rewrite IH.
Qed.

Lemma addNavForQuery_texts : forall f query country states cities zips,
  addNavForQuery f (option_map unuse_query query) (unuse_country country)
    (map unuse_state states) (map unuse_city cities) (map unuse_zip zips)
  = addNavForQuery f query country states cities zips.
Proof.
  intros f query country states cities zips. unfold addNavForQuery.
  format_cases f; destruct query as [q|]; cbn [option_map]; try reflexivity;
    rewrite ?map_map, ?flat_map_map_commute;
    first [ apply map_ext; intros x; rewrite ?loop_var_map; reflexivity
          | apply flat_map_ext; intros x; unfold findStateByShort;
            cbn [City_StateShort unuse_city City_County];
            rewrite ?find_map_commute by reflexivity;
            match goal with
            | |- context [find ?p ?l] => destruct (find p l)
            | _ => idtac
            end; cbn [option_map]; rewrite ?loop_var_map; reflexivity ].
Qed.

(** The body of the loop of [generateNavOrder], on the loaded lists. *)
Definition navs_of (f : NavFormat) (qs : list Query) (ss : list State)
  (cs : list City) (zs : list Zip) (country : Country) : list Nav :=
  let code := Country_CountryShort country in
  let countryStates := filter (fun s => (State_CountryShort s =? code)%string) ss in
  let countryCities := filter (fun c => (City_CountryShort c =? code)%string) cs in
  let countryZips := filter (fun z => (Zip_CountryShort z =? code)%string) zs in
  if strings_HasPrefix f "query-" then
    flat_map (fun query =>
                addNavForQuery f (Some (loop_var qs query)) country
                               countryStates countryCities countryZips) qs
  else addNavForQuery f None country countryStates countryCities countryZips.

Lemma navs_of_country_navs_of : forall sm f country,
  navs_of_country sm f country
  = navs_of f (queries sm) (states sm) (cities sm) (zips sm) country.
Proof. reflexivity. Qed.

Lemma navs_of_texts : forall f qs ss cs zs country,
  navs_of f (map unuse_query qs) (map unuse_state ss) (map unuse_city cs)
          (map unuse_zip zs) (unuse_country country)
  = navs_of f qs ss cs zs country.
Proof.
  intros f qs ss cs zs country. unfold navs_of. cbv zeta.
  change (Country_CountryShort (unuse_country country))
    with (Country_CountryShort country).
  rewrite !filter_map_commute by reflexivity.
  destruct (strings_HasPrefix f "query-").
  - rewrite flat_map_map_commute. apply flat_map_ext. intros q.
    rewrite loop_var_map.
    apply (addNavForQuery_texts f (Some (loop_var qs q))).
  - apply (addNavForQuery_texts f None).
Qed.

Lemma same_rows_same_sequence : forall sm sm2 f,
  same_rows sm sm2 ->
  flat_map (navs_of_country sm2 f) (countries sm2)
  = flat_map (navs_of_country sm f) (countries sm).
Proof.
  intros sm sm2 f (Rc & Rs & Rci & Rz & Rq).
  assert (E : forall x,
             flat_map (navs_of_country x f) (countries x)
             = flat_map (navs_of f (map unuse_query (queries x))
                                 (map unuse_state (states x))
                                 (map unuse_city (cities x))
                                 (map unuse_zip (zips x)))
                        (map unuse_country (countries x))).
  { intros x. rewrite flat_map_map_commute. apply flat_map_ext. intros c.
    rewrite navs_of_texts. reflexivity. }
  rewrite (E sm), (E sm2), Rc, Rs, Rci, Rz, Rq. reflexivity.
Qed.

(** *** The store, up to used flags and sessions *)

Definition same_entities (d d' : DB) : Prop :=
  map unuse_country (tbl_countries d') = map unuse_country (tbl_countries d)
  /\ map unuse_state (tbl_states d') = map unuse_state (tbl_states d)
  /\ map unuse_city (tbl_cities d') = map unuse_city (tbl_cities d)
  /\ map unuse_zip (tbl_zips d') = map unuse_zip (tbl_zips d)
  /\ map unuse_query (tbl_queries d') = map unuse_query (tbl_queries d).

Lemma same_entities_refl : forall d, same_entities d d.
Proof. intros d. unfold same_entities. repeat split. Qed.

Lemma same_entities_tables : forall d0 d d',
  tbl_countries d' = tbl_countries d -> tbl_states d' = tbl_states d ->
  tbl_cities d' = tbl_cities d -> tbl_zips d' = tbl_zips d ->
  tbl_queries d' = tbl_queries d ->
  same_entities d0 d -> same_entities d0 d'.
Proof.
  intros d0 d d' E1 E2 E3 E4 E5 H. unfold same_entities in *.
  rewrite E1, E2, E3, E4, E5. exact H.
Qed.

Lemma map_unuse_map_if : forall A B (g : A -> A) (o : option B) (f : B -> A -> A) l,
  (forall b x, g (f b x) = g x) -> map g (map_if o f l) = map g l.
Proof.
  intros A B g o f l H. destruct o as [b|]; [|reflexivity].
  cbn. rewrite map_map. apply map_ext. apply H.
Qed.

Lemma same_entities_markEntitiesAsUsed_updates : forall d0 country query zip city state d,
  same_entities d0 d ->
  same_entities d0 (markEntitiesAsUsed_updates country query zip city state d).
Proof.
  intros d0 country query zip city state d (E1 & E2 & E3 & E4 & E5).
  destruct (markEntitiesAsUsed_updates_tables country query zip city state d)
    as (Tc & Tq & Tz & Tci & Ts).
  unfold same_entities. rewrite Tc, Tq, Tz, Tci, Ts.
  rewrite !map_unuse_map_if; [repeat split; assumption|..];
    intros b x;
    first [ unfold mark_query; destruct (id_is _ _); reflexivity
          | unfold mark_zip; destruct (id_is _ _); reflexivity
          | unfold mark_city; destruct (id_is _ _); reflexivity
          | unfold mark_state; destruct (_ && _); reflexivity
          | unfold mark_country; destruct (_ =? _)%string; reflexivity ].
Qed.

(** *** What a walk leaves of the loaded lists

    [lists_kept m]: when [m] returns, the loaded entities, the options and
    the sequence are the ones it started with. *)
Definition lists_kept {A} (m : M A) : Prop :=
  forall sm a sm', m sm = Ret a sm' -> same_lists sm sm'.

Lemma same_lists_trans : forall sm1 sm2 sm3,
  same_lists sm1 sm2 -> same_lists sm2 sm3 -> same_lists sm1 sm3.
Proof.
  intros sm1 sm2 sm3 (A1 & A2 & A3 & A4 & A5 & A6 & A7 & A8)
         (B1 & B2 & B3 & B4 & B5 & B6 & B7 & B8).
  unfold same_lists. repeat split; congruence.
Qed.

Lemma lists_kept_ret : forall A (a : A), lists_kept (ret a).
Proof. intros A a sm x sm' H. inversion H. apply same_lists_refl. Qed.

Lemma lists_kept_panic : forall A, lists_kept (@panic A).
Proof. intros A sm x sm' H. discriminate H. Qed.

Lemma lists_kept_get_sm : lists_kept get_sm.
Proof. intros sm x sm' H. inversion H. apply same_lists_refl. Qed.

Lemma lists_kept_queryDB : forall A (q : DB -> A), lists_kept (queryDB q).
Proof. intros A q sm x sm' H. inversion H. apply same_lists_refl. Qed.

Lemma lists_kept_withDB : forall A (op : DB -> A * DB), lists_kept (withDB op).
Proof. intros A op sm x sm' H. inversion H. apply same_lists_set_db. Qed.

Lemma lists_kept_set_currentNav : forall r, lists_kept (modify (set_currentNav r)).
Proof. intros r sm x sm' H. inversion H. unfold same_lists. repeat split. Qed.

Lemma lists_kept_set_currentIndex : forall i, lists_kept (modify (set_currentIndex i)).
Proof. intros i sm x sm' H. inversion H. unfold same_lists. repeat split. Qed.

Lemma lists_kept_bind : forall A B (m : M A) (k : A -> M B),
  lists_kept m -> (forall a, lists_kept (k a)) -> lists_kept (bind m k).
Proof.
  intros A B m k Hm Hk sm b sm' H. unfold bind in H.
  destruct (m sm) as [a sm1|d] eqn:E; [|discriminate H].
  eapply same_lists_trans; [eapply Hm; eauto|eapply Hk; eauto].
Qed.

Lemma lists_kept_buildNavResponseFromIndex : forall i,
  lists_kept (buildNavResponseFromIndex i).
Proof.
  intros i sm r sm' H.
  destruct (buildNavResponseFromIndex_same i sm) as [E|[r' E]]; rewrite E in H;
    inversion H. apply same_lists_refl.
Qed.

Lemma lists_kept_saveCurrentSession : lists_kept saveCurrentSession.
Proof.
  intros sm e sm' H. apply saveCurrentSession_memory in H. rewrite H.
  apply same_lists_set_db.
Qed.

Lemma lists_kept_restoreOrStartSession : lists_kept restoreOrStartSession.
Proof. intros sm e sm' H. eapply restoreOrStartSession_lists; eauto. Qed.

Ltac lists_step :=
  first
    [ apply lists_kept_ret | apply lists_kept_panic | apply lists_kept_get_sm
    | apply lists_kept_queryDB | apply lists_kept_withDB
    | apply lists_kept_set_currentNav | apply lists_kept_set_currentIndex
    | apply lists_kept_buildNavResponseFromIndex
    | apply lists_kept_saveCurrentSession
    | apply lists_kept_restoreOrStartSession
    | apply lists_kept_bind; [|intros]
    | match goal with
      | |- lists_kept (match ?x with _ => _ end) => destruct x
      | |- lists_kept (if ?x then _ else _) => destruct x
      | |- lists_kept (let (_, _) := ?x in _) => destruct x
      end ].

Lemma lists_kept_GetNextNav : lists_kept GetNextNav.
Proof. unfold GetNextNav. repeat lists_step. Qed.

Lemma lists_kept_MarkComplete : lists_kept MarkComplete.
Proof. unfold MarkComplete. repeat lists_step. Qed.

Lemma lists_kept_SetPageNav : forall totalPages pages,
  lists_kept (SetPageNav totalPages pages).
Proof. intros. unfold SetPageNav. repeat lists_step. Qed.

Lemma lists_kept_MarkPageAsDone : forall page, lists_kept (MarkPageAsDone page).
Proof.
  intros. unfold MarkPageAsDone.
  repeat first [apply lists_kept_MarkComplete | lists_step].
Qed.

Lemma lists_kept_ResetNav : lists_kept ResetNav.
Proof. unfold ResetNav. repeat lists_step. Qed.

Lemma lists_kept_run_op : forall op, walk_op op = true -> lists_kept (run_op op).
Proof.
  intros op H. destruct op; try discriminate H; cbn [run_op]; unfold discard;
    (apply lists_kept_bind; [|intros; apply lists_kept_ret]);
    first [ apply lists_kept_GetNextNav | apply lists_kept_SetPageNav
          | apply lists_kept_MarkPageAsDone | apply lists_kept_MarkComplete
          | apply lists_kept_ResetNav
          | unfold GetNav, GetCurrentNav; repeat lists_step ].
Qed.

Lemma same_entities_walk : forall d0 op sm,
  walk_op op = true ->
  same_entities d0 (db sm) -> same_entities d0 (final_db (run_op op sm)).
Proof.
  intros d0 op sm H. apply (@keeps_run_op_walk (same_entities d0)); [..|exact H].
  - intros d. apply same_entities_tables; reflexivity.
  - intros s d _. apply same_entities_tables;
      unfold SaveNavSession; destruct (_ && _); reflexivity.
  - intros d s updates _. apply same_entities_tables;
      unfold UpdateNavSession; destruct updates; reflexivity.
  - intros. now apply same_entities_markEntitiesAsUsed_updates.
Qed.

(** *** [Init], in two halves *)

(** What [Init] has loaded and expanded when it calls
    [restoreOrStartSession]; [sm] is the manager [setDefault] returned. *)
Definition after_load (sm : StateManager) : StateManager :=
  let countries := GetCountries (targetCountry sm) (db sm) in
  let countryShorts := map Country_CountryShort countries in
  let states := GetStates countryShorts (db sm) in
  let stateShorts := map State_StateShort states in
  let loaded_sm :=
    set_currentIndex 0
      (set_queries (GetQueries (db sm))
         (set_zips (GetZips countryShorts (db sm))
            (set_cities (snd (GetCities countryShorts stateShorts (db sm)))
               (set_states states (set_countries countries sm))))) in
  match format sm with
  | Some f =>
      set_navOrder (flat_map (navs_of_country loaded_sm f) (GetCountries (targetCountry sm) (db sm)))
                   loaded_sm
  | None => loaded_sm
  end.

Lemma Init_after_load : forall options ld sm smd,
  setDefault ld (set_targetCountry (InitOptions_TargetCountry options)
                   (set_format (Some (InitOptions_Format options)) sm))
  = Ret None smd ->
  Init options ld sm = restoreOrStartSession (after_load smd)
  /\ loaded options (db smd) (after_load smd)
  /\ db (after_load smd) = db smd
  /\ currentIndex (after_load smd) = 0.
Proof.
  intros options ld sm smd H.
  pose proof (wp_setDefault ld (set_targetCountry (InitOptions_TargetCountry options)
                                  (set_format (Some (InitOptions_Format options)) sm)))
    as W.
  unfold wp in W. rewrite H in W. destruct W as [E _].
  assert (F : format smd = Some (InitOptions_Format options)) by (rewrite E; reflexivity).
  assert (T : targetCountry smd = InitOptions_TargetCountry options)
    by (rewrite E; reflexivity).
  split; [|split; [|split]].
  - unfold Init. unfold bind at 1. unfold modify at 1.
    unfold bind at 1. unfold modify at 1.
    unfold bind at 1. rewrite H.
    unfold bind at 1. unfold get_sm at 1.
    unfold bind at 1. unfold queryDB at 1.
    unfold bind at 1. unfold modify at 1.
    unfold bind at 1. unfold queryDB at 1.
    unfold bind at 1. unfold modify at 1.
    unfold bind at 1. unfold queryDB at 1.
    cbn [db set_countries set_states].
    rewrite GetCities_after_GetStates.
    unfold bind at 1. unfold modify at 1.
    unfold bind at 1. unfold queryDB at 1.
    unfold bind at 1. unfold modify at 1.
    unfold bind at 1. unfold queryDB at 1.
    unfold bind at 1. unfold modify at 1.
    unfold bind at 1. unfold modify at 1.
    unfold bind at 1.
    match goal with |- context [generateNavOrder ?x] =>
      rewrite (@generateNavOrder_some x (InitOptions_Format options))
        by (cbn; exact F)
    end.
    unfold after_load. rewrite F. reflexivity.
  - unfold after_load. rewrite F. unfold loaded. cbn. rewrite T.
    repeat split. exact F.
  - unfold after_load. rewrite F. reflexivity.
  - unfold after_load. rewrite F. reflexivity.
Qed.

Lemma setDefault_populated : forall ld sm,
  tbl_countries (db sm) <> [] -> setDefault ld sm = Ret None sm.
Proof.
  intros ld sm H. unfold setDefault, bind, queryDB.
  assert (G : (CountTotal (db sm) >? 0) = true).
  { unfold CountTotal. destruct (tbl_countries (db sm)); [contradiction|].
    cbn [List.length]. apply Z.gtb_lt. lia. }
  rewrite G. reflexivity.
Qed.

Lemma map_code_unuse : forall l l',
  map unuse_country l' = map unuse_country l ->
  map Country_CountryShort l' = map Country_CountryShort l.
Proof.
  intros l l' H.
  assert (E : forall x, map Country_CountryShort x
                        = map Country_CountryShort (map unuse_country x)).
  { intros x. rewrite map_map. reflexivity. }
  rewrite (E l), (E l'), H. reflexivity.
Qed.

Lemma map_short_unuse : forall l l',
  map unuse_state l' = map unuse_state l ->
  map State_StateShort l' = map State_StateShort l.
Proof.
  intros l l' H.
  assert (E : forall x, map State_StateShort x
                        = map State_StateShort (map unuse_state x)).
  { intros x. rewrite map_map. reflexivity. }
  rewrite (E l), (E l'), H. reflexivity.
Qed.

Lemma map_filter_same : forall A (g : A -> A) (p : A -> bool) l l',
  (forall x, p (g x) = p x) ->
  map g l' = map g l -> map g (filter p l') = map g (filter p l).
Proof.
  intros A g p l l' H E.
  rewrite <- !filter_map_commute by exact H. now rewrite E.
Qed.

(** Two managers that loaded, for the same options, from stores with the
    same entities hold the same rows and the same sequence. *)
Lemma loaded_same_rows : forall options d d2 sm sm2,
  loaded options d sm -> loaded options d2 sm2 -> same_entities d d2 ->
  same_rows sm sm2 /\ navOrder sm2 = navOrder sm.
Proof.
  intros options d d2 sm sm2 (F & T & C & S & Ci & Z & Q & N)
         (F2 & T2 & C2 & S2 & Ci2 & Z2 & Q2 & N2) (E1 & E2 & E3 & E4 & E5).
  assert (Rc : map unuse_country (countries sm2) = map unuse_country (countries sm)).
  { rewrite C, C2. unfold GetCountries. destruct (_ =? _)%string; [exact E1|].
    apply map_filter_same; [reflexivity|exact E1]. }
  pose proof (map_code_unuse _ _ Rc) as Codes.
  assert (Rs : map unuse_state (states sm2) = map unuse_state (states sm)).
  { rewrite S, S2, Codes. unfold GetStates.
    destruct (map Country_CountryShort (countries sm)); [reflexivity|].
    apply map_filter_same; [reflexivity|exact E2]. }
  pose proof (map_short_unuse _ _ Rs) as Shorts.
  assert (Rci : map unuse_city (cities sm2) = map unuse_city (cities sm)).
  { rewrite Ci, Ci2, Codes, Shorts. unfold GetCities.
    destruct (map Country_CountryShort (countries sm));
      destruct (map State_StateShort (states sm)); cbn [snd]; try reflexivity;
      (apply map_filter_same; [reflexivity|exact E3]). }
  assert (Rz : map unuse_zip (zips sm2) = map unuse_zip (zips sm)).
  { rewrite Z, Z2, Codes. unfold GetZips.
    destruct (map Country_CountryShort (countries sm)); [reflexivity|].
    apply map_filter_same; [reflexivity|exact E4]. }
  assert (Rq : map unuse_query (queries sm2) = map unuse_query (queries sm)).
  { rewrite Q, Q2. exact E5. }
  assert (R : same_rows sm sm2) by (unfold same_rows; auto).
  split; [exact R|]. rewrite N, N2. now apply same_rows_same_sequence.
Qed.

(** The manager holds what [Init] loaded for [options] from a store with
    unique keys and rowids, and the store still has the same entities. *)
Definition in_sync (options : InitOptions) (sm : StateManager) : Prop :=
  exists d, loaded options d sm /\ same_entities d (db sm)
            /\ unique_keys d /\ rowids_assigned d.

Lemma same_entities_restoreOrStartSession : forall d0 sm,
  same_entities d0 (db sm) -> same_entities d0 (final_db (restoreOrStartSession sm)).
Proof.
  intros d0 sm. apply (@keeps_restoreOrStartSession (same_entities d0)).
  - intros s d _. apply same_entities_tables;
      unfold SaveNavSession; destruct (_ && _); reflexivity.
  - intros. now apply same_entities_markEntitiesAsUsed_updates.
Qed.

Lemma Init_in_sync : forall options ld sm sm',
  unique_keys (db sm) -> rowids_assigned (db sm) ->
  Init options ld sm = Ret None sm' ->
  in_sync options sm'.
Proof.
  intros options ld sm sm' U R H.
  pose proof (wp_Init_loaded options ld sm) as W. unfold wp in W. rewrite H in W.
  destruct (W eq_refl) as (smd & D & L).
  exists (db smd).
  destruct (Init_after_load options ld sm D) as (E & _ & Edb & _).
  split; [exact L|]. split; [|split].
  - rewrite E in H.
    pose proof (@same_entities_restoreOrStartSession (db smd) (after_load smd)) as X.
    rewrite H in X. cbn [final_db] in X. apply X.
    rewrite Edb. apply same_entities_refl.
  - assert (K : forall x, unique_keys (db x) ->
                         unique_keys (final_db (setDefault ld x))).
    { apply (@keeps_setDefault unique_keys).
      - apply AddCountries_keeps, unique_keys_insert_country.
      - apply AddStates_keeps, unique_keys_insert_state.
      - apply AddCities_keeps, unique_keys_insert_city.
      - apply AddZips_keeps, unique_keys_insert_zip. }
    specialize (K (set_targetCountry (InitOptions_TargetCountry options)
                     (set_format (Some (InitOptions_Format options)) sm)) U).
    rewrite D in K. exact K.
  - assert (K : forall x, rowids_assigned (db x) ->
                         rowids_assigned (final_db (setDefault ld x))).
    { apply (@keeps_setDefault rowids_assigned).
      - apply AddCountries_keeps, rowids_insert_country.
      - apply AddStates_keeps, rowids_insert_state.
      - apply AddCities_keeps, rowids_insert_city.
      - apply AddZips_keeps, rowids_insert_zip. }
    specialize (K (set_targetCountry (InitOptions_TargetCountry options)
                     (set_format (Some (InitOptions_Format options)) sm)) R).
    rewrite D in K. exact K.
Qed.

Lemma in_sync_walk : forall options ops sm sm',
  forallb walk_op ops = true ->
  run_ops ops (Running sm) = Running sm' ->
  in_sync options sm -> in_sync options sm'.
Proof.
  intros options ops. induction ops as [|op ops IH]; intros sm sm' W H S.
  - inversion H; subst. exact S.
  - cbn [forallb] in W. apply andb_prop in W. destruct W as [W1 W2].
    cbn [run_ops] in H.
    destruct (run_op op sm) as [[] sm1|d] eqn:E; cbn [world_of] in H.
    + apply (IH sm1 sm' W2 H).
      destruct S as (d0 & L & En & U & R). exists d0.
      split; [|split; [|split]]; auto.
      * eapply loaded_same_lists; [|exact L].
        eapply lists_kept_run_op; eauto.
      * pose proof (same_entities_walk op sm W1 En) as X.
        rewrite E in X. exact X.
    + exfalso. clear - H. induction ops; discriminate H.
Qed.

(** X19.  A walk resumes after a restart.  Let [Init] return nil on a
    reachable manager for a target country other than "all", let any
    number of walk operations follow ([GetNav], [GetNextNav],
    [GetCurrentNav], [SetPageNav], [MarkPageAsDone], [MarkComplete],
    [ResetNav]), and let a [GetNextNav] then move to a step and save its
    session.  If the process stops there, [Init] with the same options on a
    new manager over that store returns nil, expands the same sequence and
    puts the cursor on the first step that has the same query, zip, city,
    state and country as the step that was saved: never past it, and on it
    when no earlier step reads the same. *)
Theorem walk_resumes_after_restart :
  forall options ld ld' sm0 sm1 ops sm r sm',
    reachable (Running sm0) ->
    InitOptions_TargetCountry options <> "all"%string ->
    Init options ld sm0 = Ret None sm1 ->
    forallb walk_op ops = true ->
    run_ops ops (Running sm1) = Running sm ->
    GetCurrentNavSession (db sm) = None ->
    GetNextNav sm = Ret (Some r, None) sm' ->
    exists sm2 j nav,
      Init options ld' (NewStateManager (db sm')) = Ret None sm2
      /\ navOrder sm2 = navOrder sm'
      /\ currentIndex sm2 = Z.of_nat j
      /\ Z.of_nat j <= currentIndex sm'
      /\ nth_error (navOrder sm') j = Some nav
      /\ same_step nav (NavResponse_Nav r)
      /\ ((forall m nav', Z.of_nat m < currentIndex sm' ->
                          nth_error (navOrder sm') m = Some nav' ->
                          ~ same_step nav' (NavResponse_Nav r)) ->
          currentIndex sm2 = currentIndex sm').
Proof.
  intros options ld ld' sm0 sm1 ops sm r sm' R0 T I1 W H E G.
  pose proof (unique_keys_reachable R0) as U0. cbn [world_db] in U0.
  pose proof (rowids_reachable R0) as Rw0. cbn [world_db] in Rw0.
  pose proof (@Init_in_sync options ld sm0 sm1 U0 Rw0 I1) as S1.
  pose proof (@in_sync_walk options ops sm1 sm W H S1) as (d1 & L & En & U & Rw).
  pose proof (loaded_told_apart L U Rw T) as TA.
  pose proof L as (F & Tg & C & _ & _ & _ & _ & N).
  pose proof (lists_kept_GetNextNav _ G) as (_ & _ & _ & _ & _ & _ & _ & Nsm').
  assert (En' : same_entities d1 (db sm')).
  { pose proof (@same_entities_walk d1 Op_GetNextNav sm eq_refl En) as X.
    cbn [run_op] in X. rewrite final_db_discard, G in X. exact X. }
  assert (Hc : tbl_countries (db sm') <> []).
  { destruct (GetNextNav_advances _ E G) as [_ Bd]. cbv zeta in Bd.
    apply buildNavResponseFromIndex_some in Bd.
    destruct Bd as (_ & _ & Hnth & _).
    cbn [navOrder set_currentIndex] in Hnth.
    intros X. destruct En' as (E1 & _). rewrite X in E1. cbn in E1.
    assert (Y : tbl_countries d1 = []) by (destruct (tbl_countries d1); [reflexivity|discriminate E1]).
    assert (Cs : countries sm = []).
    { rewrite C. unfold GetCountries. rewrite Y. destruct (_ =? _)%string; reflexivity. }
    rewrite N, Cs in Hnth. cbn [flat_map] in Hnth.
    destruct (Z.to_nat _); discriminate Hnth. }
  set (smn := set_targetCountry (InitOptions_TargetCountry options)
                (set_format (Some (InitOptions_Format options))
                   (NewStateManager (db sm')))).
  assert (D : setDefault ld' smn = Ret None smn) by (apply setDefault_populated; exact Hc).
  destruct (Init_after_load options ld' (NewStateManager (db sm')) D)
    as (Ei & L2 & Edb & _).
  change (db smn) with (db sm') in L2, Edb.
  destruct (loaded_same_rows L L2 En') as [Rows N2].
  destruct (saved_step_found (InitOptions_Format options) N TA E G Edb Rows N2)
    as (sm2 & j & nav & R1 & R2 & R3 & R4 & R5 & _ & R7).
  exists sm2, j, nav. rewrite Ei, Nsm'.
  split; [exact R1|]. split.
  { apply restoreOrStartSession_lists in R1.
    destruct R1 as (_ & _ & _ & _ & _ & _ & _ & X). congruence. }
  split; [exact R2|]. split; [exact R3|]. split; [exact R4|].
  split; [exact R5|]. exact R7.
Qed.

End Runtime.

(* ===================================================================== *)
(** ** Runs on concrete stores *)
(* ===================================================================== *)

Definition no_spare : nat -> nat := fun _ => 0%nat.

(** Two countries whose rows are stored in the order US, CA. *)
Definition seed_two : LocationData :=
  mkLocationData
    [("US#United States"%string, [("CA##California"%string, ["Los Angeles"%string])]);
     ("CA#Canada"%string, [("ON##Ontario"%string, ["Toronto"%string])])]
    [("US"%string, ["90001"; "90002"; "90003"]%string)].


Example strings_Split_country_key :
  strings_Split "US#United States" "#" = ["US"; "United States"]%string.
Proof. reflexivity. Qed.

Example strings_Split_state_key :
  strings_Split "CA##California" "##" = ["CA"; "California"]%string.
Proof. reflexivity. Qed.

Example strings_Split_overlap :
  strings_Split "a###b##" "##" = ["a"; "#b"; ""]%string.
Proof. reflexivity. Qed.

Example strings_Split_no_separator :
  strings_Split "Texas" "##" = ["Texas"]%string.
Proof. reflexivity. Qed.

Example sort_Ints_example : sort_Ints [3; 1; 2; 1] = [1; 1; 2; 3].
Proof. reflexivity. Qed.

Example wrap_int_overflow : wrap_int (2 ^ 63 - 1 + 1) = - 2 ^ 63.
Proof. reflexivity. Qed.

(** With spare capacity the append and the sort of the copy show through
    the slice that was not reassigned; without, they do not. *)
Example append_then_sort_shared :
  append_then_sort (mkIntSlice [5; 7] [0; 0]) 1
  = (mkIntSlice [1; 5; 7] [0], mkIntSlice [1; 5] [7; 0]).
Proof. reflexivity. Qed.

Example append_then_sort_fresh :
  append_then_sort (mkIntSlice [5; 7] []) 1
  = (mkIntSlice [1; 5; 7] [], mkIntSlice [5; 7] []).
Proof. reflexivity. Qed.

Definition manager_of (w : World) : StateManager :=
  match w with
  | Running sm => sm
  | Stopped d => NewStateManager d
  end.

Definition fresh : World := Running (NewStateManager empty_DB).

Definition init_zip_US : Op := Op_Init (mkInitOptions "zip"%string "US") seed_two.
Definition init_city_state_country_all : Op :=
  Op_Init (mkInitOptions "city-state-country"%string "all") seed_two.

(** The manager right after [Init] on a new store: step 0 is current and
    its session is active. *)
Definition started (per_iteration : bool) : StateManager :=
  manager_of (run_ops per_iteration no_spare [init_zip_US] fresh).

(** Los Angeles, California, US under city-state-country with target US:
    one step, whose placeholder is the city and which has no successor. *)
Example single_step_expansion :
  let sm := manager_of
              (run_ops true no_spare
                 [Op_Init (mkInitOptions "city-state-country"%string "US") seed_two]
                 fresh) in
  navOrder sm
  = [mkNav None None (Some "Los Angeles") (Some "California") (Some "CA")
           (Some "US") (Some "US") None]%string
  /\ option_map NavResponse_Placeholder (currentNav sm) = Some "Los Angeles"%string
  /\ option_map NavResponse_HasNext (currentNav sm) = Some false.
Proof. vm_compute. repeat split; reflexivity. Qed.

(** *** C1: three pages, marked one by one *)

Definition three_pages_orders : list (list Z) :=
  [[1; 2; 3]; [1; 3; 2]; [2; 1; 3]; [2; 3; 1]; [3; 1; 2]; [3; 2; 1]].

(** The run [Init; SetPageNav(3, []); MarkPageAsDone(a); (b); (c)] on a new
    store, and what to look at afterwards: the active session, the page
    value the manager holds and the text of the [page] column. *)
Definition after_three_marks (per_iteration : bool) (order : list Z)
  : option NavSession * option PageValue :=
  let sm := manager_of
              (run_ops per_iteration no_spare
                 (init_zip_US :: Op_SetPageNav 3 (slice_of [])
                    :: map Op_MarkPageAsDone order) fresh) in
  (GetCurrentNavSession (db sm), option_map NavResponse_Page (currentNav sm)).

Definition still_active (order : list Z)
  (r : option NavSession * option PageValue) : Prop :=
  exists s,
    fst r = Some s
    /\ NavSession_Completed s = false
    /\ NavSession_Page s = PageText_json [last order 0] 3
    /\ snd r = Some (Page_PageNav (mkPageNav (slice_of []) 3)).

(** C1.  With total 3 declared and no page given, marking pages 1, 2 and 3
    in any of the six orders leaves the session active: its completed flag
    is false, the [page] column holds only the page marked last, and the
    manager still holds the empty page list it was given.  The
    specification has the session completed at this point. *)
Theorem three_marked_pages_do_not_complete :
  forall per_iteration,
    Forall (fun order => still_active order (after_three_marks per_iteration order))
           three_pages_orders.
Proof.
  intros per_iteration. unfold three_pages_orders.
  repeat apply Forall_cons; try apply Forall_nil;
    destruct per_iteration; unfold still_active;
    eexists; (split; [vm_compute; reflexivity|]); vm_compute; repeat split; reflexivity.
Qed.

(** *** C2: countries in the order of the rows *)

(** The country codes of consecutive steps never go down. *)
Fixpoint country_codes_ascending (navs : list Nav) : bool :=
  match navs with
  | [] => true
  | a :: rest =>
      match rest with
      | [] => true
      | b :: _ =>
          match Nav_Country a, Nav_Country b with
          | Some x, Some y => String.leb x y
          | _, _ => true
          end && country_codes_ascending rest
      end
  end.

Definition expanded_two (per_iteration : bool) : StateManager :=
  manager_of (run_ops per_iteration no_spare [init_city_state_country_all] fresh).

(** C2 fails.  The store received the row of US before the row of CA;
    [Init] loads the countries in that order and the expansion lists the
    step of US before the step of CA, which is not ascending in the
    country code, under either meaning of the loop variables. *)
Lemma expansion_not_sorted_by_country_code :
  (map Country_CountryShort (countries (expanded_two true)) = ["US"; "CA"]%string
   /\ map Nav_Country (navOrder (expanded_two true)) = [Some "US"; Some "CA"]%string
   /\ country_codes_ascending (navOrder (expanded_two true)) = false)
  /\ (map Country_CountryShort (countries (expanded_two false)) = ["US"; "CA"]%string
      /\ map Nav_Country (navOrder (expanded_two false)) = [Some "US"; Some "CA"]%string
      /\ country_codes_ascending (navOrder (expanded_two false)) = false).
Proof. vm_compute. repeat split; reflexivity. Qed.

Lemma generateNavOrder_follows_loaded_country_order_witness :
  format (expanded_two true) = Some "city-state-country"%string
  /\ exists sm',
       generateNavOrder true (expanded_two true) = Ret tt sm'
       /\ navOrder sm'
          = List.concat (map (navs_of_country true (expanded_two true)
                                              "city-state-country"%string)
                             (countries (expanded_two true))).
Proof.
  split; [reflexivity|].
  destruct (@generateNavOrder_follows_loaded_country_order
              true (expanded_two true) "city-state-country"%string eq_refl)
    as (sm' & H1 & H2 & _).
  exists sm'. split; [exact H1|exact H2].
Defined.

(** *** C3: what an advance marks *)








(** *** C4, C5, C6: a manager with an active session *)


Lemma GetNextNav_with_active_session_is_noop_witness :
  exists s,
    In s (tbl_nav_sessions (db (started true)))
    /\ NavSession_Completed s = false
    /\ GetNextNav (started true) = Ret (currentNav (started true), None) (started true).
Proof.
  exists (mkNavSession 1 "zip" "US" None (Some 1) None None PageText_empty false true).
  assert (Hin : In (mkNavSession 1 "zip" "US" None (Some 1) None None
                                 PageText_empty false true)
                   (tbl_nav_sessions (db (started true))))
    by (vm_compute; tauto).
  split; [exact Hin|]. split; [reflexivity|].
  exact (@GetNextNav_with_active_session_is_noop (started true) _ Hin eq_refl).
Defined.

Definition started_world : World :=
  world_of (run_op true no_spare init_zip_US (NewStateManager empty_DB)).

Lemma started_world_reachable : reachable true no_spare started_world.
Proof.
  unfold started_world.
  eapply reachable_step; [|apply step_op].
  eapply reachable_step; [apply reachable_start|apply step_open].
Defined.

Lemma at_most_one_active_session_witness :
  reachable true no_spare started_world
  /\ (active_sessions (world_db started_world) <= 1)%nat
  /\ active_sessions (world_db started_world) = 1%nat.
Proof.
  split; [exact started_world_reachable|]. split.
  - exact (proj1 (@at_most_one_active_session true no_spare)
                 started_world started_world_reachable).
  - vm_compute. reflexivity.
Defined.

(** *** C7: what a reset leaves of the used flags *)

Definition second_step_started (per_iteration : bool) : StateManager :=
  manager_of
    (run_ops per_iteration no_spare
       [init_city_state_country_all; Op_MarkComplete; Op_GetNextNav] fresh).

Definition toronto_used : City :=
  mkCity (Some 2) "Toronto" "ON" "CA" None true false.

Definition canada_used : Country := mkCountry None "Canada" "CA" true false.

Definition reset_keeps_flags (per_iteration : bool) : Prop :=
  let sm := second_step_started per_iteration in
  In toronto_used (tbl_cities (db sm))
  /\ In canada_used (tbl_countries (db sm))
  /\ exists sm',
       ResetNav no_spare sm = Ret None sm'
       /\ currentIndex sm' = 0
       /\ List.length (tbl_nav_sessions (db sm')) = 1%nat
       /\ In toronto_used (tbl_cities (db sm'))
       /\ In canada_used (tbl_countries (db sm'))
       /\ ~ Forall (fun c => City_Used c = false) (tbl_cities (db sm')).

(** C7 fails.  The second step, Toronto in CA, was started, which set the
    used flags of its city and country.  [ResetNav] then deletes the
    sessions and starts again at index 0, and both flags are still set
    afterwards. *)
Lemma ResetNav_does_not_clear_used_flags :
  reset_keeps_flags true /\ reset_keeps_flags false.
Proof.
  split; unfold reset_keeps_flags;
    (split; [vm_compute; tauto|]);
    (split; [vm_compute; tauto|]);
    eexists;
    (split; [vm_compute; reflexivity|]);
    (split; [vm_compute; reflexivity|]);
    (split; [vm_compute; reflexivity|]);
    (split; [vm_compute; tauto|]);
    (split; [vm_compute; tauto|]);
    intros F; rewrite Forall_forall in F;
    assert (U : City_Used toronto_used = false) by (apply F; vm_compute; tauto);
    discriminate U.
Qed.

Lemma ResetNav_deletes_sessions_and_keeps_used_flags_witness :
  exists sm',
    ResetNav no_spare (second_step_started true) = Ret None sm'
    /\ currentIndex sm' = 0
    /\ keeps_used (db (second_step_started true)) (db sm').
Proof.
  destruct (ResetNav no_spare (second_step_started true)) as [[msg|] sm'|d] eqn:R;
    try (vm_compute in R; discriminate R).
  exists sm'. split; [reflexivity|].
  pose proof (@ResetNav_deletes_sessions_and_keeps_used_flags
                true no_spare (second_step_started true)) as (_ & K & I & _).
  rewrite R in K. split; [exact (I None sm' R)|exact K].
Defined.

(** *** C8: a valid batch the store refuses *)

(** The manager after [Populate] on a new store: country US, state CA. *)
Definition populated (per_iteration : bool) : StateManager :=
  manager_of (run_ops per_iteration no_spare [Op_Populate] fresh).

Definition austin : CityInput := mkCityInput "Austin" "Texas" "TX" "US".

Definition valid_batch_not_inserted (per_iteration : bool) : Prop :=
  let sm := populated per_iteration in
  existsb city_input_invalid [austin] = false
  /\ existsb city_invalid (map city_of_input [austin]) = false
  /\ country_exists (db sm) "US" = true
  /\ state_exists (db sm) "TX" "US" = false
  /\ SM_AddCities per_iteration [austin] sm = Ret (Some fk_failed) sm
  /\ AddCities (map city_of_input [austin]) true (db sm) = (Some fk_failed, db sm)
  /\ tbl_cities (db sm) = [].

(** C8 fails in its last part.  Every field of the record is filled in, so
    the batch is valid, but the store has no state TX in US: the insert is
    refused for its foreign key, the call returns that error and the city
    table stays empty. *)
Lemma valid_batch_refused_by_foreign_key :
  valid_batch_not_inserted true /\ valid_batch_not_inserted false.
Proof. split; vm_compute; repeat split; reflexivity. Qed.

Lemma bulk_add_is_all_or_nothing_witness :
  existsb city_invalid [mkCity None "" "TX" "US" None false true] = true
  /\ AddCities [mkCity None "" "TX" "US" None false true] true (db (populated true))
     = (Some "all cities must have city, stateShort, and countryShort"%string,
        db (populated true))
  /\ existsb state_invalid [mkState None "Texas" "TX" "US" false true] = false
  /\ exists d',
       AddStates [mkState None "Texas" "TX" "US" false true] true (db (populated true))
       = (None, d').
Proof.
  pose proof (@bulk_add_is_all_or_nothing true) as (Hrej & Hins & _).
  destruct Hrej as (_ & _ & Hcities & _).
  destruct (Hins true (db (populated true))) as (_ & Hstates & _).
  split; [reflexivity|]. split.
  - apply Hcities. reflexivity.
  - split; [reflexivity|].
    destruct (Hstates [mkState None "Texas" "TX" "US" false true] eq_refl) as [_ Hok].
    apply Hok. intros r [<-|[]]. vm_compute. reflexivity.
Defined.

(** *** C9: a store with a query of each origin *)

Definition mixed_queries : StateManager :=
  set_db (with_queries empty_DB
            [mkQuery (Some 1) "seeded" false false;
             mkQuery (Some 2) "Realtor" false true] 2)
         (NewStateManager empty_DB).

Lemma ClearSearchQueries_deletes_external_rows_only_witness :
  In (mkQuery (Some 1) "seeded" false false) (tbl_queries (db mixed_queries))
  /\ In (mkQuery (Some 1) "seeded" false false)
        (tbl_queries (final_db (ClearSearchQueries true mixed_queries)))
  /\ tbl_queries (final_db (ClearSearchQueries true mixed_queries))
     = [mkQuery (Some 1) "seeded" false false].
Proof.
  pose proof (@ClearSearchQueries_deletes_external_rows_only true mixed_queries)
    as (Ht & Hkeep & _).
  assert (Hin : In (mkQuery (Some 1) "seeded" false false)
                   (tbl_queries (db mixed_queries))) by (vm_compute; tauto).
  split; [exact Hin|]. split.
  - apply Hkeep; [exact Hin|reflexivity].
  - rewrite Ht. vm_compute. reflexivity.
Defined.

(** *** C10: a manager that was never initialised *)

Lemma pagination_without_current_nav_is_noop_witness :
  currentNav (NewStateManager empty_DB) = None
  /\ SetPageNav 3 (slice_of []) (NewStateManager empty_DB)
     = Ret None (NewStateManager empty_DB)
  /\ MarkPageAsDone 1 (NewStateManager empty_DB)
     = Ret None (NewStateManager empty_DB).
Proof.
  split; [reflexivity|].
  exact (@pagination_without_current_nav_is_noop
           (NewStateManager empty_DB) 3 (slice_of []) 1 eq_refl).
Defined.

(* ===================================================================== *)
(** ** Further runs on concrete stores *)
(* ===================================================================== *)

(** Three zips of US under the format zip: a sequence of three steps. *)
Definition run_from_fresh (ops : list Op) : StateManager :=
  manager_of (run_ops true no_spare ops fresh).

(** Step 0 started and completed: the cursor is on step 0 and no session
    is active. *)
Definition first_step_done : StateManager :=
  run_from_fresh [init_zip_US; Op_MarkComplete].

(** All three steps started and completed. *)
Definition last_step_done : StateManager :=
  run_from_fresh [init_zip_US; Op_MarkComplete; Op_GetNextNav; Op_MarkComplete;
                  Op_GetNextNav; Op_MarkComplete].

Ltac by_computation := vm_compute; first [reflexivity | discriminate | tauto].

Lemma first_step_done_ready : ready first_step_done.
Proof. apply readyb_ready. vm_compute. reflexivity. Defined.

Lemma GetNextNav_exhausted_stays_exhausted_witness :
  GetCurrentNavSession (db last_step_done) = None
  /\ navOrder_len last_step_done = 3
  /\ currentIndex last_step_done = 2
  /\ GetNextNav last_step_done
     = Ret (None, None) (set_currentNav None (set_currentIndex 3 last_step_done))
  /\ run_ops true no_spare [Op_GetNextNav; Op_GetNextNav] (Running last_step_done)
     = Running (set_currentNav None (set_currentIndex 4 last_step_done)).
Proof.
  split; [by_computation|]. split; [by_computation|]. split; [by_computation|].
  assert (E : GetCurrentNavSession (db last_step_done) = None) by by_computation.
  assert (L : navOrder_len last_step_done <= currentIndex last_step_done + 1)
    by by_computation.
  assert (B : currentIndex last_step_done + Z.of_nat 2 < 2 ^ 63) by by_computation.
  exact (@GetNextNav_exhausted_stays_exhausted true no_spare 1 last_step_done E L B).
Defined.

Lemma MarkComplete_unblocks_GetNextNav_witness :
  (active_sessions (db (started true)) <= 1)%nat
  /\ exists sm1,
       MarkComplete (started true) = Ret None sm1
       /\ active_sessions (db sm1) = 0%nat
       /\ currentIndex sm1 = 0.
Proof.
  assert (L : (active_sessions (db (started true)) <= 1)%nat)
    by (vm_compute; apply le_n).
  split; [exact L|].
  assert (R : exists e sm1, MarkComplete (started true) = Ret e sm1)
    by (eexists; eexists; vm_compute; reflexivity).
  destruct R as (e & sm1 & M).
  destruct (proj1 (@MarkComplete_unblocks_GetNextNav (started true) L) e sm1 M)
    as (-> & A & I & _).
  exists sm1. split; [exact M|]. split; [exact A|exact I].
Defined.

Lemma restore_cursor_in_range_witness :
  exists s sm',
    GetCurrentNavSession (db (started true)) = Some s
    /\ restoreOrStartSession no_spare (started true) = Ret None sm'
    /\ 0 <= currentIndex sm' < navOrder_len sm'.
Proof.
  assert (R : exists s, GetCurrentNavSession (db (started true)) = Some s)
    by (eexists; vm_compute; reflexivity).
  destruct R as (s & E).
  assert (N : navOrder (started true) <> []) by by_computation.
  destruct (@restore_cursor_in_range no_spare (started true) s E N)
    as (sm' & R & _ & I & _).
  exists s, sm'. split; [exact E|]. split; [exact R|exact I].
Defined.

(** The manager after [Init] with the format query-zip on US and two
    queries added: two queries times three zips. *)
Definition two_queries : StateManager :=
  run_from_fresh [Op_Init (mkInitOptions "query-zip"%string "US") seed_two;
                  Op_AddSearchQueries ["Realtor"; "Plumber"]%string].

Lemma expansion_carries_query_iff_query_prefix_witness :
  format two_queries = Some "query-zip"%string
  /\ exists sm',
       generateNavOrder true two_queries = Ret tt sm'
       /\ List.length (navOrder sm') = 6%nat
       /\ forall nav, In nav (navOrder sm') -> Nav_Query nav <> None.
Proof.
  split; [reflexivity|].
  pose proof (@generateNavOrder_some true two_queries "query-zip"%string eq_refl) as G.
  eexists. split; [exact G|]. split.
  - vm_compute. reflexivity.
  - intros nav H.
    destruct (@expansion_carries_query_iff_query_prefix
                true two_queries "query-zip"%string _ eq_refl G) as [Q _].
    apply (Q nav H). reflexivity.
Defined.

Lemma query_expansion_size_witness :
  format two_queries = Some "query-zip"%string
  /\ strings_HasPrefix "query-zip" "query-" = true
  /\ exists sm',
       generateNavOrder true two_queries = Ret tt sm'
       /\ forall country q,
            List.length (navs_of_country true two_queries "query-zip"%string country)
            = (2 * List.length
                     (addNavForQuery true "query-zip"%string (Some q) country
                        (getStatesByCountry two_queries (Country_CountryShort country))
                        (getCitiesByCountry two_queries (Country_CountryShort country))
                        (getZipsByCountry two_queries (Country_CountryShort country))))%nat.
Proof.
  split; [reflexivity|]. split; [reflexivity|].
  pose proof (@generateNavOrder_some true two_queries "query-zip"%string eq_refl) as G.
  eexists. split; [exact G|].
  destruct (@query_expansion_size true two_queries "query-zip"%string _
              eq_refl eq_refl G) as [B _].
  exact B.
Defined.

Lemma expansion_steps_come_from_loaded_entities_witness :
  format (started true) = Some "zip"%string
  /\ exists sm',
       generateNavOrder true (started true) = Ret tt sm'
       /\ In (mkNav None (Some "90002"%string) None None None (Some "US"%string) None None)
             (navOrder sm')
       /\ exists zip, In zip (zips (started true)) /\ Zip_Zip zip = "90002"%string.
Proof.
  split; [reflexivity|].
  pose proof (@generateNavOrder_some true (started true) "zip"%string eq_refl) as G.
  eexists. split; [exact G|].
  assert (H : In (mkNav None (Some "90002"%string) None None None
                        (Some "US"%string) None None)
                 (navOrder (set_navOrder
                              (flat_map (navs_of_country true (started true) "zip"%string)
                                        (countries (started true)))
                              (started true)))).
  { vm_compute. tauto. }
  split; [exact H|].
  destruct (@expansion_steps_come_from_loaded_entities
              true (started true) "zip"%string _ _ eq_refl G H)
    as (country & _ & _ & Z & _).
  destruct (Z "90002"%string eq_refl) as (zip & I & T & _).
  exists zip. split; [exact I|exact T].
Defined.

Lemma ready_manager_never_panics_witness :
  ready first_step_done
  /\ currentIndex first_step_done + 1 < 2 ^ 63
  /\ exists sm',
       run_op true no_spare Op_GetNextNav first_step_done = Ret tt sm' /\ ready sm'.
Proof.
  split; [exact first_step_done_ready|].
  assert (B : currentIndex first_step_done + 1 < 2 ^ 63) by by_computation.
  split; [exact B|].
  exact (@ready_manager_never_panics true no_spare Op_GetNextNav first_step_done
           first_step_done_ready B).
Defined.

Lemma GetNextNav_returns_the_next_step_witness :
  ready first_step_done
  /\ GetCurrentNavSession (db first_step_done) = None
  /\ exists r e sm',
       GetNextNav first_step_done = Ret (Some r, e) sm'
       /\ currentIndex sm' = 1
       /\ NavResponse_Nav r
          = mkNav None (Some "90002"%string) None None None (Some "US"%string) None None
       /\ NavResponse_HasNext r = true.
Proof.
  split; [exact first_step_done_ready|].
  assert (E : GetCurrentNavSession (db first_step_done) = None) by by_computation.
  split; [exact E|].
  assert (L : currentIndex first_step_done + 1 < navOrder_len first_step_done)
    by by_computation.
  assert (B : navOrder_len first_step_done < 2 ^ 63) by by_computation.
  destruct (@GetNextNav_returns_the_next_step first_step_done
              first_step_done_ready E L B)
    as (r & e & sm' & G & N & I & _ & _ & _ & _ & H).
  exists r, e, sm'. split; [exact G|]. split; [exact I|]. split.
  - assert (N' : nth_error (navOrder first_step_done)
                          (Z.to_nat (currentIndex first_step_done + 1))
                = Some (mkNav None (Some "90002"%string) None None None
                              (Some "US"%string) None None)) by by_computation.
    congruence.
  - apply H. by_computation.
Defined.

Lemma walk_visits_steps_in_order_witness :
  ready first_step_done
  /\ active_sessions (db first_step_done) = 0%nat
  /\ exists sm',
       run_ops true no_spare
         [Op_GetNextNav; Op_MarkComplete; Op_GetNextNav; Op_MarkComplete]
         (Running first_step_done) = Running sm'
       /\ currentIndex sm' = 2
       /\ option_map NavResponse_Nav (currentNav sm')
          = Some (mkNav None (Some "90003"%string) None None None
                        (Some "US"%string) None None).
Proof.
  split; [exact first_step_done_ready|].
  assert (A : active_sessions (db first_step_done) = 0%nat) by by_computation.
  split; [exact A|].
  assert (L : currentIndex first_step_done + Z.of_nat 2 < navOrder_len first_step_done)
    by by_computation.
  assert (B : navOrder_len first_step_done < 2 ^ 63) by by_computation.
  destruct (@walk_visits_steps_in_order true no_spare 1 first_step_done
              first_step_done_ready A L B)
    as (sm' & R & _ & _ & I & _ & C).
  exists sm'. split; [exact R|]. split; [exact I|].
  rewrite C. reflexivity.
Defined.

Lemma first_step_done_reachable : reachable true no_spare (Running first_step_done).
Proof.
  assert (E : run_ops true no_spare [init_zip_US; Op_MarkComplete] fresh
              = Running first_step_done) by (vm_compute; reflexivity).
  rewrite <- E. apply reachable_run_ops, reachable_fresh_manager.
Defined.

Definition zip_90001_used : Zip := mkZip (Some 1) "90001" "US" true false.

Lemma used_flags_outlive_every_operation_but_ResetDatabase_witness :
  Op_GetNextNav <> Op_ResetDatabase
  /\ In zip_90001_used (tbl_zips (db first_step_done))
  /\ In zip_90001_used
        (tbl_zips (final_db (run_op true no_spare Op_GetNextNav first_step_done))).
Proof.
  assert (N : Op_GetNextNav <> Op_ResetDatabase) by discriminate.
  assert (I : In zip_90001_used (tbl_zips (db first_step_done)))
    by (vm_compute; tauto).
  split; [exact N|]. split; [exact I|].
  destruct (@used_flags_outlive_every_operation_but_ResetDatabase
              true no_spare Op_GetNextNav first_step_done N)
    as [(_ & _ & _ & Z & _) _].
  exact (Z zip_90001_used I eq_refl).
Defined.

Lemma reachable_stores_have_unique_keys_witness :
  reachable true no_spare (Running first_step_done)
  /\ unique_keys (world_db (Running first_step_done)).
Proof.
  split; [exact first_step_done_reachable|].
  exact (proj1 (@reachable_stores_have_unique_keys true no_spare)
               (Running first_step_done) first_step_done_reachable).
Defined.

Definition first_session_completed : NavSession :=
  mkNavSession 1 "zip" "US" None (Some 1) None None PageText_empty true true.

Lemma completed_sessions_are_left_alone_witness :
  reachable true no_spare (Running first_step_done)
  /\ In first_session_completed (tbl_nav_sessions (db first_step_done))
  /\ NavSession_Completed first_session_completed = true
  /\ In first_session_completed
        (tbl_nav_sessions
           (final_db (run_op true no_spare (Op_SetPageNav 3 (slice_of [1]))
                             (manager_of
                                (run_ops true no_spare [Op_GetNextNav]
                                         (Running first_step_done)))))).
Proof.
  split; [exact first_step_done_reachable|].
  split; [vm_compute; tauto|]. split; [reflexivity|].
  apply (@completed_sessions_are_left_alone true no_spare).
  - assert (E : run_ops true no_spare [Op_GetNextNav] (Running first_step_done)
                = Running (manager_of (run_ops true no_spare [Op_GetNextNav]
                                               (Running first_step_done))))
      by (vm_compute; reflexivity).
    rewrite <- E. apply reachable_run_ops. exact first_step_done_reachable.
  - discriminate.
  - discriminate.
  - discriminate.
  - vm_compute. tauto.
  - reflexivity.
Defined.

Lemma SetPageNav_is_stored_and_restored_witness :
  exists cur s sm',
    currentNav (started true) = Some cur
    /\ GetCurrentNavSession (db (started true)) = Some s
    /\ SetPageNav 5 (slice_of [2; 1]) (started true) = Ret None sm'
    /\ option_map NavSession_Page (GetCurrentNavSession (db sm'))
       = Some (PageText_json [2; 1] 5)
    /\ exists sm2' cur2 held,
         restoreOrStartSession no_spare (NewStateManager (db sm')) = Ret None sm2'
         /\ currentNav sm2' = Some cur2
         /\ NavResponse_Page cur2 = Page_PageNav held
         /\ elems (PageNav_Pages held) = [2; 1]
         /\ PageNav_Total held = 5.
Proof.
  assert (C : exists cur, currentNav (started true) = Some cur)
    by (eexists; vm_compute; reflexivity).
  assert (E : exists s, GetCurrentNavSession (db (started true)) = Some s)
    by (eexists; vm_compute; reflexivity).
  destruct C as [cur C]. destruct E as [s E].
  destruct (@SetPageNav_is_stored_and_restored no_spare 5 (slice_of [2; 1])
              (started true) cur s C E) as (sm' & H1 & _ & H3 & H4).
  exists cur, s, sm'. split; [exact C|]. split; [exact E|]. split; [exact H1|].
  split; [rewrite H3; reflexivity|].
  exact (H4 (NewStateManager (db sm')) eq_refl).
Defined.

Lemma Init_loads_the_target_country_only_witness :
  exists sm',
    Init true no_spare (mkInitOptions "city"%string "US") seed_two
         (NewStateManager empty_DB) = Ret None sm'
    /\ "US"%string <> "all"%string
    /\ forall c, In c (cities sm') -> City_CountryShort c = "US"%string.
Proof.
  assert (I : exists sm',
             Init true no_spare (mkInitOptions "city"%string "US") seed_two
                  (NewStateManager empty_DB) = Ret None sm')
    by (eexists; vm_compute; reflexivity).
  destruct I as [sm' I].
  assert (T : InitOptions_TargetCountry (mkInitOptions "city"%string "US")
              <> "all"%string) by discriminate.
  exists sm'. split; [exact I|]. split; [exact T|].
  exact (proj1 (proj2 (proj2
           (@Init_loads_the_target_country_only true no_spare _ _ _ sm' I T)))).
Defined.



Lemma first_step_done_told_apart : told_apart first_step_done.
Proof. apply told_apartb_told_apart. vm_compute. reflexivity. Defined.

Lemma saved_step_is_found_again_witness :
  exists r sm' sm2',
    GetCurrentNavSession (db first_step_done) = None
    /\ GetNextNav first_step_done = Ret (Some r, None) sm'
    /\ currentIndex sm' = 1
    /\ restoreOrStartSession no_spare (set_db (db sm') first_step_done) = Ret None sm2'
    /\ currentIndex sm2' = 1.
Proof.
  assert (E : GetCurrentNavSession (db first_step_done) = None) by by_computation.
  assert (G : exists r sm',
             GetNextNav first_step_done = Ret (Some r, None) sm'
             /\ currentIndex sm' = 1
             /\ (Nav_Zip (NavResponse_Nav r) = Some "90002"%string))
    by (eexists; eexists; split; [|split]; vm_compute; reflexivity).
  destruct G as (r & sm' & G & I & Z).
  assert (N : navOrder first_step_done
              = flat_map (navs_of_country true first_step_done "zip"%string)
                         (countries first_step_done)) by (vm_compute; reflexivity).
  destruct (@saved_step_is_found_again true no_spare first_step_done "zip"%string
              r sm' (set_db (db sm') first_step_done)
              N first_step_done_told_apart E G
              (db_set_db first_step_done (db sm'))
              (same_rows_set_db first_step_done (db sm'))
              (navOrder_set_db first_step_done (db sm')))
    as (sm2' & j & nav & H1 & H2 & H3 & H4 & H5 & H6 & H7).
  exists r, sm', sm2'. split; [exact E|]. split; [exact G|]. split; [exact I|].
  split; [exact H1|].
  rewrite <- I. apply H7.
  intros m nav' Hm Hn [_ [Hz _]].
  rewrite I in Hm. assert (m = 0%nat) by lia. subst m.
  assert (N0 : nth_error (navOrder first_step_done) 0
               = Some (mkNav None (Some "90001"%string) None None None
                             (Some "US"%string) None None))
    by (vm_compute; reflexivity).
  rewrite N0 in Hn. inversion Hn; subst nav'. rewrite Z in Hz. discriminate Hz.
Defined.
